(** * Tetris standalone: the game-rule engine of [tetris_standalone.py]

    A shallow embedding of the classes [Piece], [Board] and [Tetris] and of
    the key dispatch of [main], followed by the properties of the
    specification that concern them.

    Conventions of the embedding.
    - Python integers are [Z]; a Python list is a [list]; [None] in a grid
      cell is [None : option Kind].
    - A raised Python exception ends the computation: fallible code lives in
      the [result] monad below.  Only [IndexError] can arise in the engine.
    - [random.choice] and [pygame.time.get_ticks] are inputs of the
      operations that call them.
    - The [while] loop of [hard_drop] is unrolled under a bound on the
      number of [move_down] calls. *)

From Stdlib Require Import ZArith Lia Bool.
From stdpp Require Import base tactics option list.

Open Scope Z_scope.

(* ===================================================================== *)
(** * Python runtime: exceptions and list subscripts                       *)
(* ===================================================================== *)

Inductive PyExn : Type := IndexError.

Inductive result (A : Type) : Type :=
| Ok (v : A)
| Raise (e : PyExn).
Arguments Ok {A} v.
Arguments Raise {A} e.

Definition bind {A B : Type} (m : result A) (k : A → result B) : result B :=
  match m with
  | Ok v => k v
  | Raise e => Raise e
  end.

Notation "'let*' x ':=' m 'in' k" := (bind m (fun x => k))
  (at level 10, x pattern, m at level 100, k at level 200).

(** [l[i]] resolves a subscript as CPython does: [0 <= i < len(l)] is
    position [i], [-len(l) <= i < 0] is position [len(l) + i], anything
    else raises [IndexError]. *)
Definition py_index {A : Type} (l : list A) (i : Z) : result nat :=
  let n := Z.of_nat (length l) in
  if (0 <=? i) && (i <? n) then Ok (Z.to_nat i)
  else if (- n <=? i) && (i <? 0) then Ok (Z.to_nat (n + i))
  else Raise IndexError.

(** [l[i]] as an expression. *)
Definition getitem {A : Type} (l : list A) (i : Z) : result A :=
  let* k := py_index l i in
  match l !! k with
  | Some v => Ok v
  | None => Raise IndexError
  end.

(** [l[i] = v] as a statement. *)
Definition setitem {A : Type} (l : list A) (i : Z) (v : A) : result (list A) :=
  let* k := py_index l i in Ok (<[k := v]> l).

(** [enumerate(l)]: the elements of [l] paired with their positions. *)
Fixpoint enumerate_from {A : Type} (i : Z) (l : list A) : list (Z * A) :=
  match l with
  | [] => []
  | a :: l' => (i, a) :: enumerate_from (i + 1) l'
  end.

Definition enumerate {A : Type} (l : list A) : list (Z * A) :=
  enumerate_from 0 l.

(** Truth value of an integer in a condition ([if cell:]). *)
Definition truthy (z : Z) : bool := negb (z =? 0).

(* ===================================================================== *)
(** * Configuration and the shape catalogue                               *)
(* ===================================================================== *)

Definition BOARD_WIDTH : Z := 10.
Definition BOARD_HEIGHT : Z := 20.
Definition FALL_SPEED : Z := 500.

(** The keys of [PIECES]: the seven piece types.  They live in their own
    name space because [S], [O], [Z] and [I] are taken by the library. *)
Module Kind.

Inductive t : Type := I | O | T | S | Z | J | L.

(** [a == b] on type tags. *)
Definition eqb (a b : t) : bool :=
  match a, b with
  | I, I | O, O | T, T | S, S | Z, Z | J, J | L, L => true
  | _, _ => false
  end.

End Kind.

(** One rotation state: a matrix of 0/1 entries, row by row. *)
Abbreviation Shape := (list (list Z)) (only parsing).

Definition PIECES (k : Kind.t) : list Shape :=
  match k with
  | Kind.I => [ [[1; 1; 1; 1]];
           [[1]; [1]; [1]; [1]] ]
  | Kind.O => [ [[1; 1];
            [1; 1]] ]
  | Kind.T => [ [[0; 1; 0];
            [1; 1; 1]];
           [[1; 0];
            [1; 1];
            [1; 0]];
           [[1; 1; 1];
            [0; 1; 0]];
           [[0; 1];
            [1; 1];
            [0; 1]] ]
  | Kind.S => [ [[0; 1; 1];
            [1; 1; 0]];
           [[1; 0];
            [1; 1];
            [0; 1]] ]
  | Kind.Z => [ [[1; 1; 0];
             [0; 1; 1]];
            [[0; 1];
             [1; 1];
             [1; 0]] ]
  | Kind.J => [ [[1; 0; 0];
            [1; 1; 1]];
           [[1; 1];
            [1; 0];
            [1; 0]];
           [[1; 1; 1];
            [0; 0; 1]];
           [[0; 1];
            [0; 1];
            [1; 1]] ]
  | Kind.L => [ [[0; 0; 1];
            [1; 1; 1]];
           [[1; 0];
            [1; 0];
            [1; 1]];
           [[1; 1; 1];
            [1; 0; 0]];
           [[1; 1];
            [0; 1];
            [0; 1]] ]
  end.

(* ===================================================================== *)
(** * class Piece                                                          *)
(* ===================================================================== *)

Module Piece.

(** The attributes of a [Piece] object.  [self.rotations] is assigned once,
    in [__init__], to [PIECES[self.type]] and [self.type] is never
    reassigned, so it is the derived attribute [rotations] below. *)
Record t : Type := mk {
  type : Kind.t;
  rotation : Z;
  shape : Shape;
  x : Z;
  y : Z
}.

Definition rotations (p : t) : list Shape := PIECES (type p).

(** [Piece(piece_type)] with the type given. *)
Definition new (piece_type : Kind.t) : t :=
  {| type := piece_type;
     rotation := 0;
     shape := nth 0 (PIECES piece_type) [];
     x := 3;
     y := 0 |}.

Definition set_x (v : Z) (p : t) : t :=
  {| type := type p; rotation := rotation p; shape := shape p;
     x := v; y := y p |}.

Definition set_y (v : Z) (p : t) : t :=
  {| type := type p; rotation := rotation p; shape := shape p;
     x := x p; y := v |}.

Definition set_rotation (v : Z) (p : t) : t :=
  {| type := type p; rotation := v; shape := shape p;
     x := x p; y := y p |}.

Definition set_shape (v : Shape) (p : t) : t :=
  {| type := type p; rotation := rotation p; shape := v;
     x := x p; y := y p |}.

(** [rotate]: the index advances cyclically, the matrix follows.  The
    subscript [self.rotations[self.rotation]] is always in range (lemma
    [rotate_subscript] below), so it is read with [nth]. *)
Definition rotate (p : t) : t :=
  let r := (rotation p + 1) mod Z.of_nat (length (rotations p)) in
  set_shape (nth (Z.to_nat r) (rotations p) []) (set_rotation r p).

(** [get_positions]: absolute [(x, y)] of every non-zero matrix entry,
    rows first, columns inside a row. *)
Definition row_positions (p : t) (row_idx : Z) (row : list Z) : list (Z * Z) :=
  flat_map (fun '(col_idx, cell) =>
              if truthy cell then [(x p + col_idx, y p + row_idx)] else [])
           (enumerate row).

Definition get_positions (p : t) : list (Z * Z) :=
  flat_map (fun '(row_idx, row) => row_positions p row_idx row)
           (enumerate (shape p)).

End Piece.

(* ===================================================================== *)
(** * class Board                                                          *)
(* ===================================================================== *)

(** A grid cell is [None] or the type tag of the piece locked there; the
    grid is a list of rows ([grid[row][column]]). *)
Abbreviation Cell := (option Kind.t) (only parsing).
Abbreviation Grid := (list (list (option Kind.t))) (only parsing).

Module Board.

Record t : Type := mk {
  width : Z;
  height : Z;
  grid : Grid
}.

Definition set_grid (g : Grid) (b : t) : t :=
  {| width := width b; height := height b; grid := g |}.

(** [[None for _ in range(w)]] *)
Definition empty_row (w : Z) : list Cell := replicate (Z.to_nat w) None.

(** [[[None for _ in range(w)] for _ in range(h)]] *)
Definition empty_grid (w h : Z) : Grid := replicate (Z.to_nat h) (empty_row w).

(** [Board()] *)
Definition new : t :=
  {| width := BOARD_WIDTH;
     height := BOARD_HEIGHT;
     grid := empty_grid BOARD_WIDTH BOARD_HEIGHT |}.

(** [cell is not None] *)
Definition is_not_None (c : Cell) : bool :=
  match c with Some _ => true | None => false end.

(** The [for x, y in positions] loop of [is_valid_position]; the first
    offending cell returns [False] at once. *)
Fixpoint valid_positions (b : t) (positions : list (Z * Z)) : result bool :=
  match positions with
  | [] => Ok true
  | (x, y) :: rest =>
      if (x <? 0) || (x >=? width b) then Ok false
      else if y >=? height b then Ok false
      else if y >=? 0 then
        let* row := getitem (grid b) y in
        let* cell := getitem row x in
        if is_not_None cell then Ok false
        else valid_positions b rest
      else valid_positions b rest
  end.

Definition is_valid_position (b : t) (piece : Piece.t) : result bool :=
  valid_positions b (Piece.get_positions piece).

(** The loop of [lock_piece]: [self.grid[y][x] = piece.type] for every
    position with [y >= 0]. *)
Fixpoint lock_positions (g : Grid) (kind : Kind.t) (positions : list (Z * Z))
  : result Grid :=
  match positions with
  | [] => Ok g
  | (x, y) :: rest =>
      if y >=? 0 then
        let* row := getitem g y in
        let* row' := setitem row x (Some kind) in
        let* g' := setitem g y row' in
        lock_positions g' kind rest
      else lock_positions g kind rest
  end.

Definition lock_piece (b : t) (piece : Piece.t) : result t :=
  let* g := lock_positions (grid b) (Piece.type piece)
                           (Piece.get_positions piece) in
  Ok (set_grid g b).

(** [None in row] *)
Definition None_in (row : list Cell) : bool :=
  existsb (fun c => negb (is_not_None c)) row.

(** First loop of [clear_lines]: rows with a [None] are appended to
    [new_grid], the others are counted. *)
Fixpoint clear_rows (rows : Grid) (new_grid : Grid) (lines_cleared : Z)
  : Grid * Z :=
  match rows with
  | [] => (new_grid, lines_cleared)
  | row :: rest =>
      if None_in row then clear_rows rest (new_grid ++ [row]) lines_cleared
      else clear_rows rest new_grid (lines_cleared + 1)
  end.

(** Second loop of [clear_lines]: [new_grid.insert(0, [None, ...])], once
    per iteration of [range(lines_cleared)]. *)
Fixpoint insert_empty_rows (n : nat) (w : Z) (new_grid : Grid) : Grid :=
  match n with
  | O => new_grid
  | S n' => insert_empty_rows n' w (empty_row w :: new_grid)
  end.

(** [clear_lines]: the board afterwards and the returned count. *)
Definition clear_lines (b : t) : t * Z :=
  let '(new_grid, lines_cleared) := clear_rows (grid b) [] 0 in
  let new_grid := insert_empty_rows (Z.to_nat lines_cleared) (width b) new_grid in
  (set_grid new_grid b, lines_cleared).

(** [any(cell is not None for cell in self.grid[0])] *)
Definition is_game_over (b : t) : result bool :=
  let* row0 := getitem (grid b) 0 in
  Ok (existsb is_not_None row0).

Definition reset (b : t) : t :=
  set_grid (empty_grid (width b) (height b)) b.

End Board.

(* ===================================================================== *)
(** * class Tetris                                                         *)
(* ===================================================================== *)

Module Tetris.

Record t : Type := mk {
  board : Board.t;
  current_piece : Piece.t;
  next_piece : Piece.t;
  score : Z;
  lines_cleared : Z;
  game_over : bool;
  last_fall_time : Z;
  fall_speed : Z
}.

Definition set_board (v : Board.t) (s : t) : t :=
  mk v (current_piece s) (next_piece s) (score s) (lines_cleared s)
     (game_over s) (last_fall_time s) (fall_speed s).

Definition set_current_piece (v : Piece.t) (s : t) : t :=
  mk (board s) v (next_piece s) (score s) (lines_cleared s)
     (game_over s) (last_fall_time s) (fall_speed s).

Definition set_next_piece (v : Piece.t) (s : t) : t :=
  mk (board s) (current_piece s) v (score s) (lines_cleared s)
     (game_over s) (last_fall_time s) (fall_speed s).

Definition set_score (v : Z) (s : t) : t :=
  mk (board s) (current_piece s) (next_piece s) v (lines_cleared s)
     (game_over s) (last_fall_time s) (fall_speed s).

Definition set_lines_cleared (v : Z) (s : t) : t :=
  mk (board s) (current_piece s) (next_piece s) (score s) v
     (game_over s) (last_fall_time s) (fall_speed s).

Definition set_game_over (v : bool) (s : t) : t :=
  mk (board s) (current_piece s) (next_piece s) (score s) (lines_cleared s)
     v (last_fall_time s) (fall_speed s).

Definition set_last_fall_time (v : Z) (s : t) : t :=
  mk (board s) (current_piece s) (next_piece s) (score s) (lines_cleared s)
     (game_over s) v (fall_speed s).

(** [Tetris()]: [k1], [k2] are the two draws of [random.choice], [ticks]
    the value of [pygame.time.get_ticks()]. *)
Definition new (k1 k2 : Kind.t) (ticks : Z) : t :=
  {| board := Board.new;
     current_piece := Piece.new k1;
     next_piece := Piece.new k2;
     score := 0;
     lines_cleared := 0;
     game_over := false;
     last_fall_time := ticks;
     fall_speed := FALL_SPEED |}.

Definition move_left (s : t) : result t :=
  let p := Piece.set_x (Piece.x (current_piece s) - 1) (current_piece s) in
  let* valid := Board.is_valid_position (board s) p in
  if negb valid then Ok (set_current_piece (Piece.set_x (Piece.x p + 1) p) s)
  else Ok (set_current_piece p s).

Definition move_right (s : t) : result t :=
  let p := Piece.set_x (Piece.x (current_piece s) + 1) (current_piece s) in
  let* valid := Board.is_valid_position (board s) p in
  if negb valid then Ok (set_current_piece (Piece.set_x (Piece.x p - 1) p) s)
  else Ok (set_current_piece p s).

(** [lock_piece]: [rnd] is the draw of [random.choice] made by the
    [Piece()] of the spawn (unused when the lock ends the game first). *)
Definition lock_piece (s : t) (rnd : Kind.t) : result t :=
  let* b1 := Board.lock_piece (board s) (current_piece s) in
  let '(b2, lines) := Board.clear_lines b1 in
  let s := set_board b2 s in
  let s :=
    if lines >? 0 then
      let s := set_lines_cleared (lines_cleared s + lines) s in
      set_score (score s + lines * 100 * lines) s
    else s in
  let* over := Board.is_game_over (board s) in
  if over then Ok (set_game_over true s)
  else
    let s := set_current_piece (next_piece s) s in
    let s := set_next_piece (Piece.new rnd) s in
    let* valid := Board.is_valid_position (board s) (current_piece s) in
    if negb valid then Ok (set_game_over true s) else Ok s.

(** [move_down]: the state afterwards and the returned flag. *)
Definition move_down (s : t) (rnd : Kind.t) : result (t * bool) :=
  let p := Piece.set_y (Piece.y (current_piece s) + 1) (current_piece s) in
  let* valid := Board.is_valid_position (board s) p in
  if negb valid then
    let s := set_current_piece (Piece.set_y (Piece.y p - 1) p) s in
    let* s := lock_piece s rnd in
    Ok (s, false)
  else Ok (set_current_piece p s, true).

(** [hard_drop]: [while self.move_down(): pass], with at most [calls]
    calls of [move_down]; [None] when that bound is used up before a call
    returns [False].  Only the last call locks, so one draw suffices. *)
Fixpoint hard_drop (calls : nat) (s : t) (rnd : Kind.t) : option (result t) :=
  match calls with
  | O => None
  | S calls' =>
      match move_down s rnd with
      | Raise e => Some (Raise e)
      | Ok (s', true) => hard_drop calls' s' rnd
      | Ok (s', false) => Some (Ok s')
      end
  end.

Definition kick_tests (type : Kind.t) : list (Z * Z) :=
  if Kind.eqb type Kind.I then
    [ (1, 0); (-1, 0); (2, 0); (-2, 0); (3, 0); (-3, 0);
      (0, -1); (1, -1); (-1, -1) ]
  else
    [ (1, 0); (-1, 0); (2, 0); (-2, 0);
      (0, -1); (1, -1); (-1, -1) ].

(** The [for dx, dy in kick_tests] loop of [rotate_piece]: the piece as the
    loop leaves it, and whether it left through [return]. *)
Fixpoint kick_loop (b : Board.t) (p : Piece.t) (old_x old_y : Z)
         (kicks : list (Z * Z)) : result (Piece.t * bool) :=
  match kicks with
  | [] => Ok (p, false)
  | (dx, dy) :: rest =>
      let p := Piece.set_x (old_x + dx) p in
      let p := Piece.set_y (old_y + dy) p in
      let* valid := Board.is_valid_position b p in
      if valid then Ok (p, true)
      else kick_loop b p old_x old_y rest
  end.

Definition rotate_piece (s : t) : result t :=
  let old_rotation := Piece.rotation (current_piece s) in
  let old_shape := Piece.shape (current_piece s) in
  let old_x := Piece.x (current_piece s) in
  let old_y := Piece.y (current_piece s) in
  let p := Piece.rotate (current_piece s) in
  let* valid := Board.is_valid_position (board s) p in
  if valid then Ok (set_current_piece p s)
  else
    let* (p, kicked) :=
      kick_loop (board s) p old_x old_y (kick_tests (Piece.type p)) in
    if kicked then Ok (set_current_piece p s)
    else
      let p := Piece.set_rotation old_rotation p in
      let p := Piece.set_shape old_shape p in
      let p := Piece.set_x old_x p in
      let p := Piece.set_y old_y p in
      Ok (set_current_piece p s).

(** [update]: [current_time] is the value of [pygame.time.get_ticks()]. *)
Definition update (s : t) (current_time : Z) (rnd : Kind.t) : result t :=
  if game_over s then Ok s
  else if current_time - last_fall_time s >? fall_speed s then
    let* (s, _) := move_down s rnd in
    Ok (set_last_fall_time current_time s)
  else Ok s.

Definition reset (s : t) (k1 k2 : Kind.t) (ticks : Z) : t :=
  let s := set_board (Board.reset (board s)) s in
  let s := set_current_piece (Piece.new k1) s in
  let s := set_next_piece (Piece.new k2) s in
  let s := set_score 0 s in
  let s := set_lines_cleared 0 s in
  let s := set_game_over false s in
  set_last_fall_time ticks s.

End Tetris.

(* ===================================================================== *)
(** * main: dispatch of a key press while a match is on screen            *)
(* ===================================================================== *)

Inductive Key : Type :=
| K_LEFT | K_RIGHT | K_DOWN | K_UP | K_SPACE | K_ESCAPE | K_r | K_other.

Inductive Screen : Type := STATE_MENU | STATE_PLAYING | STATE_CONTROLS.

(** The [elif state == STATE_PLAYING] branch of the [KEYDOWN] handler: the
    engine and the screen afterwards.  [calls] bounds the loop of
    [hard_drop]; [rnd], [rnd'] and [ticks] feed [random.choice] and
    [get_ticks]. *)
Definition keydown_playing (calls : nat) (rnd rnd' : Kind.t) (ticks : Z)
           (key : Key) (tetris : Tetris.t)
  : option (result (Tetris.t * Screen)) :=
  let playing (r : result Tetris.t) :=
    Some (let* s := r in Ok (s, STATE_PLAYING)) in
  if negb (Tetris.game_over tetris) then
    match key with
    | K_LEFT => playing (Tetris.move_left tetris)
    | K_RIGHT => playing (Tetris.move_right tetris)
    | K_DOWN => playing (let* (s, _) := Tetris.move_down tetris rnd in Ok s)
    | K_UP => playing (Tetris.rotate_piece tetris)
    | K_SPACE =>
        match Tetris.hard_drop calls tetris rnd with
        | Some r => playing r
        | None => None
        end
    | K_ESCAPE => Some (Ok (tetris, STATE_MENU))
    | _ => Some (Ok (tetris, STATE_PLAYING))
    end
  else
    match key with
    | K_r => Some (Ok (Tetris.reset tetris rnd rnd' ticks, STATE_PLAYING))
    | K_ESCAPE => Some (Ok (tetris, STATE_MENU))
    | _ => Some (Ok (tetris, STATE_PLAYING))
    end.

(* ===================================================================== *)
(** * main: the event loop                                                *)
(* ===================================================================== *)

(** Key codes [main] tells apart: the three menu digits, and the keys of the
    playing screen (any further key is [K_game K_other]). *)
Inductive PyKey : Type := K_1 | K_2 | K_3 | K_game (key : Key).

(** How the playing screen sees a key: digits are just other keys there. *)
Definition game_key (key : PyKey) : Key :=
  match key with
  | K_game k => k
  | _ => K_other
  end.

Inductive Event : Type := QUIT | KEYDOWN (key : PyKey) | OTHER_EVENT.

(** What ends the program abnormally: an exception of the engine, or an
    attribute read on [tetris] while it is still [None]. *)
Inductive AppExn : Type := EngineError (e : PyExn) | AttributeError.

Inductive outcome (A : Type) : Type :=
| Done (a : A)
| Crash (e : AppExn).
Arguments Done {A} a.
Arguments Crash {A} e.

(** The local variables of [main] that outlive one frame. *)
Record App : Type := mkApp {
  state : Screen;
  tetris : option Tetris.t;
  running : bool
}.

(** [state = STATE_MENU; tetris = None; running = True] *)
Definition App_start : App :=
  {| state := STATE_MENU; tetris := None; running := true |}.

(** The body of [for event in pygame.event.get()] for one event.  [rnd],
    [rnd'] and [ticks] feed [random.choice] and [get_ticks]; [calls] bounds
    the loop of [hard_drop] ([None] when it is used up). *)
Definition on_event (calls : nat) (rnd rnd' : Kind.t) (ticks : Z)
           (event : Event) (app : App) : option (outcome App) :=
  let app :=
    match event with
    | QUIT => {| state := state app; tetris := tetris app; running := false |}
    | _ => app
    end in
  match event with
  | KEYDOWN key =>
      match state app with
      | STATE_MENU =>
          match key with
          | K_1 =>
              Some (Done {| state := STATE_PLAYING;
                            tetris := Some (Tetris.new rnd rnd' ticks);
                            running := running app |})
          | K_2 =>
              Some (Done {| state := STATE_CONTROLS; tetris := tetris app;
                            running := running app |})
          | K_3 =>
              Some (Done {| state := state app; tetris := tetris app;
                            running := false |})
          | K_game _ => Some (Done app)
          end
      | STATE_CONTROLS =>
          match key with
          | K_game K_ESCAPE =>
              Some (Done {| state := STATE_MENU; tetris := tetris app;
                            running := running app |})
          | _ => Some (Done app)
          end
      | STATE_PLAYING =>
          match tetris app with
          | None => Some (Crash AttributeError)
          | Some t =>
              match keydown_playing calls rnd rnd' ticks (game_key key) t with
              | None => None
              | Some (Raise e) => Some (Crash (EngineError e))
              | Some (Ok (t', screen)) =>
                  Some (Done {| state := screen; tetris := Some t';
                                running := running app |})
              end
          end
      end
  | _ => Some (Done app)
  end.

(** After the events of a frame: [if state == STATE_PLAYING and tetris:
    tetris.update()], then the drawing code, which reads [tetris.board] and
    the other attributes when the playing screen is shown. *)
Definition on_frame (now : Z) (rnd : Kind.t) (app : App) : outcome App :=
  match state app, tetris app with
  | STATE_PLAYING, Some t =>
      match Tetris.update t now rnd with
      | Ok t' => Done {| state := state app; tetris := Some t';
                         running := running app |}
      | Raise e => Crash (EngineError e)
      end
  | STATE_PLAYING, None => Crash AttributeError
  | _, _ => Done app
  end.

(** The states [main] goes through: events and frame ends, from the start. *)
Inductive app_reachable : App → Prop :=
| app_start : app_reachable App_start
| app_event calls rnd rnd' ticks event app app' :
    app_reachable app →
    on_event calls rnd rnd' ticks event app = Some (Done app') →
    app_reachable app'
| app_frame now rnd app app' :
    app_reachable app →
    on_frame now rnd app = Done app' →
    app_reachable app'.

(* ===================================================================== *)
(** * Rendering: which rectangles are drawn where                         *)
(* ===================================================================== *)

Definition SCREEN_WIDTH : Z := 800.
Definition SCREEN_HEIGHT : Z := 700.
Definition BLOCK_SIZE : Z := 30.
Definition BOARD_X : Z := 50.
Definition BOARD_Y : Z := 30.

(** A pygame rectangle [(left, top, width, height)]. *)
Record Rect : Type := mkRect {
  rect_left : Z;
  rect_top : Z;
  rect_width : Z;
  rect_height : Z
}.

(** [draw_block(screen, x, y, color)]: the filled rectangle and the border
    rectangle handed to [pygame.draw.rect]. *)
Definition draw_block (x y : Z) : Rect * Rect :=
  let pixel_x := BOARD_X + x * BLOCK_SIZE in
  let pixel_y := BOARD_Y + y * BLOCK_SIZE in
  (mkRect (pixel_x + 1) (pixel_y + 1) (BLOCK_SIZE - 2) (BLOCK_SIZE - 2),
   mkRect pixel_x pixel_y BLOCK_SIZE BLOCK_SIZE).

(** The border of the board drawn by [draw_board]. *)
Definition board_frame : Rect :=
  mkRect BOARD_X BOARD_Y (BOARD_WIDTH * BLOCK_SIZE) (BOARD_HEIGHT * BLOCK_SIZE).

(** [draw_piece]: the [draw_block] calls, one per position with [y >= 0],
    as the cell and the type whose colour is used. *)
Definition draw_piece (piece : Piece.t) : list (Z * Z * Kind.t) :=
  flat_map (fun '(x, y) => if y >=? 0 then [(x, y, Piece.type piece)] else [])
           (Piece.get_positions piece).

(** The loops of [draw_board]: one [draw_block] call per cell that is not
    [None], with the type stored there. *)
Definition draw_row (row_idx : Z) (row : list (option Kind.t))
  : list (Z * Z * Kind.t) :=
  flat_map (fun '(col_idx, cell) =>
              match cell with
              | Some k => [(col_idx, row_idx, k)]
              | None => []
              end)
           (enumerate row).

Definition draw_board (board : Board.t) : list (Z * Z * Kind.t) :=
  flat_map (fun '(row_idx, row) => draw_row row_idx row)
           (enumerate (Board.grid board)).

(** Rectangle [r] lies inside rectangle [outer]. *)
Definition rect_inside (r outer : Rect) : Prop :=
  rect_left outer <= rect_left r ∧
  rect_left r + rect_width r <= rect_left outer + rect_width outer ∧
  rect_top outer <= rect_top r ∧
  rect_top r + rect_height r <= rect_top outer + rect_height outer.

(** Two rectangles share no pixel. *)
Definition rect_disjoint (r1 r2 : Rect) : Prop :=
  rect_left r1 + rect_width r1 <= rect_left r2 ∨
  rect_left r2 + rect_width r2 <= rect_left r1 ∨
  rect_top r1 + rect_height r1 <= rect_top r2 ∨
  rect_top r2 + rect_height r2 <= rect_top r1.

(** The window. *)
Definition window : Rect := mkRect 0 0 SCREEN_WIDTH SCREEN_HEIGHT.

(* ===================================================================== *)
(** * Vocabulary of the specification                                     *)
(* ===================================================================== *)

(** A grid of 20 rows of 10 cells each. *)
Definition grid_ok (g : Grid) : Prop :=
  length g = 20%nat ∧ Forall (fun row => length row = 10%nat) g.

(** A board state: the dimensions are the configured ones and the grid has
    that shape. *)
Definition board_ok (b : Board.t) : Prop :=
  Board.width b = BOARD_WIDTH ∧ Board.height b = BOARD_HEIGHT ∧
  grid_ok (Board.grid b).

(** The object invariant of [Piece]: the index selects a rotation state of
    the piece's type and [shape] is that state. *)
Definition piece_ok (p : Piece.t) : Prop :=
  0 <= Piece.rotation p < Z.of_nat (length (Piece.rotations p)) ∧
  Piece.shape p = nth (Z.to_nat (Piece.rotation p)) (Piece.rotations p) [].

(** The piece occupies the absolute cell (column [cx], row [cy]): some
    matrix entry [shape[r][c]] is set and the anchor maps it there. *)
Definition occupies (p : Piece.t) (cx cy : Z) : Prop :=
  ∃ (r c : nat) (row : list Z) (cell : Z),
    Piece.shape p !! r = Some row ∧ row !! c = Some cell ∧ cell ≠ 0 ∧
    cx = Piece.x p + Z.of_nat c ∧ cy = Piece.y p + Z.of_nat r.

(** The grid cell at column [cx], row [cy] (both non-negative) holds a
    type tag. *)
Definition taken (b : Board.t) (cx cy : Z) : Prop :=
  ∃ (row : list Cell) (k : Kind.t),
    Board.grid b !! Z.to_nat cy = Some row ∧ row !! Z.to_nat cx = Some (Some k).

(** What makes a cell of the piece unacceptable to [is_valid_position]. *)
Definition offending (b : Board.t) (cx cy : Z) : Prop :=
  cx < 0 ∨ cx >= 10 ∨ cy >= 20 ∨ (cy >= 0 ∧ taken b cx cy).

(** A row is complete when it contains no empty cell. *)
Definition complete (row : list Cell) : bool := forallb Board.is_not_None row.

Definition incomplete (row : list Cell) : bool := negb (complete row).

(** Number of rotation states the specification gives per type. *)
Definition rotation_count (k : Kind.t) : nat :=
  match k with
  | Kind.O => 1
  | Kind.I | Kind.S | Kind.Z => 2
  | Kind.T | Kind.J | Kind.L => 4
  end.

(** The piece moved to another anchor. *)
Definition at_anchor (cx cy : Z) (p : Piece.t) : Piece.t :=
  Piece.set_y cy (Piece.set_x cx p).

(** [move_down] called again and again until a call returns [False]:
    [drop_run rnd n s s'] when that takes [n] calls and ends in [s']. *)
Inductive drop_run (rnd : Kind.t) : nat → Tetris.t → Tetris.t → Prop :=
| drop_last s s' :
    Tetris.move_down s rnd = Ok (s', false) →
    drop_run rnd 1 s s'
| drop_more n s s1 s' :
    Tetris.move_down s rnd = Ok (s1, true) →
    drop_run rnd n s1 s' →
    drop_run rnd (S n) s s'.

(** Board states the class can produce: the constructor, then any sequence
    of [lock_piece] (of a piece in a valid position), [clear_lines] and
    [reset]. *)
Inductive board_reachable : Board.t → Prop :=
| reach_new : board_reachable Board.new
| reach_lock b piece b' :
    board_reachable b →
    Board.is_valid_position b piece = Ok true →
    Board.lock_piece b piece = Ok b' →
    board_reachable b'
| reach_clear b :
    board_reachable b →
    board_reachable (Board.clear_lines b).1
| reach_reset b :
    board_reachable b →
    board_reachable (Board.reset b).

(* ===================================================================== *)
(** * Test harness and concrete states                                    *)
(* ===================================================================== *)

(** [move_down] called [n] times in a row: the final state and the flags
    returned, first call first. *)
Fixpoint move_down_calls (n : nat) (s : Tetris.t) (rnd : Kind.t)
  : result (Tetris.t * list bool) :=
  match n with
  | O => Ok (s, [])
  | S n' =>
      let* (s1, moved) := Tetris.move_down s rnd in
      let* (s2, flags) := move_down_calls n' s1 rnd in
      Ok (s2, moved :: flags)
  end.

(** A sequence of key presses fed to the handler of the playing screen,
    every random draw being [rnd]; it stops at the first exception. *)
Fixpoint press_keys (calls : nat) (rnd : Kind.t) (keys : list Key)
         (tetris : Tetris.t) : option (result Tetris.t) :=
  match keys with
  | [] => Some (Ok tetris)
  | key :: keys' =>
      match keydown_playing calls rnd rnd 0 key tetris with
      | Some (Ok (tetris', _)) => press_keys calls rnd keys' tetris'
      | Some (Raise e) => Some (Raise e)
      | None => None
      end
  end.

(** A fresh match on an empty board. *)
Definition fresh_O : Tetris.t := Tetris.new Kind.O Kind.T 0.

(** An I piece lying flat two rows above an empty board. *)
Definition high_I : Tetris.t :=
  Tetris.set_current_piece (Piece.set_y (-2) (Piece.new Kind.I))
                           (Tetris.new Kind.I Kind.T 0).

(** Rows 9 to 19 are filled except for column 3; an upright I piece stands
    in that well, rows 10 to 13. *)
Definition well_row : list (option Kind.t) :=
  <[3%nat := None]> (replicate 10 (Some Kind.J)).

Definition well_board : Board.t :=
  Board.set_grid (replicate 9 (Board.empty_row 10) ++ replicate 11 well_row)
                 Board.new.

Definition I_in_well : Tetris.t :=
  Tetris.set_board well_board
    (Tetris.set_current_piece
       (Piece.set_y 10 (Piece.rotate (Piece.new Kind.I)))
       (Tetris.new Kind.I Kind.T 0)).

(** Five I pieces, each turned upright and dropped in column 3. *)
Definition five_I_keys : list Key :=
  [K_UP; K_SPACE; K_UP; K_SPACE; K_UP; K_SPACE; K_UP; K_SPACE; K_UP; K_SPACE].

Definition bottom_O_row : list (option Kind.t) :=
  [None; None; None; Some Kind.O; Some Kind.O; None; None; None; None; None].

(** The two bottom rows are filled except for columns 3 and 4; an O piece
    rests in the gap. *)
Definition gap_row : list (option Kind.t) :=
  <[4%nat := None]> (<[3%nat := None]> (replicate 10 (Some Kind.L))).

Definition gap_board : Board.t :=
  Board.set_grid (replicate 18 (Board.empty_row 10) ++ [gap_row; gap_row])
                 Board.new.

Definition O_over_gap : Tetris.t :=
  Tetris.set_board gap_board
    (Tetris.set_current_piece (Piece.set_y 18 (Piece.new Kind.O))
                              (Tetris.new Kind.O Kind.T 0)).

(** The same board once the O piece is locked: two complete rows. *)
Definition filled_board : Board.t :=
  Board.set_grid
    (replicate 18 (Board.empty_row 10)
     ++ replicate 2 (<[4%nat := Some Kind.O]>
                       (<[3%nat := Some Kind.O]> gap_row)))
    Board.new.

(** An upright I piece in the rightmost column of an empty board. *)
Definition I_at_right_wall : Tetris.t :=
  Tetris.set_current_piece
    (Piece.set_x 9 (Piece.rotate (Piece.new Kind.I)))
    (Tetris.new Kind.I Kind.T 0).

(** The state a match is in after a sequence of key presses, every piece
    drawn being an I piece; keys from the first that does not return on are
    left out. *)
Definition after_keys (keys : list Key) (t : Tetris.t) : Tetris.t :=
  match press_keys 21 Kind.I keys t with
  | Some (Ok t') => t'
  | _ => t
  end.

(** The keys that bring a fresh piece to anchor column [col] and drop it:
    as it spawns, or turned upright first. *)
Definition flat_at (col : Z) : list Key :=
  (if col <? 3 then replicate (Z.to_nat (3 - col)) K_LEFT
   else replicate (Z.to_nat (col - 3)) K_RIGHT) ++ [K_SPACE].

Definition upright_in (col : Z) : list Key := K_UP :: flat_at col.



(** A match in which two rotations have lifted the I piece: columns 0 and 7
    are filled up to row 4, two flat pieces lie in row 3 and two in row 2;
    the next piece is lifted at the left wall, laid flat, moved to column 4,
    lifted again there and laid flat two rows above the board. *)
Definition twice_lifted_I_keys : list Key :=
  concat (replicate 4 (upright_in 0)) ++ concat (replicate 4 (upright_in 7))
  ++ flat_at 0 ++ flat_at 4 ++ flat_at 1 ++ flat_at 5
  ++ [K_LEFT; K_LEFT; K_LEFT; K_UP; K_UP; K_RIGHT; K_RIGHT; K_RIGHT; K_RIGHT;
      K_UP; K_UP].

Definition twice_lifted_I : Tetris.t :=
  after_keys twice_lifted_I_keys (Tetris.new Kind.I Kind.I 0).

(** A match one key press before its first cleared line: two flat pieces
    and an upright one fill the bottom row up to column 8, and an upright
    piece hangs over column 9. *)
Definition before_line_keys : list Key :=
  flat_at 0 ++ flat_at 4 ++ upright_in 8
  ++ [K_UP; K_RIGHT; K_RIGHT; K_RIGHT; K_RIGHT; K_RIGHT; K_RIGHT].

Definition before_line : Tetris.t :=
  after_keys before_line_keys (Tetris.new Kind.I Kind.I 0).

(** The same match once that piece is dropped. *)
Definition after_line : Tetris.t := after_keys [K_SPACE] before_line.

(** A board of width 0 with one row, which has no cell. *)
Definition no_columns : Board.t :=
  {| Board.width := 0; Board.height := 1; Board.grid := [[]] |}.

(** The first row of a rotation state has an entry set. *)
Definition first_row_set (sh : list (list Z)) : bool :=
  match sh with
  | row :: _ => existsb truthy row
  | [] => false
  end.


(* ===================================================================== *)
(** * Vocabulary of the further properties                               *)
(* ===================================================================== *)

(** A cell moved by [(dx, dy)]. *)
Definition shift (dx dy : Z) (c : Z * Z) : Z * Z := (c.1 + dx, c.2 + dy).

(** The content of the grid at column [cx], row [cy] (both non-negative):
    [None] outside the grid, [Some None] for an empty cell. *)
Definition cell_at (g : Grid) (cx cy : Z) : option (option Kind.t) :=
  match g !! Z.to_nat cy with
  | Some row => row !! Z.to_nat cx
  | None => None
  end.

(** The column a subscript of a 10-cell row lands in: negative subscripts
    count from the right end. *)
Definition wrap_column (cx : Z) : Z := if cx <? 0 then cx + 10 else cx.

(** Number of cells of the grid that hold a type tag. *)
Definition occupied_cells (g : Grid) : nat :=
  length (List.filter Board.is_not_None (concat g)).

(** The cell is at or below the top row ([y >= 0] in [Board.lock_piece]). *)
Definition on_board (c : Z * Z) : bool := 0 <=? c.2.

(** The engine invariant: a well-shaped board, two well-formed pieces, and
    while the match is on, an active piece in a valid position. *)
Definition tetris_ok (s : Tetris.t) : Prop :=
  board_ok (Tetris.board s) ∧
  piece_ok (Tetris.current_piece s) ∧
  piece_ok (Tetris.next_piece s) ∧
  (Tetris.game_over s = false →
   Board.is_valid_position (Tetris.board s) (Tetris.current_piece s) = Ok true).

(** Engine states a match can go through under [main]: it starts with
    [Tetris()], and then every key press on the playing screen and every
    frame's [update] that return normally lead to another such state. *)
Inductive played : Tetris.t → Prop :=
| played_new k1 k2 ticks :
    played (Tetris.new k1 k2 ticks)
| played_key calls rnd rnd' ticks key t t' screen :
    played t →
    keydown_playing calls rnd rnd' ticks key t = Some (Ok (t', screen)) →
    played t'
| played_update now rnd t t' :
    played t →
    Tetris.update t now rnd = Ok t' →
    played t'.

(** No row of the grid is complete. *)
Definition rows_incomplete (b : Board.t) : Prop :=
  Forall (fun row => incomplete row = true) (Board.grid b).

(** The counters of [s'] are those of [s] after [n] more cleared lines,
    [n] between 0 and 4. *)
Definition scored (s s' : Tetris.t) : Prop :=
  ∃ n, 0 <= n <= 4 ∧
       Tetris.lines_cleared s' = Tetris.lines_cleared s + n ∧
       Tetris.score s' = Tetris.score s + 100 * n * n.

(** Every cell of the piece lies in a column of the board. *)
Definition columns_fit (p : Piece.t) : bool :=
  forallb (fun c : Z * Z => (0 <=? c.1) && (c.1 <=? 9)) (Piece.get_positions p).

(** The sideways offsets among the kicks of a type, the rotation in place
    included. *)
Definition sideways (type : Kind.t) : list Z :=
  0 :: map fst (List.filter (fun d : Z * Z => d.2 =? 0) (Tetris.kick_tests type)).

(** Whenever the piece of type [k] in rotation state [r] fits the columns
    at anchor column [x], its next rotation state fits them at one of the
    sideways offsets. *)
Definition sideways_fit (k : Kind.t) (r x : Z) : bool :=
  let p := {| Piece.type := k; Piece.rotation := r;
              Piece.shape := nth (Z.to_nat r) (PIECES k) [];
              Piece.x := x; Piece.y := 0 |} in
  implb (columns_fit p)
        (existsb (fun dx => columns_fit (at_anchor (x + dx) 0 (Piece.rotate p)))
                 (sideways k)).


(** Column [cx] holds a block in one of the rows 0 to [r]. *)
Definition blocked (b : Board.t) (cx r : Z) : Prop :=
  ∃ cy, 0 <= cy <= r ∧ taken b cx cy.

(** What a rotation that lifted a flat I piece from anchor row [y0] to row
    [y0 - 1] tells about the board: with [x] the anchor column before the
    rotation, every column of the board within three of [x] is blocked at or
    above row [y0 + 3] (the upright piece fitted in none of them), and a
    column [cx] next to [x] is free down to row [y0 + 2] (the upright piece
    fits there one row up). *)
Definition kicked_up_from (b : Board.t) (y0 : Z) : Prop :=
  ∃ x cx, 0 <= x <= 6 ∧ x - 1 <= cx <= x + 1 ∧ 0 <= cx <= 9 ∧
          (∀ c, x - 3 <= c <= x + 3 → 0 <= c <= 9 → blocked b c (y0 + 3)) ∧
          ¬ blocked b cx (y0 + 2).

(** How a piece gets above the board in a match: the preview piece sits at
    the spawn row; while the match is on, the top row is empty, a piece
    other than I is not above row -2, and an I piece above row 0 (above row
    -1) was lifted there by a rotation at row 0 (at row -1). *)
Definition lifted_ok (s : Tetris.t) : Prop :=
  let p := Tetris.current_piece s in
  Piece.y (Tetris.next_piece s) = 0 ∧
  (Tetris.game_over s = false →
   Board.is_game_over (Tetris.board s) = Ok false ∧
   (Piece.type p ≠ Kind.I → -2 <= Piece.y p) ∧
   (Piece.type p = Kind.I → Piece.y p <= -1 → kicked_up_from (Tetris.board s) 0) ∧
   (Piece.type p = Kind.I → Piece.y p <= -2 →
    kicked_up_from (Tetris.board s) (-1))).

(** An O piece hanging one column off the left edge of the board. *)
Definition O_off_left_edge : Piece.t := Piece.set_x (-1) (Piece.new Kind.O).

(** [main] right after key 1 was pressed in the menu. *)
Definition App_playing : App :=
  {| state := STATE_PLAYING;
     tetris := Some (Tetris.new Kind.S Kind.Z 0);
     running := true |}.

(* ===================================================================== *)
(** * Properties                                                           *)
(* ===================================================================== *)

Section Subscripts.
Context {A : Type}.
Implicit Types (l : list A) (i : Z) (v : A).

Lemma py_index_nonneg l i :
  0 <= i < Z.of_nat (length l) → py_index l i = Ok (Z.to_nat i).
Proof.
  intros Hi. unfold py_index.
  destruct (Z.leb_spec 0 i); [|lia].
  destruct (Z.ltb_spec i (Z.of_nat (length l))); [|lia].
  reflexivity.
Qed.

Lemma py_index_nonneg_inv l i k :
  0 <= i → py_index l i = Ok k → k = Z.to_nat i ∧ i < Z.of_nat (length l).
Proof.
  intros Hi. unfold py_index.
  destruct (Z.leb_spec 0 i); [|lia].
  destruct (Z.ltb_spec i (Z.of_nat (length l))); simpl.
  - intros [= <-]. split; [reflexivity | assumption].
  - destruct (Z.ltb_spec i 0); [lia|].
    rewrite andb_false_r. discriminate.
Qed.

Lemma py_index_lt l i k : py_index l i = Ok k → (k < length l)%nat.
Proof.
  unfold py_index.
  destruct (Z.leb_spec 0 i); destruct (Z.ltb_spec i (Z.of_nat (length l)));
    simpl; try (intros [= <-]; lia).
  - destruct (Z.ltb_spec i 0); [lia|]. rewrite andb_false_r. discriminate.
  - destruct (Z.leb_spec (- Z.of_nat (length l)) i);
      destruct (Z.ltb_spec i 0); simpl; try discriminate.
    intros [= <-]. lia.
  - destruct (Z.leb_spec (- Z.of_nat (length l)) i);
      destruct (Z.ltb_spec i 0); simpl; try discriminate.
    intros [= <-]. lia.
Qed.

Lemma getitem_nonneg l i :
  0 <= i < Z.of_nat (length l) →
  ∃ v, l !! Z.to_nat i = Some v ∧ getitem l i = Ok v.
Proof.
  intros Hi. unfold getitem. rewrite py_index_nonneg by assumption. simpl.
  destruct (lookup_lt_is_Some_2 l (Z.to_nat i)) as [v Hv]; [lia|].
  exists v. rewrite Hv. split; reflexivity.
Qed.

Lemma getitem_nonneg_inv l i v :
  0 <= i → getitem l i = Ok v →
  l !! Z.to_nat i = Some v ∧ i < Z.of_nat (length l).
Proof.
  intros Hi. unfold getitem.
  destruct (py_index l i) as [k|e] eqn:Hk; simpl; [|discriminate].
  apply py_index_nonneg_inv in Hk as [-> Hlt]; [|assumption].
  destruct (l !! Z.to_nat i); [|discriminate].
  intros [= ->]. split; [reflexivity | assumption].
Qed.

Lemma getitem_is_Ok l i v : getitem l i = Ok v → ∃ k, py_index l i = Ok k ∧ l !! k = Some v.
Proof.
  unfold getitem. destruct (py_index l i) as [k|e]; simpl; [|discriminate].
  destruct (l !! k) eqn:Hl; [|discriminate]. intros [= ->]. eauto.
Qed.

Lemma setitem_nonneg l i v :
  0 <= i < Z.of_nat (length l) → setitem l i v = Ok (<[Z.to_nat i := v]> l).
Proof.
  intros Hi. unfold setitem. rewrite py_index_nonneg by assumption.
  reflexivity.
Qed.

Lemma setitem_is_Ok l i v l' :
  setitem l i v = Ok l' → ∃ k, py_index l i = Ok k ∧ l' = <[k := v]> l.
Proof.
  unfold setitem. destruct (py_index l i) as [k|e]; simpl; [|discriminate].
  intros [= <-]. eauto.
Qed.

Lemma setitem_length l i v l' : setitem l i v = Ok l' → length l' = length l.
Proof.
  intros (k & _ & ->)%setitem_is_Ok. apply length_insert.
Qed.

Lemma elem_of_enumerate_from (s : Z) l i (a : A) :
  (i, a) ∈ enumerate_from s l ↔ ∃ n : nat, l !! n = Some a ∧ i = s + Z.of_nat n.
Proof.
  revert s. induction l as [|b l IH]; intros s; simpl.
  - split; [intros H; inversion H | intros (n & Hn & _); destruct n; discriminate].
  - rewrite elem_of_cons, IH. split.
    + intros [[= -> ->] | (n & Hn & ->)].
      * exists 0%nat. split; [reflexivity | lia].
      * exists (S n). split; [assumption | lia].
    + intros ([|n] & Hn & ->); simpl in Hn.
      * left. injection Hn as ->. f_equal. lia.
      * right. exists n. split; [assumption | lia].
Qed.

Lemma elem_of_enumerate l i (a : A) :
  (i, a) ∈ enumerate l ↔ ∃ n : nat, l !! n = Some a ∧ i = Z.of_nat n.
Proof. unfold enumerate. rewrite elem_of_enumerate_from. reflexivity. Qed.

End Subscripts.

Lemma truthy_true z : truthy z = true ↔ z ≠ 0.
Proof. unfold truthy. destruct (Z.eqb_spec z 0); simpl; split; intros; congruence. Qed.

Lemma elem_of_flat_map {A B} (f : A → list B) (l : list A) (b : B) :
  b ∈ flat_map f l ↔ ∃ a, a ∈ l ∧ b ∈ f a.
Proof.
  setoid_rewrite list_elem_of_In. apply in_flat_map.
Qed.

Lemma elem_of_row_positions p row_idx row cx cy :
  (cx, cy) ∈ Piece.row_positions p row_idx row ↔
  ∃ (c : nat) (cell : Z), row !! c = Some cell ∧ cell ≠ 0 ∧
    cx = Piece.x p + Z.of_nat c ∧ cy = Piece.y p + row_idx.
Proof.
  unfold Piece.row_positions. rewrite elem_of_flat_map. split.
  - intros ([col_idx cell] & Hin & Hpos).
    apply elem_of_enumerate in Hin as (c & Hc & ->).
    destruct (truthy cell) eqn:Ht; [|inversion Hpos].
    apply list_elem_of_singleton in Hpos. injection Hpos as -> ->.
    exists c, cell. rewrite <- truthy_true.
    repeat split; assumption || reflexivity.
  - intros (c & cell & Hc & Hnz & -> & ->).
    exists (Z.of_nat c, cell). split.
    + apply elem_of_enumerate. eauto.
    + apply truthy_true in Hnz. rewrite Hnz. apply list_elem_of_singleton. reflexivity.
Qed.

Lemma elem_of_get_positions p cx cy :
  (cx, cy) ∈ Piece.get_positions p ↔ occupies p cx cy.
Proof.
  unfold Piece.get_positions, occupies. rewrite elem_of_flat_map. split.
  - intros ([row_idx row] & Hin & Hpos).
    apply elem_of_enumerate in Hin as (r & Hr & ->).
    apply elem_of_row_positions in Hpos as (c & cell & Hc & Hnz & -> & ->).
    exists r, c, row, cell. repeat split; assumption || reflexivity.
  - intros (r & c & row & cell & Hr & Hc & Hnz & -> & ->).
    exists (Z.of_nat r, row). split.
    + apply elem_of_enumerate. eauto.
    + apply elem_of_row_positions. exists c, cell.
      repeat split; assumption || reflexivity.
Qed.

Lemma grid_ok_row g i row :
  grid_ok g → g !! i = Some row → length row = 10%nat.
Proof.
  intros [_ Hrows] Hi. rewrite Forall_lookup in Hrows. exact (Hrows i row Hi).
Qed.

Lemma valid_positions_spec b ps :
  board_ok b →
  ∃ v, Board.valid_positions b ps = Ok v ∧
       (v = false ↔ Exists (fun c => offending b c.1 c.2) ps).
Proof.
  intros (Hw & Hh & Hg). induction ps as [|[cx cy] ps IH]; simpl.
  - exists true. split; [reflexivity|]. split; [discriminate|].
    intros H. inversion H.
  - rewrite Hw, Hh. unfold BOARD_WIDTH, BOARD_HEIGHT.
    destruct (Z.ltb_spec cx 0) as [Hx0|Hx0]; simpl.
    { exists false. split; [reflexivity|]. split; [|reflexivity].
      intros _. left. left. simpl. lia. }
    destruct (Z.geb_spec cx 10) as [Hx1|Hx1].
    { exists false. split; [reflexivity|]. split; [|reflexivity].
      intros _. left. right. left. simpl. lia. }
    destruct (Z.geb_spec cy 20) as [Hy1|Hy1].
    { exists false. split; [reflexivity|]. split; [|reflexivity].
      intros _. left. right. right. left. simpl. lia. }
    destruct IH as (v & Hv & Hiff).
    destruct (Z.geb_spec cy 0) as [Hy0|Hy0].
    + destruct (getitem_nonneg (Board.grid b) cy) as (row & Hrow & ->).
      { destruct Hg as [-> _]. lia. }
      simpl.
      destruct (getitem_nonneg row cx) as (cell & Hcell & ->).
      { rewrite (grid_ok_row _ _ _ Hg Hrow). lia. }
      simpl. destruct cell as [k|]; simpl.
      * exists false. split; [reflexivity|]. split; [|reflexivity].
        intros _. left. right. right. right. split; [simpl; lia|].
        exists row, k. split; assumption.
      * exists v. split; [exact Hv|]. rewrite Hiff, Exists_cons. simpl.
        split; [auto|]. intros [Hoff|?]; [|assumption]. exfalso.
        destruct Hoff as [?|[?|[?|[_ (row' & k & Hr' & Hc')]]]]; try lia.
        simpl in Hr', Hc'. congruence.
    + exists v. split; [exact Hv|]. rewrite Hiff, Exists_cons. simpl.
      split; [auto|]. intros [Hoff|?]; [|assumption]. exfalso.
      destruct Hoff as [?|[?|[?|[? _]]]]; lia.
Qed.

Lemma valid_positions_above b g ps :
  Forall (fun c : Z * Z => c.2 < 0) ps →
  Board.valid_positions (Board.set_grid g b) ps = Board.valid_positions b ps.
Proof.
  induction 1 as [|[cx cy] ps Hc _ IH]; simpl; [reflexivity|].
  simpl in Hc.
  destruct ((cx <? 0) || (cx >=? Board.width b)); [reflexivity|].
  destruct (cy >=? Board.height b); [reflexivity|].
  destruct (Z.geb_spec cy 0); [lia|]. exact IH.
Qed.

Lemma is_valid_position_cases b p :
  board_ok b →
  ∃ v, Board.is_valid_position b p = Ok v ∧
       (v = false ↔ ∃ cx cy, occupies p cx cy ∧ offending b cx cy).
Proof.
  intros Hb. unfold Board.is_valid_position.
  destruct (valid_positions_spec b (Piece.get_positions p) Hb) as (v & Hv & Hiff).
  exists v. split; [exact Hv|]. rewrite Hiff, Exists_exists. split.
  - intros ([cx cy] & Hin & Hoff). exists cx, cy.
    split; [apply elem_of_get_positions; exact Hin | exact Hoff].
  - intros (cx & cy & Hocc & Hoff). exists (cx, cy).
    split; [apply elem_of_get_positions; exact Hocc | exact Hoff].
Qed.

(** C1.  On a 20x10 board [is_valid_position] always returns, and it returns
    [False] exactly when some occupied cell of the piece has column < 0,
    column >= 10, row >= 20, or row >= 0 with the grid cell there taken.
    Cells with row < 0 are never looked up: for a piece wholly above the
    board the answer does not depend on the grid at all. *)
Theorem is_valid_position_spec (b : Board.t) (p : Piece.t) :
  board_ok b →
  (∃ v, Board.is_valid_position b p = Ok v) ∧
  (Board.is_valid_position b p = Ok false ↔
     ∃ cx cy, occupies p cx cy ∧ offending b cx cy) ∧
  (∀ g, (∀ cx cy, occupies p cx cy → cy < 0) →
        Board.is_valid_position (Board.set_grid g b) p =
        Board.is_valid_position b p).
Proof.
  intros Hb. unfold Board.is_valid_position.
  destruct (valid_positions_spec b (Piece.get_positions p) Hb) as (v & Hv & Hiff).
  split; [eauto|]. split.
  - rewrite Hv. split.
    + intros [= ->]. destruct Hiff as [Hex _].
      apply Exists_exists in Hex as ([cx cy] & Hin & Hoff); [|reflexivity].
      exists cx, cy. split; [apply elem_of_get_positions; exact Hin | exact Hoff].
    + intros (cx & cy & Hocc & Hoff). f_equal. apply Hiff.
      apply Exists_exists. exists (cx, cy).
      split; [apply elem_of_get_positions; exact Hocc | exact Hoff].
  - intros g Habove. apply valid_positions_above.
    apply Forall_forall. intros [cx cy] Hin. simpl.
    apply (Habove cx cy), elem_of_get_positions, Hin.
Qed.

Lemma bind_Ok {A B} (m : result A) (k : A → result B) (v : B) :
  bind m k = Ok v → ∃ a, m = Ok a ∧ k a = Ok v.
Proof. destruct m as [a|e]; simpl; [eauto | discriminate]. Qed.

(** ** Board.lock_piece *)

Lemma lock_positions_grid_ok ps : ∀ g k g',
  grid_ok g → Board.lock_positions g k ps = Ok g' → grid_ok g'.
Proof.
  induction ps as [|[cx cy] ps IH]; intros g k g' Hg; simpl.
  - intros [= <-]. exact Hg.
  - destruct (cy >=? 0); [|apply IH; exact Hg].
    intros (row & Hrow & H)%bind_Ok.
    apply bind_Ok in H as (row' & Hrow' & H).
    apply bind_Ok in H as (g1 & Hg1 & H).
    apply (IH g1 k g'); [|exact H].
    apply getitem_is_Ok in Hrow as (i & _ & Hi).
    apply setitem_length in Hrow'.
    apply setitem_is_Ok in Hg1 as (j & _ & ->).
    destruct Hg as [Hlen Hrows]. split.
    + rewrite length_insert. exact Hlen.
    + apply Forall_insert; [exact Hrows|].
      rewrite Hrow'. rewrite Forall_lookup in Hrows. exact (Hrows i row Hi).
Qed.

Lemma lock_positions_total ps : ∀ g k,
  grid_ok g →
  Forall (fun c : Z * Z => c.2 >= 0 → 0 <= c.1 < 10 ∧ c.2 < 20) ps →
  ∃ g', Board.lock_positions g k ps = Ok g'.
Proof.
  induction ps as [|[cx cy] ps IH]; intros g k Hg Hps; simpl.
  - eauto.
  - apply Forall_cons in Hps as [Hc Hps]. simpl in Hc.
    destruct (Z.geb_spec cy 0) as [Hy|Hy]; [|apply IH; assumption].
    destruct Hc as [Hx Hy']; [lia|].
    destruct (getitem_nonneg g cy) as (row & Hrow & Hget).
    { destruct Hg as [-> _]. lia. }
    assert (Hset : setitem row cx (Some k) = Ok (<[Z.to_nat cx := Some k]> row)).
    { apply setitem_nonneg. rewrite (grid_ok_row _ _ _ Hg Hrow). lia. }
    assert (Hset' : setitem g cy (<[Z.to_nat cx := Some k]> row)
                    = Ok (<[Z.to_nat cy := <[Z.to_nat cx := Some k]> row]> g)).
    { apply setitem_nonneg. destruct Hg as [-> _]. lia. }
    rewrite Hget. simpl. rewrite Hset. simpl. rewrite Hset'. simpl.
    apply IH; [|exact Hps].
    apply (lock_positions_grid_ok [(cx, cy)] g k); [exact Hg|].
    simpl. destruct (Z.geb_spec cy 0); [|lia].
    rewrite Hget. simpl. rewrite Hset. simpl. rewrite Hset'. reflexivity.
Qed.

Lemma valid_positions_in_range b ps :
  board_ok b → Board.valid_positions b ps = Ok true →
  Forall (fun c : Z * Z => ¬ offending b c.1 c.2) ps.
Proof.
  intros Hb Hv.
  destruct (valid_positions_spec b ps Hb) as (v & Hv' & Hiff).
  rewrite Hv in Hv'. injection Hv' as <-.
  apply Forall_forall. intros c Hin Hoff.
  assert (true = false); [|discriminate].
  apply Hiff, Exists_exists. eauto.
Qed.

Lemma lock_piece_total b p :
  board_ok b → Board.is_valid_position b p = Ok true →
  ∃ b', Board.lock_piece b p = Ok b'.
Proof.
  intros Hb Hv. unfold Board.lock_piece.
  destruct (lock_positions_total (Piece.get_positions p) (Board.grid b)
              (Piece.type p)) as (g' & ->).
  - apply Hb.
  - eapply Forall_impl; [apply (valid_positions_in_range b _ Hb Hv)|].
    intros [cx cy] Hn _. simpl in *. unfold offending in Hn. lia.
  - simpl. eauto.
Qed.

Lemma lock_piece_board_ok b p b' :
  board_ok b → Board.lock_piece b p = Ok b' → board_ok b'.
Proof.
  intros (Hw & Hh & Hg). unfold Board.lock_piece.
  intros (g & Hlock & [= <-])%bind_Ok.
  repeat split; try assumption; simpl;
    apply (lock_positions_grid_ok _ _ _ _ Hg Hlock).
Qed.

(** ** Board.clear_lines *)

Lemma None_in_incomplete row : Board.None_in row = incomplete row.
Proof.
  unfold Board.None_in, incomplete, complete.
  induction row as [|c row IH]; simpl; [reflexivity|].
  rewrite IH. destruct (Board.is_not_None c); reflexivity.
Qed.

Lemma clear_rows_spec rows : ∀ new_grid n,
  Board.clear_rows rows new_grid n =
  (new_grid ++ List.filter incomplete rows,
   n + Z.of_nat (length (List.filter complete rows))).
Proof.
  induction rows as [|row rows IH]; intros new_grid n;
    cbn [Board.clear_rows List.filter].
  - rewrite app_nil_r, Z.add_0_r. reflexivity.
  - rewrite None_in_incomplete. unfold incomplete at 1 2.
    destruct (complete row); cbn [negb]; rewrite IH.
    + cbn [length]. rewrite Nat2Z.inj_succ. f_equal. lia.
    + rewrite <- app_assoc. reflexivity.
Qed.

Lemma insert_empty_rows_spec n : ∀ w g,
  Board.insert_empty_rows n w g = replicate n (Board.empty_row w) ++ g.
Proof.
  induction n as [|n IH]; intros w g; simpl; [reflexivity|].
  rewrite IH. change (Board.empty_row w :: g) with ([Board.empty_row w] ++ g).
  rewrite app_assoc, <- replicate_cons_app. reflexivity.
Qed.

Lemma filter_complete_incomplete (rows : list (list (option Kind.t))) :
  (length (List.filter complete rows) + length (List.filter incomplete rows)
   = length rows)%nat.
Proof.
  induction rows as [|row rows IH]; simpl; [reflexivity|].
  unfold incomplete at 1. destruct (complete row); simpl; lia.
Qed.

Lemma clear_lines_eq b :
  Board.clear_lines b =
  (Board.set_grid
     (replicate (length (List.filter complete (Board.grid b)))
                (Board.empty_row (Board.width b))
      ++ List.filter incomplete (Board.grid b)) b,
   Z.of_nat (length (List.filter complete (Board.grid b)))).
Proof.
  unfold Board.clear_lines. rewrite clear_rows_spec. simpl.
  rewrite Z.add_0_l, Nat2Z.id, insert_empty_rows_spec. reflexivity.
Qed.

Lemma clear_lines_board_ok b : board_ok b → board_ok (Board.clear_lines b).1.
Proof.
  intros (Hw & Hh & Hlen & Hrows). rewrite clear_lines_eq. simpl.
  repeat split; try assumption; simpl.
  - rewrite length_app, length_replicate, filter_complete_incomplete. exact Hlen.
  - apply Forall_app. split.
    + apply Forall_replicate. unfold Board.empty_row.
      rewrite length_replicate, Hw. reflexivity.
    + apply Forall_forall. intros row Hin. rewrite Forall_forall in Hrows.
      apply Hrows. apply list_elem_of_In in Hin. apply list_elem_of_In.
      apply filter_In in Hin. tauto.
Qed.

Lemma new_board_ok : board_ok Board.new.
Proof.
  repeat split. apply Forall_replicate. reflexivity.
Qed.

Lemma reset_board_ok b : board_ok b → board_ok (Board.reset b).
Proof.
  intros (Hw & Hh & _). unfold Board.reset. repeat split; try assumption; simpl.
  - unfold Board.empty_grid. rewrite length_replicate, Hh. reflexivity.
  - apply Forall_replicate. unfold Board.empty_row.
    rewrite length_replicate, Hw. reflexivity.
Qed.

(** C2.  On a board of 20 rows of which [k] are complete, [clear_lines]
    keeps the [20 - k] incomplete rows in their order, puts [k] empty rows
    of width 10 on top, so the height is 20 again, and returns [k]. *)
Theorem clear_lines_spec (b : Board.t) (k : nat) :
  Board.width b = 10 →
  length (Board.grid b) = 20%nat →
  length (List.filter complete (Board.grid b)) = k →
  let b' := (Board.clear_lines b).1 in
  (k <= 20)%nat ∧
  length (List.filter incomplete (Board.grid b)) = (20 - k)%nat ∧
  Forall (fun row => complete row = false)
         (List.filter incomplete (Board.grid b)) ∧
  Board.grid b' =
    replicate k (replicate 10 None) ++ List.filter incomplete (Board.grid b) ∧
  length (Board.grid b') = 20%nat ∧
  (Board.clear_lines b).2 = Z.of_nat k.
Proof.
  intros Hw Hlen Hk. rewrite clear_lines_eq. simpl.
  pose proof (filter_complete_incomplete (Board.grid b)) as Hsum.
  rewrite Hk, Hw. repeat split.
  - lia.
  - lia.
  - apply Forall_forall. intros row Hin.
    apply list_elem_of_In, filter_In in Hin as [_ Hin].
    unfold incomplete in Hin. destruct (complete row); [discriminate | reflexivity].
  - rewrite length_app, length_replicate. lia.
Qed.

(** C10.  Every board state the class can produce is a grid of 20 rows of 10
    cells (each [None] or one of the seven type tags), and from there
    [lock_piece] of a validly placed piece returns normally and keeps that
    shape, as do [clear_lines] and [reset]. *)
Theorem board_shape_invariant (b : Board.t) :
  board_reachable b →
  board_ok b ∧
  (∀ piece, Board.is_valid_position b piece = Ok true →
            ∃ b', Board.lock_piece b piece = Ok b' ∧ board_ok b') ∧
  board_ok (Board.clear_lines b).1 ∧
  board_ok (Board.reset b).
Proof.
  intros Hr.
  assert (Hb : board_ok b).
  { induction Hr as [|b p b' _ IH _ Hlock|b _ IH|b _ IH].
    - exact new_board_ok.
    - exact (lock_piece_board_ok b p b' IH Hlock).
    - exact (clear_lines_board_ok b IH).
    - exact (reset_board_ok b IH). }
  split; [exact Hb|]. split; [|split].
  - intros p Hv. destruct (lock_piece_total b p Hb Hv) as (b' & Hlock).
    exists b'. split; [exact Hlock|]. exact (lock_piece_board_ok b p b' Hb Hlock).
  - exact (clear_lines_board_ok b Hb).
  - exact (reset_board_ok b Hb).
Qed.

Lemma is_valid_position_total b p :
  board_ok b → ∃ v, Board.is_valid_position b p = Ok v.
Proof.
  intros Hb. destruct (is_valid_position_cases b p Hb) as (v & Hv & _). eauto.
Qed.

Lemma is_game_over_total b : board_ok b → ∃ v, Board.is_game_over b = Ok v.
Proof.
  intros (_ & _ & Hlen & _). unfold Board.is_game_over.
  destruct (getitem_nonneg (Board.grid b) 0) as (row & _ & ->); [lia|].
  simpl. eauto.
Qed.

(** The score and line counter that [Tetris.lock_piece] leaves for [n]
    cleared lines. *)
Lemma clear_lines_count_nonneg b : 0 <= (Board.clear_lines b).2.
Proof. rewrite clear_lines_eq. simpl. lia. Qed.

(** [Tetris.lock_piece], once the board-level lock has succeeded. *)
Lemma lock_piece_outcome s rnd b1 :
  Board.lock_piece (Tetris.board s) (Tetris.current_piece s) = Ok b1 →
  board_ok b1 →
  let b2 := (Board.clear_lines b1).1 in
  let n := (Board.clear_lines b1).2 in
  ∃ over s',
    Board.is_game_over b2 = Ok over ∧
    Tetris.lock_piece s rnd = Ok s' ∧
    Tetris.board s' = b2 ∧
    Tetris.score s' = (if n >? 0 then Tetris.score s + n * 100 * n
                       else Tetris.score s) ∧
    Tetris.lines_cleared s' = (if n >? 0 then Tetris.lines_cleared s + n
                               else Tetris.lines_cleared s) ∧
    (over = true →
       Tetris.current_piece s' = Tetris.current_piece s ∧
       Tetris.next_piece s' = Tetris.next_piece s ∧
       Tetris.game_over s' = true) ∧
    (over = false →
       Tetris.current_piece s' = Tetris.next_piece s ∧
       Tetris.next_piece s' = Piece.new rnd ∧
       ∃ valid, Board.is_valid_position b2 (Tetris.next_piece s) = Ok valid ∧
                Tetris.game_over s' = if valid then Tetris.game_over s else true).
Proof.
  intros Hlock Hb1 b2 n.
  pose proof (clear_lines_board_ok b1 Hb1) as Hb2. fold b2 in Hb2.
  destruct (is_game_over_total b2 Hb2) as (over & Hover).
  destruct (is_valid_position_total b2 (Tetris.next_piece s) Hb2) as (valid & Hvalid).
  exists over. unfold Tetris.lock_piece. rewrite Hlock. simpl.
  destruct (Board.clear_lines b1) as [b2' n'] eqn:Hclear.
  subst b2 n. simpl in *.
  destruct (n' >? 0); simpl; rewrite Hover; simpl;
    (destruct over; simpl;
     [| rewrite Hvalid; simpl; destruct valid; simpl]);
    eexists; (split; [reflexivity|]); simpl;
    repeat match goal with
           | |- _ ∧ _ => split
           | |- _ → _ => let H := fresh in intro H; try discriminate H
           | |- ∃ _, _ => eexists
           end; reflexivity.
Qed.

(** C3.  A lock on a valid piece returns normally; with [n] the count
    returned by [clear_lines], the score grows by [n * n * 100] and the line
    counter by [n] when [n > 0] (100, 400, 900, 1600 for 1 to 4 lines) and
    both are unchanged when [n = 0]. *)
Theorem lock_piece_scoring (s : Tetris.t) (rnd : Kind.t) :
  board_ok (Tetris.board s) →
  Board.is_valid_position (Tetris.board s) (Tetris.current_piece s) = Ok true →
  ∃ b1 s',
    Board.lock_piece (Tetris.board s) (Tetris.current_piece s) = Ok b1 ∧
    Tetris.lock_piece s rnd = Ok s' ∧
    let n := (Board.clear_lines b1).2 in
    0 <= n ∧
    (n > 0 →
       Tetris.score s' = Tetris.score s + n * n * 100 ∧
       Tetris.lines_cleared s' = Tetris.lines_cleared s + n) ∧
    (n = 0 →
       Tetris.score s' = Tetris.score s ∧
       Tetris.lines_cleared s' = Tetris.lines_cleared s) ∧
    (n = 1 → Tetris.score s' = Tetris.score s + 100) ∧
    (n = 2 → Tetris.score s' = Tetris.score s + 400) ∧
    (n = 3 → Tetris.score s' = Tetris.score s + 900) ∧
    (n = 4 → Tetris.score s' = Tetris.score s + 1600).
Proof.
  intros Hb Hv.
  destruct (lock_piece_total _ _ Hb Hv) as (b1 & Hlock).
  pose proof (lock_piece_board_ok _ _ _ Hb Hlock) as Hb1.
  destruct (lock_piece_outcome s rnd b1 Hlock Hb1)
    as (over & s' & _ & Hs' & _ & Hscore & Hlines & _).
  exists b1, s'. split; [exact Hlock|]. split; [exact Hs'|].
  intros n. fold n in Hscore, Hlines.
  pose proof (clear_lines_count_nonneg b1) as Hn. fold n in Hn.
  split; [exact Hn|].
  destruct (Z.gtb_spec n 0) as [Hpos|Hzero]; rewrite Hscore, Hlines;
    repeat split; intros; lia.
Qed.

(** ** Tetris.rotate_piece *)

Lemma at_anchor_twice cx cy cx' cy' p :
  at_anchor cx cy (at_anchor cx' cy' p) = at_anchor cx cy p.
Proof. reflexivity. Qed.

Lemma kick_loop_all_fail b ox oy kicks : ∀ p,
  (∀ d, d ∈ kicks →
        Board.is_valid_position b (at_anchor (ox + d.1) (oy + d.2) p) = Ok false) →
  ∃ p', Tetris.kick_loop b p ox oy kicks = Ok (p', false) ∧
        Piece.type p' = Piece.type p.
Proof.
  induction kicks as [|[dx dy] kicks IH]; intros p Hfail; simpl.
  - eauto.
  - change (Piece.set_y (oy + dy) (Piece.set_x (ox + dx) p))
      with (at_anchor (ox + dx) (oy + dy) p).
    pose proof (Hfail (dx, dy) ltac:(left)) as Hhd. cbn [fst snd] in Hhd.
    rewrite Hhd. simpl.
    destruct (IH (at_anchor (ox + dx) (oy + dy) p)) as (p' & Hp' & Hty).
    { intros d Hd. rewrite at_anchor_twice. apply Hfail. right. exact Hd. }
    exists p'. split; [exact Hp' | exact Hty].
Qed.

Lemma kick_loop_first b ox oy pre d post : ∀ p,
  (∀ d', d' ∈ pre →
         Board.is_valid_position b (at_anchor (ox + d'.1) (oy + d'.2) p) = Ok false) →
  Board.is_valid_position b (at_anchor (ox + d.1) (oy + d.2) p) = Ok true →
  Tetris.kick_loop b p ox oy (pre ++ d :: post)
  = Ok (at_anchor (ox + d.1) (oy + d.2) p, true).
Proof.
  induction pre as [|[dx dy] pre IH]; intros p Hfail Hok; simpl.
  - destruct d as [dx dy]. simpl in *.
    change (Piece.set_y (oy + dy) (Piece.set_x (ox + dx) p))
      with (at_anchor (ox + dx) (oy + dy) p).
    rewrite Hok. reflexivity.
  - change (Piece.set_y (oy + dy) (Piece.set_x (ox + dx) p))
      with (at_anchor (ox + dx) (oy + dy) p).
    pose proof (Hfail (dx, dy) ltac:(left)) as Hhd. cbn [fst snd] in Hhd.
    rewrite Hhd. simpl.
    rewrite (IH (at_anchor (ox + dx) (oy + dy) p)).
    + reflexivity.
    + intros d' Hd'. rewrite at_anchor_twice. apply Hfail. right. exact Hd'.
    + rewrite at_anchor_twice. exact Hok.
Qed.

Lemma rotate_type p : Piece.type (Piece.rotate p) = Piece.type p.
Proof. reflexivity. Qed.

Lemma rotate_anchor p :
  Piece.x (Piece.rotate p) = Piece.x p ∧ Piece.y (Piece.rotate p) = Piece.y p.
Proof. split; reflexivity. Qed.

(** C4.  When the rotated piece is invalid in place and at every kick
    offset, [rotate_piece] returns the engine state it started from:
    rotation index, matrix, anchor, board and every other field. *)
Theorem rotate_piece_atomic (s : Tetris.t) :
  let p := Tetris.current_piece s in
  Board.is_valid_position (Tetris.board s) (Piece.rotate p) = Ok false →
  (∀ d, d ∈ Tetris.kick_tests (Piece.type p) →
        Board.is_valid_position (Tetris.board s)
          (at_anchor (Piece.x p + d.1) (Piece.y p + d.2) (Piece.rotate p))
        = Ok false) →
  Tetris.rotate_piece s = Ok s.
Proof.
  intros p Hplace Hkicks. unfold Tetris.rotate_piece. fold p.
  rewrite Hplace. simpl.
  destruct (kick_loop_all_fail (Tetris.board s) (Piece.x p) (Piece.y p)
              (Tetris.kick_tests (Piece.type p)) (Piece.rotate p) Hkicks)
    as (p' & Hp' & Hty).
  rewrite rotate_type in *. rewrite Hp'. simpl. f_equal.
  subst p. destruct s as [b cp np sc li go lf fs]. simpl in *.
  unfold Tetris.set_current_piece. simpl. f_equal.
  destruct cp, p'. simpl in *. subst. reflexivity.
Qed.

(** C5.  [rotate_piece] keeps the rotation at the unchanged anchor when it
    is valid; otherwise it walks the kick list in order, each offset added
    to the anchor of before the rotation, and accepts the first valid one.
    The list is the nine-offset one for type I and the seven-offset one for
    every other type. *)
Theorem rotate_piece_kicks (s : Tetris.t) :
  let p := Tetris.current_piece s in
  let b := Tetris.board s in
  Tetris.kick_tests Kind.I =
    [(1, 0); (-1, 0); (2, 0); (-2, 0); (3, 0); (-3, 0);
     (0, -1); (1, -1); (-1, -1)] ∧
  (∀ k, k ≠ Kind.I →
        Tetris.kick_tests k =
          [(1, 0); (-1, 0); (2, 0); (-2, 0); (0, -1); (1, -1); (-1, -1)]) ∧
  (Board.is_valid_position b (Piece.rotate p) = Ok true →
   Tetris.rotate_piece s = Ok (Tetris.set_current_piece (Piece.rotate p) s)) ∧
  (Board.is_valid_position b (Piece.rotate p) = Ok false →
   ∀ pre d post,
     Tetris.kick_tests (Piece.type p) = pre ++ d :: post →
     (∀ d', d' ∈ pre →
            Board.is_valid_position b
              (at_anchor (Piece.x p + d'.1) (Piece.y p + d'.2) (Piece.rotate p))
            = Ok false) →
     Board.is_valid_position b
       (at_anchor (Piece.x p + d.1) (Piece.y p + d.2) (Piece.rotate p))
     = Ok true →
     Tetris.rotate_piece s =
     Ok (Tetris.set_current_piece
           (at_anchor (Piece.x p + d.1) (Piece.y p + d.2) (Piece.rotate p)) s)).
Proof.
  intros p b. split; [reflexivity|]. split.
  { intros k Hk. destruct k; try reflexivity. congruence. }
  split.
  - intros Hok. unfold Tetris.rotate_piece. fold p b. rewrite Hok. reflexivity.
  - intros Hbad pre d post Hlist Hpre Hd.
    unfold Tetris.rotate_piece. fold p b. rewrite Hbad. simpl.
    rewrite ?rotate_type, Hlist.
    rewrite (kick_loop_first b (Piece.x p) (Piece.y p) pre d post
               (Piece.rotate p) Hpre Hd).
    reflexivity.
Qed.

(** ** Piece.rotate *)

Lemma PIECES_length k : length (PIECES k) = rotation_count k.
Proof. destruct k; reflexivity. Qed.

Lemma rotate_subscript p :
  let r := (Piece.rotation p + 1) mod Z.of_nat (length (Piece.rotations p)) in
  getitem (Piece.rotations p) r = Ok (Piece.shape (Piece.rotate p)).
Proof.
  intros r.
  assert (Hr : 0 <= r < Z.of_nat (length (Piece.rotations p))).
  { apply Z.mod_pos_bound. unfold Piece.rotations. rewrite PIECES_length.
    destruct (Piece.type p); simpl; lia. }
  destruct (getitem_nonneg _ _ Hr) as (v & Hv & ->). f_equal.
  simpl. fold r. symmetry. apply nth_lookup_Some with (d := []) in Hv. exact Hv.
Qed.

(** C8.  A piece rotated as many times as its type has rotation states
    (1 for O; 2 for I, S, Z; 4 for T, J, L) is the piece it was, and no
    number of rotations moves the anchor. *)
Theorem rotate_full_cycle (p : Piece.t) :
  piece_ok p →
  length (Piece.rotations p) = rotation_count (Piece.type p) ∧
  Nat.iter (rotation_count (Piece.type p)) Piece.rotate p = p ∧
  ∀ n, Piece.x (Nat.iter n Piece.rotate p) = Piece.x p ∧
       Piece.y (Nat.iter n Piece.rotate p) = Piece.y p.
Proof.
  intros [Hr Hs]. split; [apply PIECES_length|]. split.
  - destruct p as [k r sh px py]. unfold Piece.rotations in *. simpl in *.
    rewrite PIECES_length in Hr. subst sh.
    destruct k; simpl in Hr;
      (assert (Hc : r = 0 ∨ r = 1 ∨ r = 2 ∨ r = 3) by lia;
       destruct Hc as [-> | [-> | [-> | ->]]]; try lia; reflexivity).
  - induction n as [|n [IHx IHy]]; [split; reflexivity|]. cbn [Nat.iter].
    destruct (rotate_anchor (Nat.iter n Piece.rotate p)) as [Hx Hy].
    split; [rewrite <- IHx | rewrite <- IHy]; assumption.
Qed.

Lemma PIECES_first_row_set k :
  Forall (fun sh => first_row_set sh = true) (PIECES k).
Proof. destruct k; repeat constructor. Qed.

Lemma piece_ok_shape p :
  piece_ok p → Piece.shape p ∈ PIECES (Piece.type p).
Proof.
  intros [Hr ->]. unfold Piece.rotations in *.
  destruct (lookup_lt_is_Some_2 (PIECES (Piece.type p))
              (Z.to_nat (Piece.rotation p))) as [sh Hsh]; [lia|].
  rewrite (nth_lookup_Some _ _ _ _ Hsh).
  apply list_elem_of_lookup. eauto.
Qed.

Lemma piece_ok_occupies p : piece_ok p → ∃ cx, occupies p cx (Piece.y p).
Proof.
  intros Hp. pose proof (piece_ok_shape p Hp) as Hin.
  pose proof (PIECES_first_row_set (Piece.type p)) as Hall.
  rewrite Forall_forall in Hall. specialize (Hall _ Hin).
  destruct (Piece.shape p) as [|row rest] eqn:Hsh; [discriminate|].
  simpl in Hall. apply existsb_exists in Hall as (cell & Hcell & Hset).
  apply list_elem_of_In, list_elem_of_lookup in Hcell as (c & Hc).
  apply truthy_true in Hset.
  exists (Piece.x p + Z.of_nat c), 0%nat, c, row, cell.
  rewrite Hsh. repeat split; try assumption. simpl. lia.
Qed.

Lemma piece_ok_set_y v p : piece_ok p → piece_ok (Piece.set_y v p).
Proof. intros H. exact H. Qed.

Lemma valid_anchor_row b p :
  board_ok b → piece_ok p → Board.is_valid_position b p = Ok true →
  Piece.y p <= 19.
Proof.
  intros Hb Hp Hv. destruct (piece_ok_occupies p Hp) as (cx & Hocc).
  destruct (is_valid_position_cases b p Hb) as (v & Hv' & Hiff).
  destruct (Z.le_gt_cases (Piece.y p) 19) as [?|Hgt]; [assumption|].
  assert (Hfalse : v = false).
  { apply Hiff. exists cx, (Piece.y p). split; [exact Hocc|].
    right. right. left. lia. }
  congruence.
Qed.

Lemma move_down_free s rnd :
  let p := Tetris.current_piece s in
  Board.is_valid_position (Tetris.board s) (Piece.set_y (Piece.y p + 1) p)
  = Ok true →
  Tetris.move_down s rnd
  = Ok (Tetris.set_current_piece (Piece.set_y (Piece.y p + 1) p) s, true).
Proof. intros p Hv. unfold Tetris.move_down. fold p. rewrite Hv. reflexivity. Qed.

Lemma move_down_blocked s rnd :
  let p := Tetris.current_piece s in
  Board.is_valid_position (Tetris.board s) (Piece.set_y (Piece.y p + 1) p)
  = Ok false →
  Tetris.move_down s rnd = (let* s' := Tetris.lock_piece s rnd in Ok (s', false)).
Proof.
  intros p Hv. unfold Tetris.move_down. fold p. rewrite Hv. simpl.
  replace (Tetris.set_current_piece _ s) with s; [reflexivity|].
  subst p. destruct s as [b [k r sh px py] np sc li go lf fs].
  unfold Tetris.set_current_piece, Piece.set_y. simpl. do 2 f_equal. lia.
Qed.


Lemma hard_drop_of_run rnd n s s' :
  drop_run rnd n s s' →
  ∀ calls, (n <= calls)%nat → Tetris.hard_drop calls s rnd = Some (Ok s').
Proof.
  induction 1 as [s s' Hlast | n s s1 s' Hmore _ IH]; intros calls Hle.
  - destruct calls as [|calls]; [lia|]. simpl. rewrite Hlast. reflexivity.
  - destruct calls as [|calls]; [lia|]. simpl. rewrite Hmore.
    apply IH. lia.
Qed.


(** The run exists: from a valid position the piece comes to rest after at
    most [19 - y] successful steps, and the failing call locks it there. *)
Lemma drop_run_exists rnd (m : nat) : ∀ s,
  let p := Tetris.current_piece s in
  board_ok (Tetris.board s) → piece_ok p →
  Board.is_valid_position (Tetris.board s) p = Ok true →
  19 - Piece.y p <= Z.of_nat m →
  ∃ (k : nat) s',
    drop_run rnd (S k) s s' ∧
    Z.of_nat (S k) <= 20 - Piece.y p ∧
    Board.is_valid_position (Tetris.board s)
      (Piece.set_y (Piece.y p + Z.of_nat k) p) = Ok true ∧
    Tetris.lock_piece
      (Tetris.set_current_piece (Piece.set_y (Piece.y p + Z.of_nat k) p) s) rnd
    = Ok s'.
Proof.
  induction m as [|m IH]; intros s p Hb Hp Hv Hm.
  all: pose proof (valid_anchor_row _ _ Hb Hp Hv) as Hy.
  all: destruct (is_valid_position_total (Tetris.board s)
                   (Piece.set_y (Piece.y p + 1) p) Hb) as ([|] & Hnext).
  all: try (pose proof (valid_anchor_row _ _ Hb (piece_ok_set_y _ _ Hp) Hnext)
             as Hy'; simpl in Hy').
  - lia.
  - (* blocked at once *)
    destruct (lock_piece_total _ _ Hb Hv) as (b1 & Hlock).
    destruct (lock_piece_outcome s rnd b1 Hlock
                (lock_piece_board_ok _ _ _ Hb Hlock))
      as (over & s' & _ & Hs' & _).
    assert (Hsame : Tetris.set_current_piece
                      (Piece.set_y (Piece.y p + Z.of_nat 0) p) s = s).
    { subst p. destruct s as [b [k r sh px py] np sc li go lf fs].
      unfold Tetris.set_current_piece, Piece.set_y. simpl. do 2 f_equal. lia. }
    exists 0%nat, s'. split; [|split; [|split]].
    + apply drop_last. rewrite move_down_blocked by exact Hnext.
      rewrite Hs'. reflexivity.
    + lia.
    + replace (Piece.set_y (Piece.y p + Z.of_nat 0) p) with p; [exact Hv|].
      subst p. destruct (Tetris.current_piece s). unfold Piece.set_y. simpl.
      f_equal. lia.
    + rewrite Hsame. exact Hs'.
  - (* one free step, then the shorter run *)
    set (s1 := Tetris.set_current_piece (Piece.set_y (Piece.y p + 1) p) s).
    destruct (IH s1) as (k & s' & Hrun & Hk & Hrest & Hlock).
    + exact Hb.
    + exact Hp.
    + exact Hnext.
    + simpl. lia.
    + exists (S k), s'. simpl in Hk, Hrest, Hlock.
      replace (Piece.y p + 1 + Z.of_nat k) with (Piece.y p + Z.of_nat (S k))
        in Hrest, Hlock by lia.
      split; [|split; [|split]].
      * apply drop_more with (s1 := s1); [|exact Hrun].
        apply move_down_free. exact Hnext.
      * lia.
      * exact Hrest.
      * exact Hlock.
  - (* blocked at once *)
    destruct (lock_piece_total _ _ Hb Hv) as (b1 & Hlock).
    destruct (lock_piece_outcome s rnd b1 Hlock
                (lock_piece_board_ok _ _ _ Hb Hlock))
      as (over & s' & _ & Hs' & _).
    assert (Hsame : Tetris.set_current_piece
                      (Piece.set_y (Piece.y p + Z.of_nat 0) p) s = s).
    { subst p. destruct s as [b [k r sh px py] np sc li go lf fs].
      unfold Tetris.set_current_piece, Piece.set_y. simpl. do 2 f_equal. lia. }
    exists 0%nat, s'. split; [|split; [|split]].
    + apply drop_last. rewrite move_down_blocked by exact Hnext.
      rewrite Hs'. reflexivity.
    + lia.
    + replace (Piece.set_y (Piece.y p + Z.of_nat 0) p) with p; [exact Hv|].
      subst p. destruct (Tetris.current_piece s). unfold Piece.set_y. simpl.
      f_equal. lia.
    + rewrite Hsame. exact Hs'.
Qed.


(** C6 fails on the engine methods themselves: after five I pieces have been
    stacked in column 3 the game is over, yet [move_left], [move_right] and
    [rotate_piece] each still change the state. *)
Lemma engine_moves_after_game_over :
  ∃ st, press_keys 21 Kind.I five_I_keys (Tetris.new Kind.I Kind.I 0) = Some (Ok st) ∧
        Tetris.game_over st = true ∧
        Tetris.move_left st ≠ Ok st ∧
        Tetris.move_right st ≠ Ok st ∧
        Tetris.rotate_piece st ≠ Ok st.
Proof.
  eexists. split; [vm_compute; reflexivity|].
  split; [reflexivity|].
  repeat split; vm_compute; discriminate.
Qed.

(** C6, as amended.  Once the game-over flag is set the key handler calls no
    engine operation: every key but R and ESC leaves the engine state and the
    screen as they are, ESC only changes the screen, [update] does nothing,
    and R resets the match and clears the flag. *)
Theorem keydown_ignored_when_game_over
        (calls : nat) (rnd rnd' : Kind.t) (ticks : Z) (tetris : Tetris.t) :
  Tetris.game_over tetris = true →
  (∀ key, key ≠ K_r → key ≠ K_ESCAPE →
          keydown_playing calls rnd rnd' ticks key tetris
          = Some (Ok (tetris, STATE_PLAYING))) ∧
  keydown_playing calls rnd rnd' ticks K_ESCAPE tetris
  = Some (Ok (tetris, STATE_MENU)) ∧
  Tetris.update tetris ticks rnd = Ok tetris ∧
  keydown_playing calls rnd rnd' ticks K_r tetris
  = Some (Ok (Tetris.reset tetris rnd rnd' ticks, STATE_PLAYING)) ∧
  Tetris.game_over (Tetris.reset tetris rnd rnd' ticks) = false.
Proof.
  intros Hover. unfold keydown_playing, Tetris.update. rewrite Hover. simpl.
  repeat split. intros key Hr Hesc. destruct key; congruence.
Qed.

Lemma keydown_ignored_when_game_over_witness :
  ∃ st, press_keys 21 Kind.I five_I_keys (Tetris.new Kind.I Kind.I 0) = Some (Ok st) ∧
        keydown_playing 21 Kind.I Kind.I 0 K_LEFT st = Some (Ok (st, STATE_PLAYING)).
Proof.
  eexists. split; [vm_compute; reflexivity|].
  apply (keydown_ignored_when_game_over 21 Kind.I Kind.I 0);
    [reflexivity | discriminate | discriminate].
Defined.

(** C7 fails as stated: the first 19 calls do not all return [True]. *)
Lemma O_piece_19th_move_down_fails :
  ¬ ∃ s, move_down_calls 19 fresh_O Kind.J = Ok (s, replicate 19 true).
Proof.
  intros (s & Hs). vm_compute in Hs. discriminate Hs.
Qed.

(** C7, as amended.  On an empty board with an O piece at anchor (3, 0),
    [move_down] returns [True] 18 times, bringing the anchor to row 18; the
    19th call returns [False] and locks the piece: rows 18 and 19 hold O at
    columns 3 and 4, all else is empty, and the next piece is spawned. *)
Theorem O_piece_drop_scenario (next rnd : Kind.t) (ticks : Z) :
  ∃ s18 s19,
    move_down_calls 18 (Tetris.new Kind.O next ticks) rnd
    = Ok (s18, replicate 18 true) ∧
    Piece.y (Tetris.current_piece s18) = 18 ∧
    Tetris.move_down s18 rnd = Ok (s19, false) ∧
    Board.grid (Tetris.board s19)
    = replicate 18 (Board.empty_row 10) ++ [bottom_O_row; bottom_O_row] ∧
    Tetris.current_piece s19 = Piece.new next.
Proof.
  destruct next, rnd; do 2 eexists;
    (split; [vm_compute; reflexivity|]);
    (split; [reflexivity|]);
    (split; [vm_compute; reflexivity|]);
    split; reflexivity.
Qed.

(** Shape of a concrete board, by evaluation. *)
Ltac board_shape := repeat split; repeat constructor.

(** Object invariant of a concrete piece, by evaluation. *)
Ltac piece_shape :=
  split; [vm_compute; split; [discriminate | reflexivity] | reflexivity].

Lemma is_valid_position_spec_witness :
  Board.is_valid_position well_board
    (Piece.rotate (Tetris.current_piece I_in_well)) = Ok false ↔
  ∃ cx cy, occupies (Piece.rotate (Tetris.current_piece I_in_well)) cx cy ∧
           offending well_board cx cy.
Proof.
  apply (is_valid_position_spec well_board
           (Piece.rotate (Tetris.current_piece I_in_well))).
  board_shape.
Defined.

Lemma clear_lines_spec_witness :
  Board.grid (Board.clear_lines filled_board).1 =
    replicate 2 (replicate 10 None)
    ++ List.filter incomplete (Board.grid filled_board) ∧
  (Board.clear_lines filled_board).2 = 2.
Proof.
  destruct (clear_lines_spec filled_board 2)
    as (_ & _ & _ & Hgrid & _ & Hcount);
    [reflexivity | reflexivity | reflexivity |].
  split; [exact Hgrid | exact Hcount].
Defined.

Lemma lock_piece_scoring_witness :
  ∃ s', Tetris.lock_piece O_over_gap Kind.T = Ok s' ∧
        Tetris.score s' = Tetris.score O_over_gap + 400.
Proof.
  destruct (lock_piece_scoring O_over_gap Kind.T)
    as (b1 & s' & Hb1 & Hs' & _ & _ & _ & _ & Htwo & _);
    [board_shape | reflexivity |].
  exists s'. split; [exact Hs'|]. apply Htwo.
  vm_compute in Hb1. injection Hb1 as <-. reflexivity.
Defined.

Lemma rotate_piece_atomic_witness :
  Tetris.rotate_piece I_in_well = Ok I_in_well.
Proof.
  apply (rotate_piece_atomic I_in_well); [reflexivity|].
  intros d Hd. vm_compute in Hd.
  repeat (apply elem_of_cons in Hd as [-> | Hd]; [reflexivity|]).
  inversion Hd.
Defined.

Lemma rotate_piece_kicks_witness :
  Tetris.rotate_piece I_at_right_wall =
  Ok (Tetris.set_current_piece
        (at_anchor 6 0 (Piece.rotate (Tetris.current_piece I_at_right_wall)))
        I_at_right_wall).
Proof.
  destruct (rotate_piece_kicks I_at_right_wall) as (_ & _ & _ & Hkick).
  apply (Hkick eq_refl [(1, 0); (-1, 0); (2, 0); (-2, 0); (3, 0)] (-3, 0)
               [(0, -1); (1, -1); (-1, -1)]); [reflexivity | | reflexivity].
  intros d Hd.
  repeat (apply elem_of_cons in Hd as [-> | Hd]; [reflexivity|]).
  inversion Hd.
Defined.

Lemma rotate_full_cycle_witness :
  Nat.iter 4 Piece.rotate (Piece.rotate (Piece.new Kind.T))
  = Piece.rotate (Piece.new Kind.T).
Proof.
  apply (rotate_full_cycle (Piece.rotate (Piece.new Kind.T))). piece_shape.
Defined.

(** Outside a match the number of calls is not bounded by 21: for a flat
    I piece put two rows above an empty board, a valid position, the run
    takes 22 calls. *)
Lemma high_I_needs_22_calls :
  board_ok (Tetris.board high_I) ∧
  piece_ok (Tetris.current_piece high_I) ∧
  Board.is_valid_position (Tetris.board high_I) (Tetris.current_piece high_I)
  = Ok true ∧
  Tetris.hard_drop 21 high_I Kind.J = None ∧
  ∃ s', Tetris.hard_drop 22 high_I Kind.J = Some (Ok s').
Proof.
  split; [board_shape|]. split; [piece_shape|]. split; [reflexivity|].
  split; [vm_compute; reflexivity|]. eexists. vm_compute. reflexivity.
Qed.

Lemma board_shape_invariant_witness :
  ∃ b, Board.lock_piece Board.new (Piece.set_y 18 (Piece.new Kind.O)) = Ok b ∧
       board_ok b ∧ board_ok (Board.clear_lines b).1.
Proof.
  eexists. split; [vm_compute; reflexivity|].
  destruct (board_shape_invariant _
              (reach_lock Board.new (Piece.set_y 18 (Piece.new Kind.O)) _
                          reach_new eq_refl eq_refl))
    as (Hok & _ & Hclear & _).
  split; [exact Hok | exact Hclear].
Defined.

(* ===================================================================== *)
(** * Further properties of the code                                     *)
(* ===================================================================== *)

Lemma flat_map_map_out {A B C} (f : A → list B) (g : B → C) (l : list A) :
  flat_map (fun a => map g (f a)) l = map g (flat_map f l).
Proof.
  induction l as [|a l IH]; simpl; [reflexivity|].
  rewrite IH, map_app. reflexivity.
Qed.

Lemma row_positions_shift p dx dy row_idx row :
  Piece.row_positions (at_anchor (Piece.x p + dx) (Piece.y p + dy) p) row_idx row
  = map (shift dx dy) (Piece.row_positions p row_idx row).
Proof.
  unfold Piece.row_positions. rewrite <- flat_map_map_out.
  apply flat_map_ext. intros [col_idx cell]. simpl.
  destruct (truthy cell); [|reflexivity]. unfold shift. simpl.
  do 2 f_equal; lia.
Qed.

(** X1.  Moving the anchor by [(dx, dy)] moves every cell reported by
    [get_positions] by [(dx, dy)], in the same order. *)
Theorem get_positions_shift (p : Piece.t) (dx dy : Z) :
  Piece.get_positions (at_anchor (Piece.x p + dx) (Piece.y p + dy) p)
  = map (shift dx dy) (Piece.get_positions p).
Proof.
  unfold Piece.get_positions. rewrite <- flat_map_map_out.
  apply flat_map_ext. intros [row_idx row].
  apply row_positions_shift.
Qed.

Lemma piece_cells_box p cx cy :
  piece_ok p → (cx, cy) ∈ Piece.get_positions p →
  Piece.x p <= cx <= Piece.x p + 3 ∧ Piece.y p <= cy <= Piece.y p + 3.
Proof.
  intros [Hr Hs]. destruct p as [k r sh px py].
  unfold Piece.rotations in *. simpl in *. rewrite PIECES_length in Hr. subst sh.
  assert (Hc : r = 0 ∨ r = 1 ∨ r = 2 ∨ r = 3) by (destruct k; simpl in Hr; lia).
  destruct k; simpl in Hr; destruct Hc as [-> | [-> | [-> | ->]]]; try lia;
    (unfold Piece.get_positions; simpl; intros Hin;
     rewrite ?elem_of_cons, elem_of_nil in Hin;
     decompose [or] Hin;
     try match goal with
         | H : (_, _) = (_, _) |- _ => injection H; intros; subst; lia
         end; contradiction).
Qed.

Lemma piece_cells_four p :
  piece_ok p →
  length (Piece.get_positions p) = 4%nat ∧ NoDup (Piece.get_positions p).
Proof.
  intros [Hr Hs]. destruct p as [k r sh px py].
  unfold Piece.rotations in *. simpl in *. rewrite PIECES_length in Hr. subst sh.
  assert (Hc : r = 0 ∨ r = 1 ∨ r = 2 ∨ r = 3) by (destruct k; simpl in Hr; lia).
  destruct k; simpl in Hr; destruct Hc as [-> | [-> | [-> | ->]]]; try lia;
    (split; [reflexivity|]);
    unfold Piece.get_positions; simpl;
    repeat (apply NoDup_cons; split;
            [ rewrite ?elem_of_cons, elem_of_nil;
              intros Hin; decompose [or] Hin;
              try match goal with
                  | H : (_, _) = (_, _) |- _ => injection H; intros; lia
                  end; assumption
            | ]);
    apply NoDup_nil; exact Logic.I.
Qed.

(** X2.  A piece in any rotation state of the catalogue has exactly four
    cells, all different, inside the 4x4 box below and right of its anchor. *)
Theorem catalogue_piece_cells (p : Piece.t) :
  piece_ok p →
  length (Piece.get_positions p) = 4%nat ∧
  NoDup (Piece.get_positions p) ∧
  ∀ cx cy, (cx, cy) ∈ Piece.get_positions p →
           Piece.x p <= cx <= Piece.x p + 3 ∧ Piece.y p <= cy <= Piece.y p + 3.
Proof.
  intros Hp. destruct (piece_cells_four p Hp) as [Hlen Hnd].
  split; [exact Hlen|]. split; [exact Hnd|].
  intros cx cy. apply piece_cells_box, Hp.
Qed.

Lemma py_index_Ok {A} (l : list A) i k :
  py_index l i = Ok k →
  (0 <= i < Z.of_nat (length l) ∧ k = Z.to_nat i) ∨
  (- Z.of_nat (length l) <= i < 0 ∧ k = Z.to_nat (Z.of_nat (length l) + i)).
Proof.
  unfold py_index.
  destruct (Z.leb_spec 0 i); destruct (Z.ltb_spec i (Z.of_nat (length l)));
    simpl; try (intros [= <-]; left; split; [lia | reflexivity]).
  all: destruct (Z.leb_spec (- Z.of_nat (length l)) i);
    destruct (Z.ltb_spec i 0); simpl; try discriminate.
  all: try (intros [= <-]; right; split; [lia | reflexivity]).
  all: lia.
Qed.

Lemma py_index_neg {A} (l : list A) i :
  - Z.of_nat (length l) <= i < 0 →
  py_index l i = Ok (Z.to_nat (Z.of_nat (length l) + i)).
Proof.
  intros Hi. unfold py_index.
  destruct (Z.leb_spec 0 i); [lia|]. simpl.
  destruct (Z.leb_spec (- Z.of_nat (length l)) i); [|lia].
  destruct (Z.ltb_spec i 0); [|lia]. reflexivity.
Qed.

Lemma py_index_out {A} (l : list A) i :
  i < - Z.of_nat (length l) ∨ Z.of_nat (length l) <= i →
  py_index l i = Raise IndexError.
Proof.
  intros Hi. unfold py_index.
  destruct (Z.leb_spec 0 i); destruct (Z.ltb_spec i (Z.of_nat (length l)));
    simpl; try lia.
  all: destruct (Z.leb_spec (- Z.of_nat (length l)) i);
    destruct (Z.ltb_spec i 0); simpl; try lia; reflexivity.
Qed.

(** One iteration of the loop of [Board.lock_piece] that writes. *)
Lemma lock_write g k x0 y0 row row' g1 :
  grid_ok g → 0 <= y0 →
  getitem g y0 = Ok row →
  setitem row x0 (Some k) = Ok row' →
  setitem g y0 row' = Ok g1 →
  -10 <= x0 < 10 ∧ y0 < 20 ∧ grid_ok g1 ∧
  ∀ cx cy, 0 <= cx < 10 → 0 <= cy < 20 →
    cell_at g1 cx cy =
    if decide (wrap_column x0 = cx ∧ y0 = cy) then Some (Some k)
    else cell_at g cx cy.
Proof.
  intros Hg Hy0 Hrow Hrow' Hg1.
  apply getitem_nonneg_inv in Hrow as [Hrow Hylt]; [|assumption].
  pose proof (grid_ok_row _ _ _ Hg Hrow) as Hlen.
  apply setitem_is_Ok in Hrow' as (kx & Hkx & ->).
  apply setitem_is_Ok in Hg1 as (ky & Hky & ->).
  apply py_index_nonneg_inv in Hky as [-> _]; [|assumption].
  assert (Hx : -10 <= x0 < 10 ∧ kx = Z.to_nat (wrap_column x0)).
  { unfold wrap_column. apply py_index_Ok in Hkx. rewrite Hlen in Hkx.
    destruct (Z.ltb_spec x0 0); destruct Hkx as [[? ->] | [? ->]];
      try lia; split; try lia; f_equal; lia. }
  destruct Hx as [Hx ->]. destruct Hg as [Hglen Hrows].
  split; [exact Hx|]. split; [lia|]. split.
  { split; [rewrite length_insert; exact Hglen|].
    apply Forall_insert; [exact Hrows|]. rewrite length_insert. exact Hlen. }
  intros cx cy Hcx Hcy. unfold cell_at.
  assert (Hwx : 0 <= wrap_column x0 < 10).
  { unfold wrap_column. destruct (Z.ltb_spec x0 0); lia. }
  destruct (decide (wrap_column x0 = cx ∧ y0 = cy)) as [[<- <-] | Hne].
  - rewrite list_lookup_insert_eq by lia.
    apply list_lookup_insert_eq. lia.
  - destruct (decide (y0 = cy)) as [<- | Hy].
    + rewrite list_lookup_insert_eq by lia. rewrite Hrow.
      apply list_lookup_insert_ne. intros Heq. apply Hne. split; [lia | reflexivity].
    + rewrite list_lookup_insert_ne by lia. reflexivity.
Qed.

Lemma lock_positions_cells ps : ∀ g k g',
  grid_ok g → Board.lock_positions g k ps = Ok g' →
  ∀ cx cy, 0 <= cx < 10 → 0 <= cy < 20 →
    (Exists (fun c : Z * Z => wrap_column c.1 = cx ∧ c.2 = cy) ps →
     cell_at g' cx cy = Some (Some k)) ∧
    (¬ Exists (fun c : Z * Z => wrap_column c.1 = cx ∧ c.2 = cy) ps →
     cell_at g' cx cy = cell_at g cx cy).
Proof.
  induction ps as [|[x0 y0] ps IH]; intros g k g' Hg Hlock cx cy Hcx Hcy.
  - simpl in Hlock. injection Hlock as <-. split; [|reflexivity].
    intros H. inversion H.
  - simpl in Hlock. destruct (Z.geb_spec y0 0) as [Hy0 | Hy0].
    + apply bind_Ok in Hlock as (row & Hrow & Hlock).
      apply bind_Ok in Hlock as (row' & Hrow' & Hlock).
      apply bind_Ok in Hlock as (g1 & Hg1 & Hlock).
      destruct (lock_write g k x0 y0 row row' g1 Hg Hy0 Hrow Hrow' Hg1)
        as (_ & _ & Hg1ok & Hcell).
      destruct (IH g1 k g' Hg1ok Hlock cx cy Hcx Hcy) as [IHin IHout].
      specialize (Hcell cx cy Hcx Hcy).
      destruct (decide (Exists (fun c : Z * Z => wrap_column c.1 = cx ∧ c.2 = cy) ps))
        as [Hex | Hnex].
      * split; [intros _; apply IHin, Hex|].
        intros Hn. exfalso. apply Hn. right. exact Hex.
      * rewrite (IHout Hnex), Hcell. split.
        -- intros Hex. apply Exists_cons in Hex as [[Hx Hy] | Hex]; [|contradiction].
           simpl in Hx, Hy. rewrite decide_True by auto. reflexivity.
        -- intros Hn. rewrite decide_False; [reflexivity|].
           intros [Hx Hy]. apply Hn. left. simpl. auto.
    + destruct (IH g k g' Hg Hlock cx cy Hcx Hcy) as [IHin IHout]. split.
      * intros Hex. apply Exists_cons in Hex as [[_ Hy] | Hex];
          [simpl in Hy; lia | exact (IHin Hex)].
      * intros Hn. apply IHout. intros Hex. apply Hn. right. exact Hex.
Qed.

Lemma lock_positions_returns_iff ps : ∀ g k,
  grid_ok g →
  (∃ g', Board.lock_positions g k ps = Ok g') ↔
  Forall (fun c : Z * Z => c.2 >= 0 → -10 <= c.1 < 10 ∧ c.2 < 20) ps.
Proof.
  induction ps as [|[x0 y0] ps IH]; intros g k Hg; simpl.
  - split; [intros _; constructor | eauto].
  - destruct (Z.geb_spec y0 0) as [Hy0 | Hy0].
    + split.
      * intros (g' & Hlock).
        apply bind_Ok in Hlock as (row & Hrow & Hlock).
        apply bind_Ok in Hlock as (row' & Hrow' & Hlock).
        apply bind_Ok in Hlock as (g1 & Hg1 & Hlock).
        destruct (lock_write g k x0 y0 row row' g1 Hg Hy0 Hrow Hrow' Hg1)
          as (Hx & Hy & Hg1ok & _).
        constructor; [simpl; intros _; lia|].
        apply (IH g1 k Hg1ok). eauto.
      * intros Hall. apply Forall_cons in Hall as [Hc Hall]. simpl in Hc.
        destruct Hc as [Hx Hy]; [lia|].
        destruct (getitem_nonneg g y0) as (row & Hrow & Hget).
        { destruct Hg as [-> _]. lia. }
        pose proof (grid_ok_row _ _ _ Hg Hrow) as Hlen.
        assert (Hset : ∃ row', setitem row x0 (Some k) = Ok row').
        { unfold setitem. destruct (Z.lt_ge_cases x0 0).
          - rewrite py_index_neg by (rewrite Hlen; lia). simpl. eauto.
          - rewrite py_index_nonneg by (rewrite Hlen; lia). simpl. eauto. }
        destruct Hset as (row' & Hset).
        assert (Hset' : setitem g y0 row' = Ok (<[Z.to_nat y0 := row']> g)).
        { apply setitem_nonneg. destruct Hg as [-> _]. lia. }
        rewrite Hget. simpl. rewrite Hset. simpl. rewrite Hset'. simpl.
        apply IH; [|exact Hall].
        exact (proj1 (proj2 (proj2
                 (lock_write g k x0 y0 row row' _ Hg Hy0 Hget Hset Hset')))).
    + rewrite (IH g k Hg). split.
      * intros Hall. constructor; [simpl; lia | exact Hall].
      * intros Hall. apply Forall_cons in Hall as [_ Hall]. exact Hall.
Qed.

Lemma cell_at_in_range g cx cy :
  grid_ok g → 0 <= cx < 10 → 0 <= cy < 20 → ∃ c, cell_at g cx cy = Some c.
Proof.
  intros Hg Hcx Hcy. unfold cell_at.
  destruct (lookup_lt_is_Some_2 g (Z.to_nat cy)) as [row Hrow].
  { destruct Hg as [-> _]. lia. }
  rewrite Hrow. apply lookup_lt_is_Some_2.
  rewrite (grid_ok_row _ _ _ Hg Hrow). lia.
Qed.

Lemma cell_at_taken b cx cy :
  taken b cx cy ↔ ∃ k, cell_at (Board.grid b) cx cy = Some (Some k).
Proof.
  unfold taken, cell_at. split.
  - intros (row & k & Hrow & Hk). exists k. rewrite Hrow. exact Hk.
  - intros (k & Hk). destruct (Board.grid b !! Z.to_nat cy) as [row|] eqn:Hrow;
      [|discriminate]. exists row, k. split; [reflexivity | exact Hk].
Qed.

Lemma lock_piece_written b p b' cx cy :
  board_ok b →
  Board.is_valid_position b p = Ok true →
  Board.lock_piece b p = Ok b' →
  0 <= cx < 10 → 0 <= cy < 20 →
  (occupies p cx cy →
     cell_at (Board.grid b') cx cy = Some (Some (Piece.type p))) ∧
  (¬ occupies p cx cy →
     cell_at (Board.grid b') cx cy = cell_at (Board.grid b) cx cy).
Proof.
  intros Hb Hv Hlock Hcx Hcy.
  unfold Board.lock_piece in Hlock.
  apply bind_Ok in Hlock as (g' & Hlock & [= <-]). simpl.
  pose proof (valid_positions_in_range b _ Hb Hv) as Hfree.
  rewrite Forall_forall in Hfree.
  destruct (lock_positions_cells _ _ _ _ (proj2 (proj2 Hb)) Hlock cx cy Hcx Hcy)
    as [Hin Hout].
  assert (Hex : Exists (fun c : Z * Z => wrap_column c.1 = cx ∧ c.2 = cy)
                       (Piece.get_positions p) ↔ occupies p cx cy).
  { rewrite <- elem_of_get_positions, Exists_exists. split.
    - intros ([x0 y0] & Hc & Hx & Hy). simpl in Hx, Hy. subst y0.
      pose proof (Hfree _ Hc) as Hn. unfold offending, wrap_column in *.
      simpl in Hn. destruct (Z.ltb_spec x0 0); [lia|]. subst x0. exact Hc.
    - intros Hc. exists (cx, cy). split; [exact Hc|]. simpl.
      unfold wrap_column. destruct (Z.ltb_spec cx 0); [lia|]. auto. }
  split.
  - intros Hocc. apply Hin, Hex, Hocc.
  - intros Hn. apply Hout. rewrite Hex. exact Hn.
Qed.

(** X3.  [Board.lock_piece] of a validly placed piece returns normally, keeps
    width and height, writes the piece's type tag into every cell of the
    piece on the board, each of which was empty, and leaves every other cell
    as it was. *)
Theorem lock_piece_cells (b : Board.t) (p : Piece.t) :
  board_ok b →
  Board.is_valid_position b p = Ok true →
  ∃ b', Board.lock_piece b p = Ok b' ∧
        Board.width b' = Board.width b ∧ Board.height b' = Board.height b ∧
        ∀ cx cy, 0 <= cx < 10 → 0 <= cy < 20 →
          (occupies p cx cy →
             cell_at (Board.grid b) cx cy = Some None ∧
             cell_at (Board.grid b') cx cy = Some (Some (Piece.type p))) ∧
          (¬ occupies p cx cy →
             cell_at (Board.grid b') cx cy = cell_at (Board.grid b) cx cy).
Proof.
  intros Hb Hv. destruct (lock_piece_total b p Hb Hv) as (b' & Hlock).
  exists b'. split; [exact Hlock|].
  assert (Hdims : Board.width b' = Board.width b ∧ Board.height b' = Board.height b).
  { unfold Board.lock_piece in Hlock.
    apply bind_Ok in Hlock as (g' & _ & [= <-]). split; reflexivity. }
  split; [apply Hdims|]. split; [apply Hdims|].
  intros cx cy Hcx Hcy.
  destruct (lock_piece_written b p b' cx cy Hb Hv Hlock Hcx Hcy) as [Hin Hout].
  split; [|exact Hout].
  intros Hocc. split; [|exact (Hin Hocc)].
  pose proof (valid_positions_in_range b _ Hb Hv) as Hfree.
  rewrite Forall_forall in Hfree.
  destruct (cell_at_in_range _ cx cy (proj2 (proj2 Hb)) Hcx Hcy) as ([k|] & Hc);
    [|exact Hc].
  exfalso. apply elem_of_get_positions in Hocc.
  apply (Hfree _ Hocc). simpl. right. right. right.
  split; [lia|]. apply cell_at_taken. eauto.
Qed.

(** X4.  [Board.lock_piece] checks no bounds of its own: it returns normally
    exactly when every cell of the piece with row >= 0 has row < 20 and
    column in [-10, 10), and raises [IndexError] otherwise; a negative column
    is written counting from the right edge. *)
Theorem lock_piece_returns_iff (b : Board.t) (p : Piece.t) :
  board_ok b →
  ((∃ b', Board.lock_piece b p = Ok b') ↔
   ∀ cx cy, occupies p cx cy → 0 <= cy → -10 <= cx < 10 ∧ cy < 20) ∧
  ((¬ ∃ b', Board.lock_piece b p = Ok b') →
   Board.lock_piece b p = Raise IndexError) ∧
  (∀ b', Board.lock_piece b p = Ok b' →
         board_ok b' ∧
         ∀ cx cy, occupies p cx cy → 0 <= cy →
                  cell_at (Board.grid b') (wrap_column cx) cy
                  = Some (Some (Piece.type p))).
Proof.
  intros Hb. pose proof (proj2 (proj2 Hb)) as Hg. split; [|split].
  - unfold Board.lock_piece.
    pose proof (lock_positions_returns_iff (Piece.get_positions p)
                  (Board.grid b) (Piece.type p) Hg) as Hiff.
    rewrite Forall_forall in Hiff. split.
    + intros (b' & Hlock). apply bind_Ok in Hlock as (g' & Hlock & _).
      intros cx cy Hocc Hcy. apply elem_of_get_positions in Hocc.
      apply (proj1 Hiff (ex_intro _ g' Hlock) (cx, cy) Hocc). simpl. lia.
    + intros Hall. destruct (proj2 Hiff) as (g' & ->).
      * intros [cx cy] Hc Hcy. simpl in *.
        apply Hall; [apply elem_of_get_positions; exact Hc | lia].
      * simpl. eauto.
  - intros Hno. destruct (Board.lock_piece b p) as [b'|[]] eqn:Hlock;
      [|reflexivity]. exfalso. apply Hno. eauto.
  - intros b' Hlock. split; [exact (lock_piece_board_ok b p b' Hb Hlock)|].
    unfold Board.lock_piece in Hlock.
    apply bind_Ok in Hlock as (g' & Hlock & [= <-]). simpl.
    intros cx cy Hocc Hcy. apply elem_of_get_positions in Hocc.
    assert (Hr : -10 <= cx < 10 ∧ cy < 20).
    { pose proof (proj1 (lock_positions_returns_iff _ _ _ Hg)
                    (ex_intro _ g' Hlock)) as Hall.
      rewrite Forall_forall in Hall. apply (Hall (cx, cy) Hocc). simpl. lia. }
    apply (lock_positions_cells _ _ _ _ Hg Hlock (wrap_column cx) cy).
    + unfold wrap_column. destruct (Z.ltb_spec cx 0); lia.
    + lia.
    + apply Exists_exists. exists (cx, cy). split; [exact Hocc|]. simpl. auto.
Qed.

(** ** Board.is_game_over *)

Lemma existsb_is_not_None_lookup (row : list (option Kind.t)) :
  existsb Board.is_not_None row = true ↔
  ∃ (i : nat) k, row !! i = Some (Some k).
Proof.
  rewrite existsb_exists. split.
  - intros ([k|] & Hin & Hk); [|discriminate].
    apply list_elem_of_In, list_elem_of_lookup in Hin as (i & Hi). eauto.
  - intros (i & k & Hi). exists (Some k). split; [|reflexivity].
    apply list_elem_of_In, list_elem_of_lookup. eauto.
Qed.

Lemma is_game_over_spec b :
  board_ok b →
  ∃ over, Board.is_game_over b = Ok over ∧
          (over = true ↔ ∃ cx, 0 <= cx < 10 ∧ taken b cx 0).
Proof.
  intros (_ & _ & Hg). unfold Board.is_game_over.
  destruct (getitem_nonneg (Board.grid b) 0) as (row & Hrow & ->).
  { destruct Hg as [-> _]. lia. }
  simpl. eexists. split; [reflexivity|].
  pose proof (grid_ok_row _ _ _ Hg Hrow) as Hlen.
  rewrite existsb_is_not_None_lookup. unfold taken. split.
  - intros (i & k & Hi). exists (Z.of_nat i). split.
    + apply lookup_lt_Some in Hi. lia.
    + exists row, k. rewrite Nat2Z.id. split; assumption.
  - intros (cx & _ & row' & k & Hrow' & Hk).
    rewrite Hrow in Hrow'.
    injection Hrow' as <-. eauto.
Qed.

(** X5.  After [Tetris.lock_piece] the game-over flag is set exactly when it
    was set before, or the top row holds a block after the clearing, or the
    promoted next piece does not fit. *)
Theorem lock_piece_sets_game_over (s : Tetris.t) (rnd : Kind.t) :
  board_ok (Tetris.board s) →
  Board.is_valid_position (Tetris.board s) (Tetris.current_piece s) = Ok true →
  ∃ s', Tetris.lock_piece s rnd = Ok s' ∧
        (Tetris.game_over s' = true ↔
           Tetris.game_over s = true ∨
           (∃ cx, 0 <= cx < 10 ∧ taken (Tetris.board s') cx 0) ∨
           Board.is_valid_position (Tetris.board s') (Tetris.next_piece s)
           = Ok false).
Proof.
  intros Hb Hv.
  destruct (lock_piece_total _ _ Hb Hv) as (b1 & Hlock).
  pose proof (lock_piece_board_ok _ _ _ Hb Hlock) as Hb1.
  destruct (lock_piece_outcome s rnd b1 Hlock Hb1)
    as (over & s' & Hover & Hs' & Hboard & _ & _ & Htrue & Hfalse).
  exists s'. split; [exact Hs'|]. rewrite Hboard.
  destruct (is_game_over_spec _ (clear_lines_board_ok b1 Hb1))
    as (over' & Hover' & Htop).
  rewrite Hover in Hover'. injection Hover' as <-.
  destruct over.
  - destruct (Htrue eq_refl) as (_ & _ & ->). split; [|reflexivity].
    intros _. right. left. apply Htop. reflexivity.
  - destruct (Hfalse eq_refl) as (_ & _ & valid & Hvalid & ->).
    rewrite Hvalid. destruct valid.
    + split; [auto|]. intros [?|[Hex|?]]; [assumption | | discriminate].
      apply Htop in Hex. discriminate.
    + split; [auto | reflexivity].
Qed.

(** ** Board.clear_lines *)

Lemma empty_row_incomplete : incomplete (Board.empty_row 10) = true.
Proof. reflexivity. Qed.

Lemma filter_all {A} (f : A → bool) (l : list A) :
  Forall (fun a => f a = true) l → List.filter f l = l.
Proof.
  induction 1 as [|a l Ha _ IH]; simpl; [reflexivity|].
  rewrite Ha, IH. reflexivity.
Qed.

Lemma filter_none {A} (f : A → bool) (l : list A) :
  Forall (fun a => f a = false) l → List.filter f l = [].
Proof.
  induction 1 as [|a l Ha _ IH]; simpl; [reflexivity|].
  rewrite Ha, IH. reflexivity.
Qed.

Lemma clear_lines_rows_incomplete b :
  Board.width b = 10 →
  Forall (fun row => incomplete row = true) (Board.grid (Board.clear_lines b).1).
Proof.
  intros Hw. rewrite clear_lines_eq. simpl. rewrite Hw. apply Forall_app. split.
  - apply Forall_replicate. exact empty_row_incomplete.
  - apply Forall_forall. intros row Hin.
    apply list_elem_of_In, filter_In in Hin. tauto.
Qed.

(** X6.  [clear_lines] leaves no complete row: a second call returns 0 and
    changes nothing. *)
Theorem clear_lines_idempotent (b : Board.t) :
  Board.width b = 10 →
  Board.clear_lines (Board.clear_lines b).1 = ((Board.clear_lines b).1, 0).
Proof.
  intros Hw. pose proof (clear_lines_rows_incomplete b Hw) as Hinc.
  rewrite (clear_lines_eq (Board.clear_lines b).1).
  rewrite (filter_all incomplete) by exact Hinc.
  rewrite (filter_none complete).
  - simpl. destruct (Board.clear_lines b).1. reflexivity.
  - eapply Forall_impl; [exact Hinc|]. intros row Hr. unfold incomplete in Hr.
    destruct (complete row); [discriminate | reflexivity].
Qed.

Lemma occupied_cells_cons row g :
  occupied_cells (row :: g)
  = (length (List.filter Board.is_not_None row) + occupied_cells g)%nat.
Proof.
  unfold occupied_cells. simpl. rewrite List.filter_app, length_app. reflexivity.
Qed.

Lemma occupied_cells_app g1 g2 :
  occupied_cells (g1 ++ g2) = (occupied_cells g1 + occupied_cells g2)%nat.
Proof.
  induction g1 as [|row g1 IH]; [reflexivity|]. simpl.
  rewrite !occupied_cells_cons, IH. lia.
Qed.

Lemma occupied_cells_empty_rows n w :
  occupied_cells (replicate n (Board.empty_row w)) = 0%nat.
Proof.
  induction n as [|n IH]; [reflexivity|]. simpl.
  rewrite occupied_cells_cons, IH. unfold Board.empty_row.
  induction (Z.to_nat w) as [|m IHm]; [reflexivity | exact IHm].
Qed.

Lemma complete_row_count row :
  complete row = true → length (List.filter Board.is_not_None row) = length row.
Proof.
  unfold complete. induction row as [|c row IH]; simpl; [reflexivity|].
  destruct (Board.is_not_None c); simpl; [|discriminate].
  intros H. rewrite IH by exact H. reflexivity.
Qed.

Lemma occupied_cells_split g :
  Forall (fun row => length row = 10%nat) g →
  occupied_cells g
  = (10 * length (List.filter complete g)
     + occupied_cells (List.filter incomplete g))%nat.
Proof.
  induction 1 as [|row g Hrow _ IH]; [reflexivity|]. simpl.
  rewrite occupied_cells_cons, IH. unfold incomplete at 2.
  destruct (complete row) eqn:Hc; simpl.
  - rewrite (complete_row_count row Hc), Hrow. lia.
  - rewrite occupied_cells_cons. lia.
Qed.

(** X7.  [clear_lines] removes exactly ten blocks per line it reports. *)
Theorem clear_lines_occupied_cells (b : Board.t) :
  board_ok b →
  (occupied_cells (Board.grid (Board.clear_lines b).1)
   + 10 * Z.to_nat (Board.clear_lines b).2)%nat
  = occupied_cells (Board.grid b).
Proof.
  intros (_ & _ & _ & Hrows). rewrite clear_lines_eq. simpl.
  rewrite Nat2Z.id, occupied_cells_app, occupied_cells_empty_rows.
  rewrite (occupied_cells_split _ Hrows). lia.
Qed.

(** ** The engine invariant *)

Lemma piece_ok_new k : piece_ok (Piece.new k).
Proof. destruct k; (split; [vm_compute; split; [discriminate | reflexivity] | reflexivity]). Qed.

Lemma piece_ok_rotate p : piece_ok (Piece.rotate p).
Proof.
  unfold piece_ok, Piece.rotate, Piece.rotations. simpl. split; [|reflexivity].
  apply Z.mod_pos_bound. rewrite PIECES_length.
  destruct (Piece.type p); simpl; lia.
Qed.

Lemma new_spawn_valid k : Board.is_valid_position Board.new (Piece.new k) = Ok true.
Proof. destruct k; reflexivity. Qed.

Lemma set_current_piece_same s p :
  p = Tetris.current_piece s → Tetris.set_current_piece p s = s.
Proof. intros ->. destruct s. reflexivity. Qed.

Lemma move_left_outcome s :
  let p := Tetris.current_piece s in
  board_ok (Tetris.board s) →
  ∃ valid,
    Board.is_valid_position (Tetris.board s) (Piece.set_x (Piece.x p - 1) p)
    = Ok valid ∧
    Tetris.move_left s
    = Ok (if valid then Tetris.set_current_piece (Piece.set_x (Piece.x p - 1) p) s
          else s).
Proof.
  intros p Hb.
  destruct (is_valid_position_total (Tetris.board s)
              (Piece.set_x (Piece.x p - 1) p) Hb) as (valid & Hv).
  exists valid. split; [exact Hv|]. unfold Tetris.move_left. fold p.
  rewrite Hv. simpl. destruct valid; simpl; [reflexivity|].
  f_equal. apply set_current_piece_same. subst p.
  destruct (Tetris.current_piece s). unfold Piece.set_x. simpl. f_equal. lia.
Qed.

Lemma move_right_outcome s :
  let p := Tetris.current_piece s in
  board_ok (Tetris.board s) →
  ∃ valid,
    Board.is_valid_position (Tetris.board s) (Piece.set_x (Piece.x p + 1) p)
    = Ok valid ∧
    Tetris.move_right s
    = Ok (if valid then Tetris.set_current_piece (Piece.set_x (Piece.x p + 1) p) s
          else s).
Proof.
  intros p Hb.
  destruct (is_valid_position_total (Tetris.board s)
              (Piece.set_x (Piece.x p + 1) p) Hb) as (valid & Hv).
  exists valid. split; [exact Hv|]. unfold Tetris.move_right. fold p.
  rewrite Hv. simpl. destruct valid; simpl; [reflexivity|].
  f_equal. apply set_current_piece_same. subst p.
  destruct (Tetris.current_piece s). unfold Piece.set_x. simpl. f_equal. lia.
Qed.

Lemma kick_loop_outcome b ox oy kicks : ∀ p,
  board_ok b →
  ∃ p' kicked,
    Tetris.kick_loop b p ox oy kicks = Ok (p', kicked) ∧
    (kicked = true →
       ∃ d, d ∈ kicks ∧ p' = at_anchor (ox + d.1) (oy + d.2) p ∧
            Board.is_valid_position b p' = Ok true) ∧
    (kicked = false →
       Piece.type p' = Piece.type p ∧ Piece.rotation p' = Piece.rotation p ∧
       Piece.shape p' = Piece.shape p).
Proof.
  induction kicks as [|[dx dy] kicks IH]; intros p Hb; simpl.
  - exists p, false. split; [reflexivity|]. split; [discriminate | auto].
  - change (Piece.set_y (oy + dy) (Piece.set_x (ox + dx) p))
      with (at_anchor (ox + dx) (oy + dy) p).
    destruct (is_valid_position_total b (at_anchor (ox + dx) (oy + dy) p) Hb)
      as ([|] & Hv); rewrite Hv; simpl.
    + exists (at_anchor (ox + dx) (oy + dy) p), true.
      split; [reflexivity|]. split; [|discriminate].
      intros _. exists (dx, dy). split; [left | split; [reflexivity | exact Hv]].
    + destruct (IH (at_anchor (ox + dx) (oy + dy) p) Hb)
        as (p' & kicked & Hloop & Htrue & Hfalse).
      exists p', kicked. split; [exact Hloop|]. split.
      * intros Hk. destruct (Htrue Hk) as (d & Hd & Hp' & Hvalid).
        exists d. split; [right; exact Hd|]. split; [exact Hp' | exact Hvalid].
      * intros Hk. exact (Hfalse Hk).
Qed.

Lemma rotate_piece_outcome s :
  let p := Tetris.current_piece s in
  board_ok (Tetris.board s) →
  ∃ s', Tetris.rotate_piece s = Ok s' ∧
        (s' = s ∨
         ∃ d, d ∈ (0, 0) :: Tetris.kick_tests (Piece.type p) ∧
              s' = Tetris.set_current_piece
                     (at_anchor (Piece.x p + d.1) (Piece.y p + d.2)
                                (Piece.rotate p)) s ∧
              Board.is_valid_position (Tetris.board s) (Tetris.current_piece s')
              = Ok true).
Proof.
  intros p Hb. unfold Tetris.rotate_piece. fold p.
  destruct (is_valid_position_total (Tetris.board s) (Piece.rotate p) Hb)
    as ([|] & Hv); rewrite Hv; simpl.
  - eexists. split; [reflexivity|]. right. exists (0, 0).
    split; [left|]. simpl.
    assert (Heq : at_anchor (Piece.x p + 0) (Piece.y p + 0) (Piece.rotate p)
                  = Piece.rotate p).
    { unfold at_anchor, Piece.set_y, Piece.set_x. simpl.
      rewrite !Z.add_0_r. reflexivity. }
    rewrite Heq. split; [reflexivity | exact Hv].
  - destruct (kick_loop_outcome (Tetris.board s) (Piece.x p) (Piece.y p)
                (Tetris.kick_tests (Piece.type p)) (Piece.rotate p) Hb)
      as (p' & kicked & Hloop & Htrue & Hfalse).
    rewrite Hloop. simpl. destruct kicked.
    + eexists. split; [reflexivity|]. right.
      destruct (Htrue eq_refl) as (d & Hd & -> & Hvalid).
      exists d. split; [right; exact Hd|]. split; [reflexivity | exact Hvalid].
    + eexists. split; [reflexivity|]. left.
      destruct (Hfalse eq_refl) as (Hty & _ & _).
      apply set_current_piece_same. subst p.
      destruct (Tetris.current_piece s), p'. simpl in *. subst. reflexivity.
Qed.

Lemma lock_piece_ok s rnd :
  tetris_ok s → Tetris.game_over s = false →
  ∃ s', Tetris.lock_piece s rnd = Ok s' ∧ tetris_ok s'.
Proof.
  intros (Hb & Hp & Hn & Hv) Hplay. specialize (Hv Hplay).
  destruct (lock_piece_total _ _ Hb Hv) as (b1 & Hlock).
  pose proof (lock_piece_board_ok _ _ _ Hb Hlock) as Hb1.
  destruct (lock_piece_outcome s rnd b1 Hlock Hb1)
    as (over & s' & _ & Hs' & Hboard & _ & _ & Htrue & Hfalse).
  exists s'. split; [exact Hs'|]. unfold tetris_ok. rewrite Hboard.
  split; [exact (clear_lines_board_ok b1 Hb1)|].
  destruct over.
  - destruct (Htrue eq_refl) as (-> & -> & ->).
    split; [exact Hp|]. split; [exact Hn | discriminate].
  - destruct (Hfalse eq_refl) as (-> & -> & valid & Hvalid & ->).
    split; [exact Hn|]. split; [apply piece_ok_new|].
    destruct valid; [intros _; exact Hvalid | discriminate].
Qed.

Lemma move_down_ok s rnd :
  tetris_ok s → Tetris.game_over s = false →
  ∃ s' moved, Tetris.move_down s rnd = Ok (s', moved) ∧ tetris_ok s' ∧
              (moved = true → Tetris.game_over s' = false).
Proof.
  intros Hok Hplay. pose proof Hok as (Hb & Hp & Hn & Hv).
  set (p := Tetris.current_piece s).
  destruct (is_valid_position_total (Tetris.board s)
              (Piece.set_y (Piece.y p + 1) p) Hb) as ([|] & Hnext).
  - rewrite (move_down_free s rnd Hnext). do 2 eexists.
    split; [reflexivity|]. split; [|intros _; exact Hplay].
    split; [exact Hb|]. split; [exact Hp|]. split; [exact Hn|].
    intros _. exact Hnext.
  - rewrite (move_down_blocked s rnd Hnext).
    destruct (lock_piece_ok s rnd Hok Hplay) as (s' & -> & Hok').
    simpl. do 2 eexists. split; [reflexivity|]. split; [exact Hok' | discriminate].
Qed.

Lemma hard_drop_ok rnd calls : ∀ s r,
  tetris_ok s → Tetris.game_over s = false →
  Tetris.hard_drop calls s rnd = Some r →
  ∃ s', r = Ok s' ∧ tetris_ok s'.
Proof.
  induction calls as [|calls IH]; intros s r Hok Hplay; simpl; [discriminate|].
  destruct (move_down_ok s rnd Hok Hplay) as (s1 & moved & -> & Hok1 & Hplay1).
  destruct moved.
  - apply IH; [exact Hok1 | exact (Hplay1 eq_refl)].
  - intros [= <-]. eauto.
Qed.

Lemma reset_is_new b :
  Board.width b = BOARD_WIDTH → Board.height b = BOARD_HEIGHT →
  Board.reset b = Board.new.
Proof.
  intros Hw Hh. destruct b as [w h g]. simpl in *. subst.
  reflexivity.
Qed.

Lemma new_ok k1 k2 ticks : tetris_ok (Tetris.new k1 k2 ticks).
Proof.
  split; [exact new_board_ok|]. split; [apply piece_ok_new|].
  split; [apply piece_ok_new|]. intros _. apply new_spawn_valid.
Qed.

Lemma reset_ok s k1 k2 ticks :
  board_ok (Tetris.board s) → tetris_ok (Tetris.reset s k1 k2 ticks).
Proof.
  intros (Hw & Hh & _). unfold tetris_ok, Tetris.reset. simpl.
  rewrite (reset_is_new _ Hw Hh).
  split; [exact new_board_ok|]. split; [apply piece_ok_new|].
  split; [apply piece_ok_new|]. intros _. apply new_spawn_valid.
Qed.

Lemma update_ok s now rnd :
  tetris_ok s → ∃ s', Tetris.update s now rnd = Ok s' ∧ tetris_ok s'.
Proof.
  intros Hok. unfold Tetris.update.
  destruct (Tetris.game_over s) eqn:Hplay; [eauto|].
  destruct (now - Tetris.last_fall_time s >? Tetris.fall_speed s); [|eauto].
  destruct (move_down_ok s rnd Hok Hplay) as (s' & moved & -> & Hok' & _).
  simpl. eexists. split; [reflexivity|]. exact Hok'.
Qed.

Lemma keydown_playing_ok calls rnd rnd' ticks key t r :
  tetris_ok t →
  keydown_playing calls rnd rnd' ticks key t = Some r →
  ∃ t' screen, r = Ok (t', screen) ∧ tetris_ok t'.
Proof.
  intros Hok. pose proof Hok as (Hb & Hp & Hn & Hv).
  unfold keydown_playing.
  destruct (Tetris.game_over t) eqn:Hplay; simpl.
  - destruct key; intros [= <-]; do 2 eexists;
      (split; [reflexivity|]); try exact Hok.
    apply reset_ok. exact Hb.
  - specialize (Hv eq_refl). destruct key.
    + destruct (move_left_outcome t Hb) as (valid & Hvalid & ->). simpl.
      intros [= <-]. do 2 eexists. split; [reflexivity|].
      destruct valid; [|exact Hok].
      split; [exact Hb|]. split; [exact Hp|]. split; [exact Hn|].
      intros _. exact Hvalid.
    + destruct (move_right_outcome t Hb) as (valid & Hvalid & ->). simpl.
      intros [= <-]. do 2 eexists. split; [reflexivity|].
      destruct valid; [|exact Hok].
      split; [exact Hb|]. split; [exact Hp|]. split; [exact Hn|].
      intros _. exact Hvalid.
    + destruct (move_down_ok t rnd Hok Hplay) as (t' & moved & -> & Hok' & _).
      simpl. intros [= <-]. do 2 eexists. split; [reflexivity | exact Hok'].
    + destruct (rotate_piece_outcome t Hb) as (t' & -> & Hcase). simpl.
      intros [= <-]. do 2 eexists. split; [reflexivity|].
      destruct Hcase as [-> | (d & _ & -> & Hvalid)]; [exact Hok|].
      split; [exact Hb|]. split; [apply piece_ok_rotate|]. split; [exact Hn|].
      intros _. exact Hvalid.
    + destruct (Tetris.hard_drop calls t rnd) as [r'|] eqn:Hdrop; [|discriminate].
      destruct (hard_drop_ok rnd calls t r' Hok Hplay Hdrop) as (t' & -> & Hok').
      simpl. intros [= <-]. do 2 eexists. split; [reflexivity | exact Hok'].
    + intros [= <-]. do 2 eexists. split; [reflexivity | exact Hok].
    + intros [= <-]. do 2 eexists. split; [reflexivity | exact Hok].
    + intros [= <-]. do 2 eexists. split; [reflexivity | exact Hok].
Qed.

(** X8.  Every engine state a match goes through under [main] satisfies the
    engine invariant; from it no key press and no [update] raises, and only
    the hard drop depends on the bound put on its loop. *)
Theorem played_never_raises (t : Tetris.t) :
  played t →
  tetris_ok t ∧
  (∀ calls rnd rnd' ticks key e,
     keydown_playing calls rnd rnd' ticks key t ≠ Some (Raise e)) ∧
  (∀ calls rnd rnd' ticks key,
     key ≠ K_SPACE → keydown_playing calls rnd rnd' ticks key t ≠ None) ∧
  (∀ now rnd e, Tetris.update t now rnd ≠ Raise e).
Proof.
  intros Hplayed.
  assert (Hok : tetris_ok t).
  { induction Hplayed as [k1 k2 ticks
                         | calls rnd rnd' ticks key t t' screen _ IH Hkey
                         | now rnd t t' _ IH Hupd].
    - apply new_ok.
    - destruct (keydown_playing_ok _ _ _ _ _ _ _ IH Hkey) as (t1 & s1 & [= <- _] & Hok).
      exact Hok.
    - destruct (update_ok t now rnd IH) as (t1 & Ht1 & Hok).
      rewrite Hupd in Ht1. injection Ht1 as <-. exact Hok. }
  split; [exact Hok|]. split; [|split].
  - intros calls rnd rnd' ticks key e Hraise.
    destruct (keydown_playing_ok _ _ _ _ _ _ _ Hok Hraise) as (? & ? & [=] & _).
  - intros calls rnd rnd' ticks key Hkey. unfold keydown_playing.
    destruct (negb (Tetris.game_over t)); destruct key; simpl;
      try discriminate; congruence.
  - intros now rnd e Hraise.
    destruct (update_ok t now rnd Hok) as (t1 & Ht1 & _). congruence.
Qed.

(** ** Sideways moves undo each other *)

(** X9.  A [move_left] that moved the piece is undone by [move_right]. *)
Theorem move_left_then_right (s s1 : Tetris.t) :
  board_ok (Tetris.board s) →
  Board.is_valid_position (Tetris.board s) (Tetris.current_piece s) = Ok true →
  Tetris.move_left s = Ok s1 →
  s1 ≠ s →
  Piece.x (Tetris.current_piece s1) = Piece.x (Tetris.current_piece s) - 1 ∧
  Tetris.move_right s1 = Ok s.
Proof.
  intros Hb Hv Hleft Hmoved.
  destruct (move_left_outcome s Hb) as (valid & Hvalid & Hl).
  rewrite Hleft in Hl. injection Hl as ->.
  destruct valid; [|contradiction]. split; [reflexivity|].
  set (s1 := Tetris.set_current_piece _ s).
  destruct (move_right_outcome s1 Hb) as (valid' & Hvalid' & ->).
  assert (Hback : Piece.set_x (Piece.x (Tetris.current_piece s1) + 1)
                    (Tetris.current_piece s1) = Tetris.current_piece s).
  { subst s1. destruct (Tetris.current_piece s). unfold Piece.set_x. simpl.
    f_equal. lia. }
  rewrite Hback in *. change (Tetris.board s1) with (Tetris.board s) in Hvalid'.
  rewrite Hv in Hvalid'. injection Hvalid' as <-.
  f_equal. subst s1. destruct s. reflexivity.
Qed.

(** X10.  A [move_right] that moved the piece is undone by [move_left]. *)
Theorem move_right_then_left (s s1 : Tetris.t) :
  board_ok (Tetris.board s) →
  Board.is_valid_position (Tetris.board s) (Tetris.current_piece s) = Ok true →
  Tetris.move_right s = Ok s1 →
  s1 ≠ s →
  Piece.x (Tetris.current_piece s1) = Piece.x (Tetris.current_piece s) + 1 ∧
  Tetris.move_left s1 = Ok s.
Proof.
  intros Hb Hv Hright Hmoved.
  destruct (move_right_outcome s Hb) as (valid & Hvalid & Hr).
  rewrite Hright in Hr. injection Hr as ->.
  destruct valid; [|contradiction]. split; [reflexivity|].
  set (s1 := Tetris.set_current_piece _ s).
  destruct (move_left_outcome s1 Hb) as (valid' & Hvalid' & ->).
  assert (Hback : Piece.set_x (Piece.x (Tetris.current_piece s1) - 1)
                    (Tetris.current_piece s1) = Tetris.current_piece s).
  { subst s1. destruct (Tetris.current_piece s). unfold Piece.set_x. simpl.
    f_equal. lia. }
  rewrite Hback in *. change (Tetris.board s1) with (Tetris.board s) in Hvalid'.
  rewrite Hv in Hvalid'. injection Hvalid' as <-.
  f_equal. subst s1. destruct s. reflexivity.
Qed.

(** ** Tetris.update *)

Lemma lock_piece_clock s rnd s' :
  Tetris.lock_piece s rnd = Ok s' →
  Tetris.fall_speed s' = Tetris.fall_speed s ∧
  Tetris.last_fall_time s' = Tetris.last_fall_time s.
Proof.
  unfold Tetris.lock_piece.
  destruct (Board.lock_piece _ _) as [b1|]; simpl; [|discriminate].
  destruct (Board.clear_lines b1) as [b2 lines].
  destruct (lines >? 0); simpl;
    (destruct (Board.is_game_over b2) as [[|]|]; simpl; [| |discriminate];
     [ intros [= <-]; split; reflexivity |]);
    (destruct (Board.is_valid_position _ _) as [[|]|]; simpl; [| |discriminate]);
    intros [= <-]; split; reflexivity.
Qed.

Lemma move_down_inv s rnd s' moved :
  let p := Tetris.current_piece s in
  Tetris.move_down s rnd = Ok (s', moved) →
  (moved = true ∧
   Board.is_valid_position (Tetris.board s) (Piece.set_y (Piece.y p + 1) p)
   = Ok true ∧
   s' = Tetris.set_current_piece (Piece.set_y (Piece.y p + 1) p) s) ∨
  (moved = false ∧
   Board.is_valid_position (Tetris.board s) (Piece.set_y (Piece.y p + 1) p)
   = Ok false ∧
   Tetris.lock_piece s rnd = Ok s').
Proof.
  intros p Hmove.
  destruct (Board.is_valid_position (Tetris.board s)
              (Piece.set_y (Piece.y p + 1) p)) as [[|]|e] eqn:Hv.
  - rewrite (move_down_free s rnd Hv) in Hmove. injection Hmove as <- <-.
    left. auto.
  - rewrite (move_down_blocked s rnd Hv) in Hmove.
    destruct (Tetris.lock_piece s rnd) as [s2|]; simpl in Hmove; [|discriminate].
    injection Hmove as <- <-. right. auto.
  - unfold Tetris.move_down in Hmove. fold p in Hmove. rewrite Hv in Hmove.
    discriminate.
Qed.

Lemma move_down_clock s rnd s' moved :
  Tetris.move_down s rnd = Ok (s', moved) →
  Tetris.fall_speed s' = Tetris.fall_speed s ∧
  Tetris.last_fall_time s' = Tetris.last_fall_time s.
Proof.
  intros [(_ & _ & ->) | (_ & _ & Hlock)]%move_down_inv.
  - split; reflexivity.
  - exact (lock_piece_clock _ _ _ Hlock).
Qed.

(** X11.  [update] acts at most once per clock value: a second call at the
    same time changes nothing, and when it is due it is one [move_down]
    followed by setting the timestamp to now. *)
Theorem update_once_per_tick (s s1 : Tetris.t) (now : Z) (rnd rnd' : Kind.t) :
  0 <= Tetris.fall_speed s →
  Tetris.update s now rnd = Ok s1 →
  Tetris.update s1 now rnd' = Ok s1 ∧
  (Tetris.game_over s = false →
   now - Tetris.last_fall_time s > Tetris.fall_speed s →
   Tetris.last_fall_time s1 = now ∧
   ∃ moved, Tetris.move_down s rnd
            = Ok (Tetris.set_last_fall_time (Tetris.last_fall_time s) s1, moved)).
Proof.
  intros Hspeed. unfold Tetris.update at 1.
  destruct (Tetris.game_over s) eqn:Hover.
  { intros [= <-]. split; [|discriminate].
    unfold Tetris.update. rewrite Hover. reflexivity. }
  destruct (Z.gtb_spec (now - Tetris.last_fall_time s) (Tetris.fall_speed s))
    as [Hdue | Hnot].
  - destruct (Tetris.move_down s rnd) as [[s2 moved]|] eqn:Hmove;
      simpl; [|discriminate].
    intros [= <-]. destruct (move_down_clock _ _ _ _ Hmove) as [Hfs Hlft].
    split.
    + unfold Tetris.update. simpl.
      destruct (Tetris.game_over s2); [reflexivity|]. rewrite Hfs.
      destruct (Z.gtb_spec (now - now) (Tetris.fall_speed s)); [lia | reflexivity].
    + intros _ _. split; [reflexivity|]. exists moved. do 2 f_equal.
      rewrite <- Hlft. destruct s2. reflexivity.
  - intros [= <-]. split; [|intros; lia].
    unfold Tetris.update. rewrite Hover.
    destruct (Z.gtb_spec (now - Tetris.last_fall_time s) (Tetris.fall_speed s));
      [lia | reflexivity].
Qed.

(** ** Tetris.reset *)

(** X12.  [reset] gives the state [Tetris()] would give for the same draws
    and clock. *)
Theorem reset_is_a_new_match (s : Tetris.t) (k1 k2 : Kind.t) (ticks : Z) :
  Board.width (Tetris.board s) = BOARD_WIDTH →
  Board.height (Tetris.board s) = BOARD_HEIGHT →
  Tetris.fall_speed s = FALL_SPEED →
  Tetris.reset s k1 k2 ticks = Tetris.new k1 k2 ticks.
Proof.
  intros Hw Hh Hf. unfold Tetris.reset, Tetris.new.
  destruct s as [b cp np sc li go lf fs]. simpl in *.
  rewrite (reset_is_new b Hw Hh). subst fs. reflexivity.
Qed.

(** ** Tetris.hard_drop *)

(** X13.  [hard_drop] does not pass through blocks: the piece goes through
    valid positions only, rests where the next row down is the first invalid
    one, and is locked there. *)
Theorem hard_drop_stops_at_first_block (calls : nat) (rnd : Kind.t) :
  ∀ (s s' : Tetris.t),
  let p := Tetris.current_piece s in
  Tetris.hard_drop calls s rnd = Some (Ok s') →
  ∃ n : nat,
    (1 <= n <= calls)%nat ∧
    (∀ j, 1 <= j < Z.of_nat n →
          Board.is_valid_position (Tetris.board s) (Piece.set_y (Piece.y p + j) p)
          = Ok true) ∧
    Board.is_valid_position (Tetris.board s)
      (Piece.set_y (Piece.y p + Z.of_nat n) p) = Ok false ∧
    Tetris.lock_piece
      (Tetris.set_current_piece (Piece.set_y (Piece.y p + (Z.of_nat n - 1)) p) s)
      rnd = Ok s'.
Proof.
  induction calls as [|calls IH]; intros s s' p; simpl; [discriminate|].
  destruct (Tetris.move_down s rnd) as [[s1 moved]|] eqn:Hmove; [|discriminate].
  apply move_down_inv in Hmove as [(-> & Hv & ->) | (-> & Hv & Hlock)]; fold p in Hv.
  - intros Hdrop. destruct (IH _ _ Hdrop) as (n & Hn & Hfree & Hblock & Hlock).
    simpl in Hfree, Hblock, Hlock. fold p in Hfree, Hblock, Hlock.
    exists (S n). split; [lia|]. split; [|split].
    + intros j Hj. destruct (Z.eq_dec j 1) as [-> | Hne]; [exact Hv|].
      specialize (Hfree (j - 1)).
      replace (Piece.y p + 1 + (j - 1)) with (Piece.y p + j) in Hfree by lia.
      apply Hfree. lia.
    + replace (Piece.y p + Z.of_nat (S n)) with (Piece.y p + 1 + Z.of_nat n) by lia.
      exact Hblock.
    + replace (Piece.y p + (Z.of_nat (S n) - 1))
        with (Piece.y p + 1 + (Z.of_nat n - 1)) by lia.
      exact Hlock.
  - intros [= <-]. exists 1%nat. split; [lia|]. split; [intros j Hj; lia|].
    split; [exact Hv|].
    replace (Tetris.set_current_piece _ s) with s; [exact Hlock|].
    symmetry. apply set_current_piece_same. subst p.
    destruct (Tetris.current_piece s). unfold Piece.set_y. simpl. f_equal. lia.
Qed.

(** ** Tetris.rotate_piece *)

Lemma kick_offsets d k :
  d ∈ (0, 0) :: Tetris.kick_tests k →
  -3 <= d.1 <= 3 ∧ -1 <= d.2 <= 0 ∧ (k ≠ Kind.I → -2 <= d.1 <= 2).
Proof.
  intros Hd. destruct k; simpl in Hd;
    repeat (apply elem_of_cons in Hd as [-> | Hd];
            [simpl; repeat split; (lia || congruence)|]);
    inversion Hd.
Qed.

(** X14.  [rotate_piece] changes nothing but the active piece, keeps its
    type, moves the anchor by at most 3 columns (2 for types other than I)
    and at most one row up, never down, and leaves it in a valid position
    unless it restores the piece. *)
Theorem rotate_piece_displacement (s : Tetris.t) :
  let p := Tetris.current_piece s in
  board_ok (Tetris.board s) →
  ∃ s',
    Tetris.rotate_piece s = Ok s' ∧
    Tetris.set_current_piece p s' = s ∧
    Piece.type (Tetris.current_piece s') = Piece.type p ∧
    -3 <= Piece.x (Tetris.current_piece s') - Piece.x p <= 3 ∧
    (Piece.type p ≠ Kind.I →
     -2 <= Piece.x (Tetris.current_piece s') - Piece.x p <= 2) ∧
    Piece.y p - 1 <= Piece.y (Tetris.current_piece s') <= Piece.y p ∧
    (Tetris.current_piece s' = p ∨
     Board.is_valid_position (Tetris.board s) (Tetris.current_piece s') = Ok true).
Proof.
  intros p Hb.
  destruct (rotate_piece_outcome s Hb) as (s' & Hrot & Hcase). fold p in Hcase.
  exists s'. split; [exact Hrot|].
  destruct Hcase as [-> | (d & Hd & -> & Hvalid)].
  - fold p. split; [apply set_current_piece_same; reflexivity|].
    split; [reflexivity|]. repeat split; try lia. left. reflexivity.
  - destruct (kick_offsets d _ Hd) as (Hx & Hy & HnotI). simpl.
    split; [destruct s; reflexivity|]. split; [reflexivity|].
    repeat split; try lia.
    + specialize (HnotI H). lia.
    + specialize (HnotI H). lia.
    + right. exact Hvalid.
Qed.

(** ** At most four lines per lock *)

Lemma filter_length_le {A} (f : A → bool) (l : list A) :
  (length (List.filter f l) <= length l)%nat.
Proof.
  induction l as [|a l IH]; simpl; [lia|]. destruct (f a); simpl; lia.
Qed.

Lemma filter_window {A} (f : A → bool) (l : list A) (lo : nat) :
  (∀ i a, l !! i = Some a → f a = true → (lo <= i < lo + 4)%nat) →
  (length (List.filter f l) <= 4)%nat.
Proof.
  intros Hwin.
  rewrite <- (take_drop lo l), List.filter_app, length_app.
  rewrite <- (take_drop 4 (drop lo l)), List.filter_app, length_app.
  rewrite (filter_none f (take lo l)), (filter_none f (drop 4 (drop lo l))).
  - pose proof (filter_length_le f (take 4 (drop lo l))) as Hle.
    rewrite length_take in Hle. simpl. lia.
  - apply Forall_lookup. intros i a Hi.
    rewrite !lookup_drop in Hi.
    destruct (f a) eqn:Hf; [|reflexivity].
    specialize (Hwin _ _ Hi Hf). lia.
  - apply Forall_lookup. intros i a Hi.
    destruct (f a) eqn:Hf; [|reflexivity].
    pose proof (lookup_lt_Some _ _ _ Hi) as Hlt. rewrite length_take in Hlt.
    rewrite lookup_take_lt in Hi by lia.
    specialize (Hwin _ _ Hi Hf). lia.
Qed.

Lemma piece_rows p cx cy :
  piece_ok p → occupies p cx cy → Piece.y p <= cy <= Piece.y p + 3.
Proof.
  intros Hp Hocc. apply elem_of_get_positions in Hocc.
  apply (piece_cells_box p cx cy Hp Hocc).
Qed.

(** Rows the piece does not reach are left as they are by the lock. *)
Lemma lock_piece_other_rows b p b' (i : nat) row' :
  board_ok b → piece_ok p →
  Board.is_valid_position b p = Ok true →
  Board.lock_piece b p = Ok b' →
  Board.grid b' !! i = Some row' →
  ¬ (Piece.y p <= Z.of_nat i <= Piece.y p + 3) →
  Board.grid b !! i = Some row'.
Proof.
  intros Hb Hp Hv Hlock Hrow' Hout.
  pose proof (fun cx cy => lock_piece_written b p b' cx cy Hb Hv Hlock) as Hcells.
  pose proof (lock_piece_board_ok _ _ _ Hb Hlock) as Hb'.
  pose proof (lookup_lt_Some _ _ _ Hrow') as Hi.
  destruct Hb' as (_ & _ & Hg'). destruct Hb as (_ & _ & Hg).
  rewrite (proj1 Hg') in Hi.
  destruct (lookup_lt_is_Some_2 (Board.grid b) i) as [row Hrow].
  { rewrite (proj1 Hg). exact Hi. }
  rewrite Hrow. f_equal. apply list_eq. intros j.
  destruct (decide (j < 10)%nat) as [Hj | Hj].
  - destruct (Hcells (Z.of_nat j) (Z.of_nat i)) as [_ Hsame]; [lia | lia |].
    unfold cell_at in Hsame. rewrite !Nat2Z.id, Hrow, Hrow' in Hsame.
    symmetry. apply Hsame. intros Hocc. apply Hout.
    exact (piece_rows p _ _ Hp Hocc).
  - rewrite !lookup_ge_None_2; [reflexivity | |].
    + rewrite (grid_ok_row _ _ _ Hg' Hrow'). lia.
    + rewrite (grid_ok_row _ _ _ Hg Hrow). lia.
Qed.

Lemma lock_piece_completes_at_most_four b p b' :
  board_ok b → rows_incomplete b → piece_ok p →
  Board.is_valid_position b p = Ok true →
  Board.lock_piece b p = Ok b' →
  (length (List.filter complete (Board.grid b')) <= 4)%nat.
Proof.
  intros Hb Hinc Hp Hv Hlock.
  apply (filter_window complete _ (Z.to_nat (Piece.y p))).
  intros i row' Hrow' Hc.
  destruct (decide (Piece.y p <= Z.of_nat i <= Piece.y p + 3)) as [Hin | Hout];
    [lia|].
  exfalso.
  pose proof (lock_piece_other_rows b p b' i row' Hb Hp Hv Hlock Hrow' Hout)
    as Hrow.
  unfold rows_incomplete in Hinc. rewrite Forall_lookup in Hinc.
  specialize (Hinc _ _ Hrow). unfold incomplete in Hinc.
  rewrite Hc in Hinc. discriminate.
Qed.

Lemma lock_piece_lines s rnd :
  board_ok (Tetris.board s) → rows_incomplete (Tetris.board s) →
  piece_ok (Tetris.current_piece s) →
  Board.is_valid_position (Tetris.board s) (Tetris.current_piece s) = Ok true →
  ∃ s' n,
    Tetris.lock_piece s rnd = Ok s' ∧
    0 <= n <= 4 ∧
    Tetris.lines_cleared s' = Tetris.lines_cleared s + n ∧
    Tetris.score s' = Tetris.score s + 100 * n * n ∧
    rows_incomplete (Tetris.board s').
Proof.
  intros Hb Hinc Hp Hv.
  destruct (lock_piece_total _ _ Hb Hv) as (b1 & Hlock).
  pose proof (lock_piece_board_ok _ _ _ Hb Hlock) as Hb1.
  pose proof (lock_piece_completes_at_most_four _ _ _ Hb Hinc Hp Hv Hlock) as Hfour.
  destruct (lock_piece_outcome s rnd b1 Hlock Hb1)
    as (over & s' & _ & Hs' & Hboard & Hscore & Hlines & _).
  exists s', (Board.clear_lines b1).2. split; [exact Hs'|].
  rewrite Hscore, Hlines, Hboard.
  assert (Hn : (Board.clear_lines b1).2
               = Z.of_nat (length (List.filter complete (Board.grid b1)))).
  { rewrite clear_lines_eq. reflexivity. }
  split; [lia|].
  destruct (Z.gtb_spec (Board.clear_lines b1).2 0).
  - split; [reflexivity|]. split; [lia|].
    apply clear_lines_rows_incomplete. apply Hb1.
  - split; [lia|]. split; [lia|].
    apply clear_lines_rows_incomplete. apply Hb1.
Qed.

Lemma scored_refl s : scored s s.
Proof. exists 0. split; [lia|]. split; lia. Qed.

Lemma scored_set_current_piece p s : scored s (Tetris.set_current_piece p s).
Proof. exists 0. simpl. split; [lia|]. split; lia. Qed.

Lemma new_rows_incomplete : rows_incomplete Board.new.
Proof. apply Forall_replicate. reflexivity. Qed.

Lemma move_down_lines s rnd s' moved :
  tetris_ok s → rows_incomplete (Tetris.board s) →
  Tetris.game_over s = false →
  Tetris.move_down s rnd = Ok (s', moved) →
  rows_incomplete (Tetris.board s') ∧ scored s s'.
Proof.
  intros (Hb & Hp & _ & Hv) Hinc Hplay Hmove. specialize (Hv Hplay).
  apply move_down_inv in Hmove as [(_ & _ & ->) | (_ & _ & Hlock)].
  - split; [exact Hinc | apply scored_set_current_piece].
  - destruct (lock_piece_lines s rnd Hb Hinc Hp Hv)
      as (s2 & n & Hs2 & Hn & Hlines & Hscore & Hinc').
    rewrite Hlock in Hs2. injection Hs2 as <-.
    split; [exact Hinc'|]. exists n. auto.
Qed.

Lemma hard_drop_lines rnd calls : ∀ s s',
  tetris_ok s → rows_incomplete (Tetris.board s) →
  Tetris.game_over s = false →
  Tetris.hard_drop calls s rnd = Some (Ok s') →
  rows_incomplete (Tetris.board s') ∧ scored s s'.
Proof.
  induction calls as [|calls IH]; intros s s' Hok Hinc Hplay; simpl;
    [discriminate|].
  destruct (Tetris.move_down s rnd) as [[s1 moved]|] eqn:Hmove; [|discriminate].
  destruct moved.
  - intros Hdrop.
    pose proof Hmove as [(_ & Hv & ->) | (? & _)]%move_down_inv; [|discriminate].
    destruct Hok as (Hb & Hp & Hn & _).
    destruct (IH (Tetris.set_current_piece
                    (Piece.set_y (Piece.y (Tetris.current_piece s) + 1)
                                 (Tetris.current_piece s)) s) s')
      as [Hinc' (n & Hn' & Hl & Hs)];
      [ | exact Hinc | exact Hplay | exact Hdrop | ].
    + split; [exact Hb|]. split; [exact Hp|]. split; [exact Hn|].
      intros _. exact Hv.
    + split; [exact Hinc'|]. exists n. simpl in Hl, Hs. auto.
  - intros [= <-]. exact (move_down_lines s rnd s1 false Hok Hinc Hplay Hmove).
Qed.

Lemma keydown_playing_lines calls rnd rnd' ticks key t t' screen :
  tetris_ok t → rows_incomplete (Tetris.board t) →
  keydown_playing calls rnd rnd' ticks key t = Some (Ok (t', screen)) →
  rows_incomplete (Tetris.board t') ∧
  (Tetris.game_over t = false ∨ key ≠ K_r → scored t t').
Proof.
  intros Hok Hinc. pose proof Hok as (Hb & Hp & Hn & Hv).
  unfold keydown_playing.
  destruct (Tetris.game_over t) eqn:Hplay; simpl.
  - destruct key; intros [= <- _];
      try (split; [exact Hinc | intros _; apply scored_refl]).
    split; [|intros [? | ?]; congruence].
    unfold Tetris.reset. simpl.
    rewrite (reset_is_new _ (proj1 Hb) (proj1 (proj2 Hb))).
    exact new_rows_incomplete.
  - destruct key.
    + destruct (move_left_outcome t Hb) as (valid & _ & ->). simpl.
      intros [= <- _]. destruct valid;
        (split; [exact Hinc | intros _]);
        [apply scored_set_current_piece | apply scored_refl].
    + destruct (move_right_outcome t Hb) as (valid & _ & ->). simpl.
      intros [= <- _]. destruct valid;
        (split; [exact Hinc | intros _]);
        [apply scored_set_current_piece | apply scored_refl].
    + destruct (Tetris.move_down t rnd) as [[t1 moved]|] eqn:Hmove;
        simpl; [|discriminate].
      intros [= <- _].
      destruct (move_down_lines t rnd t1 moved Hok Hinc Hplay Hmove). auto.
    + destruct (rotate_piece_outcome t Hb) as (t1 & -> & Hcase). simpl.
      intros [= <- _]. destruct Hcase as [-> | (d & _ & -> & _)];
        (split; [exact Hinc | intros _]);
        [apply scored_refl | apply scored_set_current_piece].
    + destruct (Tetris.hard_drop calls t rnd) as [[t1|]|] eqn:Hdrop;
        simpl; try discriminate.
      intros [= <- _].
      destruct (hard_drop_lines rnd calls t t1 Hok Hinc Hplay Hdrop). auto.
    + intros [= <- _]. split; [exact Hinc | intros _; apply scored_refl].
    + intros [= <- _]. split; [exact Hinc | intros _; apply scored_refl].
    + intros [= <- _]. split; [exact Hinc | intros _; apply scored_refl].
Qed.

Lemma update_lines t now rnd t' :
  tetris_ok t → rows_incomplete (Tetris.board t) →
  Tetris.update t now rnd = Ok t' →
  rows_incomplete (Tetris.board t') ∧ scored t t'.
Proof.
  intros Hok Hinc. unfold Tetris.update.
  destruct (Tetris.game_over t) eqn:Hplay.
  { intros [= <-]. split; [exact Hinc | apply scored_refl]. }
  destruct (now - Tetris.last_fall_time t >? Tetris.fall_speed t).
  - destruct (Tetris.move_down t rnd) as [[t1 moved]|] eqn:Hmove;
      simpl; [|discriminate].
    intros [= <-].
    destruct (move_down_lines t rnd t1 moved Hok Hinc Hplay Hmove)
      as [Hinc' (n & Hn & Hl & Hs)].
    split; [exact Hinc'|]. exists n. simpl. auto.
  - intros [= <-]. split; [exact Hinc | apply scored_refl].
Qed.

Lemma played_ok t : played t → tetris_ok t ∧ rows_incomplete (Tetris.board t).
Proof.
  induction 1 as [k1 k2 ticks
                 | calls rnd rnd' ticks key t t' screen _ [IHok IHinc] Hkey
                 | now rnd t t' _ [IHok IHinc] Hupd].
  - split; [apply new_ok | exact new_rows_incomplete].
  - split.
    + destruct (keydown_playing_ok _ _ _ _ _ _ _ IHok Hkey)
        as (t1 & s1 & [= <- _] & Hok). exact Hok.
    + apply (keydown_playing_lines _ _ _ _ _ _ _ _ IHok IHinc Hkey).
  - split.
    + destruct (update_ok t now rnd IHok) as (t1 & Ht1 & Hok).
      rewrite Hupd in Ht1. injection Ht1 as <-. exact Hok.
    + apply (update_lines _ _ _ _ IHok IHinc Hupd).
Qed.

(** X15.  In a match, any key press other than a reset, and any [update],
    clears between 0 and 4 lines and adds 100 times the square of that
    number to the score. *)
Theorem played_scoring_steps (t : Tetris.t) :
  played t →
  (∀ calls rnd rnd' ticks key t' screen,
     keydown_playing calls rnd rnd' ticks key t = Some (Ok (t', screen)) →
     Tetris.game_over t = false ∨ key ≠ K_r →
     scored t t') ∧
  (∀ now rnd t', Tetris.update t now rnd = Ok t' → scored t t').
Proof.
  intros [Hok Hinc]%played_ok. split.
  - intros calls rnd rnd' ticks key t' screen Hkey Hcond.
    exact (proj2 (keydown_playing_lines _ _ _ _ _ _ _ _ Hok Hinc Hkey) Hcond).
  - intros now rnd t' Hupd. apply (update_lines _ _ _ _ Hok Hinc Hupd).
Qed.

(** X16.  In a match the line counter is never negative, the score is a
    multiple of 100, and it lies between 100 and 400 times the lines. *)
Theorem played_score_bounds (t : Tetris.t) :
  played t →
  0 <= Tetris.lines_cleared t ∧
  100 * Tetris.lines_cleared t <= Tetris.score t <= 400 * Tetris.lines_cleared t ∧
  (100 | Tetris.score t).
Proof.
  induction 1 as [k1 k2 ticks
                 | calls rnd rnd' ticks key t t' screen Hpl IH Hkey
                 | now rnd t t' Hpl IH Hupd].
  - simpl. repeat split; try lia. exists 0. reflexivity.
  - destruct (played_ok t Hpl) as [Hok Hinc].
    assert (Hdec : key = K_r ∨ key ≠ K_r)
      by (destruct key; (left; reflexivity) || (right; discriminate)).
    destruct (Tetris.game_over t) eqn:Hover; [destruct Hdec as [-> | Hkr]|].
    + unfold keydown_playing in Hkey. rewrite Hover in Hkey. simpl in Hkey.
      injection Hkey as <- _. simpl. repeat split; try lia. exists 0. reflexivity.
    + destruct (proj2 (keydown_playing_lines _ _ _ _ _ _ _ _ Hok Hinc Hkey))
        as (n & Hn & -> & ->); [right; exact Hkr|].
      destruct IH as (Hl & Hs & (q & Hq)). repeat split; try nia.
      exists (q + n * n). lia.
    + destruct (proj2 (keydown_playing_lines _ _ _ _ _ _ _ _ Hok Hinc Hkey))
        as (n & Hn & -> & ->); [left; exact Hover|].
      destruct IH as (Hl & Hs & (q & Hq)). repeat split; try nia.
      exists (q + n * n). lia.
  - destruct (played_ok t Hpl) as [Hok Hinc].
    destruct (proj2 (update_lines _ _ _ _ Hok Hinc Hupd)) as (n & Hn & -> & ->).
    destruct IH as (Hl & Hs & (q & Hq)). repeat split; try nia.
    exists (q + n * n). lia.
Qed.

(** ** How far a rotation can lift the piece *)

Lemma kick_loop_prefix b ox oy kicks : ∀ p p',
  Tetris.kick_loop b p ox oy kicks = Ok (p', true) →
  ∃ pre d post,
    kicks = pre ++ d :: post ∧
    (∀ d', d' ∈ pre →
           Board.is_valid_position b (at_anchor (ox + d'.1) (oy + d'.2) p)
           = Ok false) ∧
    p' = at_anchor (ox + d.1) (oy + d.2) p.
Proof.
  induction kicks as [|[dx dy] kicks IH]; intros p p'; simpl; [discriminate|].
  change (Piece.set_y (oy + dy) (Piece.set_x (ox + dx) p))
    with (at_anchor (ox + dx) (oy + dy) p).
  destruct (Board.is_valid_position b (at_anchor (ox + dx) (oy + dy) p))
    as [[|]|] eqn:Hv; simpl; [| |discriminate].
  - intros [= <-]. exists [], (dx, dy), kicks.
    split; [reflexivity|]. split; [|reflexivity]. intros d' Hd'. inversion Hd'.
  - intros Hloop. destruct (IH _ _ Hloop) as (pre & d & post & -> & Hpre & ->).
    exists ((dx, dy) :: pre), d, post. split; [reflexivity|]. split; [|reflexivity].
    intros d' [-> | Hd']%elem_of_cons; [exact Hv|].
    rewrite <- (at_anchor_twice _ _ (ox + dx) (oy + dy)). apply Hpre, Hd'.
Qed.

Lemma sideways_before_up k pre d post dx :
  Tetris.kick_tests k = pre ++ d :: post → d.2 ≠ 0 →
  dx ∈ sideways k → dx = 0 ∨ (dx, 0) ∈ pre.
Proof.
  intros Hlist Hd Hdx. unfold sideways in Hdx.
  apply elem_of_cons in Hdx as [-> | Hdx]; [left; reflexivity|]. right.
  destruct k; simpl in Hlist, Hdx;
    repeat (destruct pre as [|? pre];
            [ injection Hlist as <-; intros; subst; simpl in Hd; try lia;
              repeat (apply elem_of_cons in Hdx as [-> | Hdx];
                      [repeat constructor|]);
              inversion Hdx
            | injection Hlist as <- Hlist ]);
    destruct pre; discriminate.
Qed.

Lemma rotate_piece_lift s s' :
  let p := Tetris.current_piece s in
  Tetris.rotate_piece s = Ok s' →
  Piece.y (Tetris.current_piece s') = Piece.y p ∨
  (Piece.y (Tetris.current_piece s') = Piece.y p - 1 ∧
   ∀ dx, dx ∈ sideways (Piece.type p) →
         Board.is_valid_position (Tetris.board s)
           (at_anchor (Piece.x p + dx) (Piece.y p) (Piece.rotate p)) = Ok false).
Proof.
  intros p. unfold Tetris.rotate_piece. fold p.
  destruct (Board.is_valid_position (Tetris.board s) (Piece.rotate p))
    as [[|]|] eqn:Hplace; simpl; [| |discriminate].
  { intros [= <-]. left. reflexivity. }
  destruct (Tetris.kick_loop _ _ _ _ _) as [[p' [|]]|] eqn:Hloop;
    simpl; [| |discriminate].
  - intros [= <-]. simpl.
    apply kick_loop_prefix in Hloop as (pre & [dx dy] & post & Hlist & Hpre & ->).
    simpl. destruct (Z.eq_dec dy 0) as [-> | Hdy]; [left; lia|]. right.
    assert (Hup : dy = -1).
    { assert (Hin : (dx, dy) ∈ Tetris.kick_tests (Piece.type p))
        by (rewrite Hlist; apply elem_of_app; right; left).
      destruct (Piece.type p); simpl in Hin;
        repeat (apply elem_of_cons in Hin as [[= -> ->] | Hin]; [lia|]);
        inversion Hin. }
    split; [lia|]. intros dx' Hdx'.
    destruct (sideways_before_up _ _ _ _ dx' Hlist Hdy Hdx') as [-> | Hin].
    + replace (at_anchor (Piece.x p + 0) (Piece.y p) (Piece.rotate p))
        with (Piece.rotate p); [exact Hplace|].
      unfold at_anchor, Piece.set_y, Piece.set_x. simpl.
      rewrite Z.add_0_r. reflexivity.
    + specialize (Hpre _ Hin). simpl in Hpre.
      rewrite Z.add_0_r in Hpre. exact Hpre.
  - intros [= <-]. left. reflexivity.
Qed.

Lemma get_positions_moved p cx cy :
  Piece.get_positions (at_anchor cx cy p)
  = map (shift (cx - Piece.x p) (cy - Piece.y p)) (Piece.get_positions p).
Proof.
  replace cx with (Piece.x p + (cx - Piece.x p)) at 1 by lia.
  replace cy with (Piece.y p + (cy - Piece.y p)) at 1 by lia.
  unfold Piece.get_positions. rewrite <- flat_map_map_out.
  apply flat_map_ext. intros [row_idx row]. apply row_positions_shift.
Qed.

Lemma columns_fit_any_row p cx cy cy' :
  columns_fit (at_anchor cx cy p) = columns_fit (at_anchor cx cy' p).
Proof.
  unfold columns_fit. rewrite !get_positions_moved.
  induction (Piece.get_positions p) as [|c l IH]; [reflexivity|]. simpl.
  rewrite IH. reflexivity.
Qed.

Lemma columns_fit_spec p :
  columns_fit p = true ↔ ∀ cx cy, occupies p cx cy → 0 <= cx <= 9.
Proof.
  unfold columns_fit. rewrite forallb_forall. split.
  - intros Hall cx cy Hocc. apply elem_of_get_positions, list_elem_of_In in Hocc.
    specialize (Hall _ Hocc). simpl in Hall. lia.
  - intros Hall [cx cy] Hin. apply list_elem_of_In, elem_of_get_positions in Hin.
    specialize (Hall _ _ Hin). simpl. lia.
Qed.

Lemma sideways_fit_all k r x :
  0 <= r < Z.of_nat (length (PIECES k)) → -3 <= x <= 9 →
  sideways_fit k r x = true.
Proof.
  intros Hr Hx. rewrite PIECES_length in Hr.
  assert (Hrc : r = 0 ∨ r = 1 ∨ r = 2 ∨ r = 3) by (destruct k; simpl in Hr; lia).
  assert (Hxc : x = -3 ∨ x = -2 ∨ x = -1 ∨ x = 0 ∨ x = 1 ∨ x = 2 ∨ x = 3 ∨
                x = 4 ∨ x = 5 ∨ x = 6 ∨ x = 7 ∨ x = 8 ∨ x = 9) by lia.
  destruct k; simpl in Hr;
    destruct Hrc as [-> | [-> | [-> | ->]]]; try lia;
    decompose [or] Hxc; subst x; vm_compute; reflexivity.
Qed.

Lemma rotate_fits_sideways p :
  piece_ok p → columns_fit p = true →
  ∃ dx, dx ∈ sideways (Piece.type p) ∧
        columns_fit (at_anchor (Piece.x p + dx) (Piece.y p) (Piece.rotate p))
        = true.
Proof.
  intros Hp Hfit.
  assert (Hx : -3 <= Piece.x p <= 9).
  { destruct (piece_ok_occupies p Hp) as (cx & Hocc).
    pose proof (proj1 (columns_fit_spec p) Hfit _ _ Hocc).
    apply elem_of_get_positions in Hocc.
    pose proof (piece_cells_box p _ _ Hp Hocc). lia. }
  pose proof (sideways_fit_all (Piece.type p) (Piece.rotation p) (Piece.x p)
                (proj1 Hp) Hx) as Hcheck.
  unfold sideways_fit in Hcheck.
  set (p0 := {| Piece.type := Piece.type p; Piece.rotation := Piece.rotation p;
                Piece.shape := nth (Z.to_nat (Piece.rotation p))
                                   (PIECES (Piece.type p)) [];
                Piece.x := Piece.x p; Piece.y := 0 |}) in *.
  assert (Hp0 : p0 = at_anchor (Piece.x p) 0 p).
  { destruct Hp as [_ Hs]. subst p0. unfold Piece.rotations in Hs.
    rewrite <- Hs. reflexivity. }
  assert (Hfit0 : columns_fit p0 = true).
  { rewrite Hp0, (columns_fit_any_row p _ 0 (Piece.y p)).
    replace (at_anchor (Piece.x p) (Piece.y p) p) with p; [exact Hfit|].
    destruct p. reflexivity. }
  rewrite Hfit0 in Hcheck. cbn [implb] in Hcheck.
  apply existsb_exists in Hcheck as (dx & Hdx & Hfits).
  exists dx. split; [apply list_elem_of_In; exact Hdx|].
  rewrite Hp0 in Hfits.
  rewrite (columns_fit_any_row _ _ (Piece.y p) 0). exact Hfits.
Qed.

Lemma valid_above_top_row b r :
  board_ok b →
  (∀ cx, 0 <= cx < 10 → cell_at (Board.grid b) cx 0 = Some None) →
  columns_fit r = true →
  (∀ cx cy, occupies r cx cy → cy <= 0) →
  Board.is_valid_position b r = Ok true.
Proof.
  intros Hb Htop Hfit Hrows.
  destruct (valid_positions_spec b (Piece.get_positions r) Hb) as (v & Hv & Hiff).
  unfold Board.is_valid_position. rewrite Hv. f_equal.
  destruct v; [reflexivity|]. exfalso.
  destruct Hiff as [Hex _]. specialize (Hex eq_refl).
  apply Exists_exists in Hex as ([cx cy] & Hin & Hoff).
  apply elem_of_get_positions in Hin. simpl in Hoff.
  pose proof (proj1 (columns_fit_spec r) Hfit _ _ Hin) as Hcx.
  pose proof (Hrows _ _ Hin) as Hcy.
  destruct Hoff as [? | [? | [? | [Hcy0 Htaken]]]]; try lia.
  assert (cy = 0) by lia. subst cy.
  apply cell_at_taken in Htaken as (k & Hk).
  rewrite Htop in Hk by lia. discriminate.
Qed.

Lemma rotate_piece_keeps_above s s' :
  let p := Tetris.current_piece s in
  board_ok (Tetris.board s) → piece_ok p →
  Board.is_valid_position (Tetris.board s) p = Ok true →
  (∀ cx, 0 <= cx < 10 →
         cell_at (Board.grid (Tetris.board s)) cx 0 = Some None) →
  Tetris.rotate_piece s = Ok s' →
  -3 <= Piece.y p → -3 <= Piece.y (Tetris.current_piece s').
Proof.
  intros p Hb Hp Hv Htop Hrot Hy.
  destruct (rotate_piece_lift s s' Hrot) as [-> | [-> Hside]]; fold p; [exact Hy|].
  fold p in Hside.
  destruct (Z.eq_dec (Piece.y p) (-3)) as [Hlow | ?]; [|lia]. exfalso.
  assert (Hfit : columns_fit p = true).
  { apply columns_fit_spec. intros cx cy Hocc.
    pose proof (valid_positions_in_range _ _ Hb Hv) as Hfree.
    rewrite Forall_forall in Hfree.
    apply elem_of_get_positions in Hocc. specialize (Hfree _ Hocc).
    unfold offending in Hfree. simpl in Hfree. lia. }
  destruct (rotate_fits_sideways p Hp Hfit) as (dx & Hdx & Hfits).
  specialize (Hside dx Hdx).
  rewrite (valid_above_top_row _ _ Hb Htop Hfits) in Hside; [discriminate|].
  intros cx cy Hocc. apply elem_of_get_positions in Hocc.
  assert (Hq : piece_ok (at_anchor (Piece.x p + dx) (Piece.y p) (Piece.rotate p)))
    by apply (piece_ok_rotate p).
  pose proof (piece_cells_box _ _ _ Hq Hocc) as Hbox. simpl in Hbox. lia.
Qed.

(** ** Invariants of a match, generically *)

Lemma rotate_piece_only_piece s s' :
  board_ok (Tetris.board s) → Tetris.rotate_piece s = Ok s' →
  ∃ q, s' = Tetris.set_current_piece q s.
Proof.
  intros Hb Hrot. destruct (rotate_piece_outcome s Hb) as (s1 & Hs1 & Hcase).
  rewrite Hrot in Hs1. injection Hs1 as <-.
  destruct Hcase as [-> | (d & _ & -> & _)]; [|eauto].
  exists (Tetris.current_piece s). symmetry.
  apply set_current_piece_same. reflexivity.
Qed.

Section EngineInvariant.

Variable Inv : Tetris.t → Prop.

Hypothesis Inv_new : ∀ k1 k2 ticks, Inv (Tetris.new k1 k2 ticks).
Hypothesis Inv_sideways : ∀ v s,
  Inv s → Inv (Tetris.set_current_piece (Piece.set_x v (Tetris.current_piece s)) s).
Hypothesis Inv_down : ∀ s,
  Inv s →
  Inv (Tetris.set_current_piece
         (Piece.set_y (Piece.y (Tetris.current_piece s) + 1)
                      (Tetris.current_piece s)) s).
Hypothesis Inv_rotate : ∀ s s',
  tetris_ok s → Tetris.game_over s = false → Inv s →
  Tetris.rotate_piece s = Ok s' → Inv s'.
Hypothesis Inv_clock : ∀ v s, Inv s → Inv (Tetris.set_last_fall_time v s).
Hypothesis Inv_lock : ∀ s rnd s',
  tetris_ok s → Tetris.game_over s = false → Inv s →
  Tetris.lock_piece s rnd = Ok s' → Inv s'.
Hypothesis Inv_reset : ∀ s k1 k2 ticks,
  tetris_ok s → Inv s → Inv (Tetris.reset s k1 k2 ticks).

Lemma move_down_keeps s rnd s' moved :
  tetris_ok s → Tetris.game_over s = false → Inv s →
  Tetris.move_down s rnd = Ok (s', moved) → Inv s'.
Proof.
  intros Hok Hplay Hinv [(_ & _ & ->) | (_ & _ & Hlock)]%move_down_inv.
  - apply Inv_down, Hinv.
  - exact (Inv_lock s rnd s' Hok Hplay Hinv Hlock).
Qed.

Lemma hard_drop_keeps rnd calls : ∀ s s',
  tetris_ok s → Tetris.game_over s = false → Inv s →
  Tetris.hard_drop calls s rnd = Some (Ok s') → Inv s'.
Proof.
  induction calls as [|calls IH]; intros s s' Hok Hplay Hinv; simpl;
    [discriminate|].
  destruct (move_down_ok s rnd Hok Hplay) as (s1 & moved & Hmove & Hok1 & Hplay1).
  rewrite Hmove. pose proof (move_down_keeps _ _ _ _ Hok Hplay Hinv Hmove) as Hinv1.
  destruct moved.
  - apply IH; [exact Hok1 | exact (Hplay1 eq_refl) | exact Hinv1].
  - intros [= <-]. exact Hinv1.
Qed.

Lemma keydown_playing_keeps calls rnd rnd' ticks key t t' screen :
  tetris_ok t → Inv t →
  keydown_playing calls rnd rnd' ticks key t = Some (Ok (t', screen)) →
  Inv t'.
Proof.
  intros Hok Hinv. pose proof Hok as (Hb & _).
  unfold keydown_playing.
  destruct (Tetris.game_over t) eqn:Hplay; simpl.
  - destruct key; intros [= <- _]; try exact Hinv.
    apply Inv_reset; assumption.
  - destruct key.
    + destruct (move_left_outcome t Hb) as (valid & _ & ->). simpl.
      intros [= <- _]. destruct valid; [apply Inv_sideways|]; exact Hinv.
    + destruct (move_right_outcome t Hb) as (valid & _ & ->). simpl.
      intros [= <- _]. destruct valid; [apply Inv_sideways|]; exact Hinv.
    + destruct (Tetris.move_down t rnd) as [[t1 moved]|] eqn:Hmove;
        simpl; [|discriminate].
      intros [= <- _]. exact (move_down_keeps _ _ _ _ Hok Hplay Hinv Hmove).
    + destruct (Tetris.rotate_piece t) as [t1|] eqn:Hrot; simpl; [|discriminate].
      intros [= <- _]. exact (Inv_rotate _ _ Hok Hplay Hinv Hrot).
    + destruct (Tetris.hard_drop calls t rnd) as [[t1|]|] eqn:Hdrop;
        simpl; try discriminate.
      intros [= <- _]. exact (hard_drop_keeps _ _ _ _ Hok Hplay Hinv Hdrop).
    + intros [= <- _]. exact Hinv.
    + intros [= <- _]. exact Hinv.
    + intros [= <- _]. exact Hinv.
Qed.

Lemma update_keeps t now rnd t' :
  tetris_ok t → Inv t → Tetris.update t now rnd = Ok t' → Inv t'.
Proof.
  intros Hok Hinv. unfold Tetris.update.
  destruct (Tetris.game_over t) eqn:Hplay; [intros [= <-]; exact Hinv|].
  destruct (now - Tetris.last_fall_time t >? Tetris.fall_speed t);
    [|intros [= <-]; exact Hinv].
  destruct (Tetris.move_down t rnd) as [[t1 moved]|] eqn:Hmove;
    simpl; [|discriminate].
  intros [= <-]. apply Inv_clock.
  exact (move_down_keeps _ _ _ _ Hok Hplay Hinv Hmove).
Qed.

Lemma played_keeps t : played t → Inv t.
Proof.
  induction 1 as [k1 k2 ticks
                 | calls rnd rnd' ticks key t t' screen Hpl IH Hkey
                 | now rnd t t' Hpl IH Hupd].
  - apply Inv_new.
  - exact (keydown_playing_keeps _ _ _ _ _ _ _ _ (proj1 (played_ok t Hpl)) IH Hkey).
  - exact (update_keeps _ _ _ _ (proj1 (played_ok t Hpl)) IH Hupd).
Qed.

End EngineInvariant.

Lemma top_row_cells b :
  board_ok b → Board.is_game_over b = Ok false →
  ∀ cx, 0 <= cx < 10 → cell_at (Board.grid b) cx 0 = Some None.
Proof.
  intros Hb Htop cx Hcx.
  destruct (is_game_over_spec _ Hb) as (over & Hover & Hiff).
  rewrite Htop in Hover. injection Hover as <-.
  destruct (cell_at_in_range _ cx 0 (proj2 (proj2 Hb)) Hcx) as ([k|] & Hc);
    [lia | | exact Hc].
  assert (false = true); [|discriminate].
  apply Hiff. exists cx. split; [exact Hcx|]. apply cell_at_taken. eauto.
Qed.

(** While the match is on the top row is empty and the anchor is not above
    row -3; the preview piece sits at the spawn row. *)
Lemma played_top_and_anchor t :
  played t →
  -3 <= Piece.y (Tetris.next_piece t) ∧
  (Tetris.game_over t = false →
   Board.is_game_over (Tetris.board t) = Ok false ∧
   -3 <= Piece.y (Tetris.current_piece t)).
Proof.
  apply (played_keeps
           (fun s => -3 <= Piece.y (Tetris.next_piece s) ∧
                     (Tetris.game_over s = false →
                      Board.is_game_over (Tetris.board s) = Ok false ∧
                      -3 <= Piece.y (Tetris.current_piece s)))).
  - intros k1 k2 ticks. simpl. split; [lia|]. intros _. split; [reflexivity | lia].
  - intros v s Hs. exact Hs.
  - intros s [Hn Hs]. split; [exact Hn|]. intros Hplay.
    destruct (Hs Hplay) as [Htop Hy]. split; [exact Htop | simpl; lia].
  - intros s s' (Hb & Hp & _ & Hv) Hplay [Hn Hs] Hrot.
    destruct (rotate_piece_only_piece s s' Hb Hrot) as (q & Hq).
    destruct (Hs Hplay) as [Htop Hy].
    pose proof (rotate_piece_keeps_above s s' Hb Hp (Hv Hplay)
                  (top_row_cells _ Hb Htop) Hrot Hy) as Hy'.
    subst s'. simpl in *. split; [exact Hn|]. intros _. split; [exact Htop | exact Hy'].
  - intros v s Hs. exact Hs.
  - intros s rnd s' (Hb & _ & _ & Hv) Hplay [Hn _] Hlock.
    specialize (Hv Hplay).
    destruct (lock_piece_total _ _ Hb Hv) as (b1 & Hb1).
    destruct (lock_piece_outcome s rnd b1 Hb1 (lock_piece_board_ok _ _ _ Hb Hb1))
      as (over & s2 & Hover & Hs2 & Hboard & _ & _ & Htrue & Hfalse).
    rewrite Hlock in Hs2. injection Hs2 as <-. rewrite Hboard.
    destruct over.
    + destruct (Htrue eq_refl) as (_ & -> & Hgo). split; [exact Hn|]. congruence.
    + destruct (Hfalse eq_refl) as (-> & -> & _). split; [simpl; lia|].
      intros _. split; [exact Hover | exact Hn].
  - intros s k1 k2 ticks (Hb & _) _. unfold Tetris.reset. simpl.
    rewrite (reset_is_new _ (proj1 Hb) (proj1 (proj2 Hb))).
    split; [lia|]. intros _. split; [reflexivity | lia].
Qed.

(** ** While the match is on, the top row is empty *)

(** X18.  While a match is on, the top row of the board is empty. *)
Theorem played_top_row_empty (t : Tetris.t) :
  played t →
  Tetris.game_over t = false →
  Board.is_game_over (Tetris.board t) = Ok false ∧
  ∀ cx, 0 <= cx < 10 → cell_at (Board.grid (Tetris.board t)) cx 0 = Some None.
Proof.
  intros Hpl Hplay.
  destruct (played_top_and_anchor t Hpl) as [_ Hinv].
  destruct (Hinv Hplay) as [Htop _]. split; [exact Htop|].
  apply top_row_cells; [|exact Htop]. apply (played_ok t Hpl).
Qed.

(** ** The anchor never rises above row -3 *)

(** X19.  While a match is on, the anchor row of the active piece is between
    -3 and 19, so a hard drop ends within 23 calls of [move_down]. *)
Theorem played_anchor_row (t : Tetris.t) (rnd : Kind.t) :
  played t →
  Tetris.game_over t = false →
  -3 <= Piece.y (Tetris.current_piece t) <= 19 ∧
  ∃ t', Tetris.hard_drop 23 t rnd = Some (Ok t').
Proof.
  intros Hpl Hplay.
  destruct (played_top_and_anchor t Hpl) as [_ Hinv].
  destruct (Hinv Hplay) as [_ Hy].
  destruct (played_ok t Hpl) as [(Hb & Hp & _ & Hv) _]. specialize (Hv Hplay).
  pose proof (valid_anchor_row _ _ Hb Hp Hv) as Hy'.
  split; [lia|].
  destruct (drop_run_exists rnd (Z.to_nat (19 - Piece.y (Tetris.current_piece t)))
              t Hb Hp Hv) as (k & t' & Hrun & Hk & _); [lia|].
  exists t'. apply (hard_drop_of_run _ _ _ _ Hrun). lia.
Qed.

(** ** The preview piece is always fresh, the clock setting never changes *)

(** X20.  In a match the fall interval stays 500, the preview piece is always
    a fresh piece at the spawn position, and [reset] is a new match. *)
Theorem played_constants (t : Tetris.t) :
  played t →
  Tetris.fall_speed t = FALL_SPEED ∧
  (∃ k, Tetris.next_piece t = Piece.new k) ∧
  ∀ k1 k2 ticks, Tetris.reset t k1 k2 ticks = Tetris.new k1 k2 ticks.
Proof.
  intros Hpl.
  assert (Hc : Tetris.fall_speed t = FALL_SPEED ∧
               ∃ k, Tetris.next_piece t = Piece.new k).
  { apply (played_keeps
             (fun s => Tetris.fall_speed s = FALL_SPEED ∧
                       ∃ k, Tetris.next_piece s = Piece.new k));
      [ | | | | | | | exact Hpl].
    - intros k1 k2 ticks. split; [reflexivity | eauto].
    - intros v s Hs. exact Hs.
    - intros s Hs. exact Hs.
    - intros s s' (Hb & _) _ Hs Hrot.
      destruct (rotate_piece_only_piece s s' Hb Hrot) as (q & ->). exact Hs.
    - intros v s Hs. exact Hs.
    - intros s rnd s' (Hb & _ & _ & Hv) Hplay [Hfs (k & Hk)] Hlock.
      split; [rewrite (proj1 (lock_piece_clock _ _ _ Hlock)); exact Hfs|].
      specialize (Hv Hplay).
      destruct (lock_piece_total _ _ Hb Hv) as (b1 & Hb1).
      destruct (lock_piece_outcome s rnd b1 Hb1 (lock_piece_board_ok _ _ _ Hb Hb1))
        as (over & s2 & _ & Hs2 & _ & _ & _ & Htrue & Hfalse).
      rewrite Hlock in Hs2. injection Hs2 as <-.
      destruct over.
      + destruct (Htrue eq_refl) as (_ & -> & _). eauto.
      + destruct (Hfalse eq_refl) as (_ & -> & _). eauto.
    - intros s k1 k2 ticks _ [Hfs _]. split; [exact Hfs | simpl; eauto]. }
  destruct Hc as [Hfs Hnext]. split; [exact Hfs|]. split; [exact Hnext|].
  intros k1 k2 ticks. destruct (played_ok t Hpl) as [(Hb & _) _].
  unfold Tetris.reset, Tetris.new. destruct t as [b cp np sc li go lf fs].
  simpl in *. rewrite (reset_is_new b (proj1 Hb) (proj1 (proj2 Hb))).
  subst fs. reflexivity.
Qed.

(** ** The hard drop in a match *)

(** A piece gets above the board through the kicks [(0, -1)], [(1, -1)] and
    [(-1, -1)] of [rotate_piece] only, which are tried after every sideways
    kick has failed.  On an empty top row that needs a rotated piece that
    reaches below row 0, and tells where the stack is: this bounds the fall
    of a piece that starts above the board. *)


Lemma PIECES_three_rows k :
  k ≠ Kind.I → Forall (fun sh : list (list Z) => (length sh <= 3)%nat) (PIECES k).
Proof. destruct k; intros Hk; try congruence; repeat constructor. Qed.



(** The cells of a piece other than I span at most three rows. *)
Lemma other_piece_rows p cx cy :
  piece_ok p → Piece.type p ≠ Kind.I → occupies p cx cy → cy <= Piece.y p + 2.
Proof.
  intros Hp Hk (r & c & row & cell & Hrow & _ & _ & _ & ->).
  pose proof (piece_ok_shape p Hp) as Hin.
  pose proof (PIECES_three_rows _ Hk) as Hall.
  rewrite Forall_forall in Hall. specialize (Hall _ Hin).
  apply lookup_lt_Some in Hrow. lia.
Qed.


(** The two rotation states of the I piece, cell by cell. *)
Lemma I_piece_cells p :
  piece_ok p → Piece.type p = Kind.I →
  (Piece.rotation p = 0 ∧ Piece.shape p = [[1; 1; 1; 1]] ∧
   ∀ cx cy, occupies p cx cy ↔ cy = Piece.y p ∧ Piece.x p <= cx <= Piece.x p + 3) ∨
  (Piece.rotation p = 1 ∧ Piece.shape p ≠ [[1; 1; 1; 1]] ∧
   ∀ cx cy, occupies p cx cy ↔ cx = Piece.x p ∧ Piece.y p <= cy <= Piece.y p + 3).
Proof.
  intros [Hr Hs] Hk. destruct p as [k r sh px py].
  unfold Piece.rotations in *. simpl in *. subst k sh. simpl in Hr.
  assert (Hc : r = 0 ∨ r = 1) by lia.
  destruct Hc as [-> | ->]; [left | right];
    (split; [reflexivity|]); (split; [simpl; congruence|]);
    intros cx cy; rewrite <- elem_of_get_positions;
    unfold Piece.get_positions; simpl;
    rewrite ?elem_of_cons, elem_of_nil.
  - split.
    + intros Hin. decompose [or] Hin;
        try match goal with
            | H : (_, _) = (_, _) |- _ => injection H; intros; subst; lia
            end; contradiction.
    + intros [-> Hcx].
      assert (Hc : cx = px + 0 ∨ cx = px + 1 ∨ cx = px + 2 ∨ cx = px + 3) by lia.
      decompose [or] Hc; subst cx; rewrite ?Z.add_0_r; auto 10.
  - split.
    + intros Hin. decompose [or] Hin;
        try match goal with
            | H : (_, _) = (_, _) |- _ => injection H; intros; subst; lia
            end; contradiction.
    + intros [-> Hcy].
      assert (Hc : cy = py + 0 ∨ cy = py + 1 ∨ cy = py + 2 ∨ cy = py + 3) by lia.
      decompose [or] Hc; subst cy; rewrite ?Z.add_0_r; auto 10.
Qed.

Lemma I_rotation_flips p :
  piece_ok p → Piece.type p = Kind.I →
  Piece.rotation (Piece.rotate p) = 1 - Piece.rotation p.
Proof.
  intros [Hr _] Hk. unfold Piece.rotate, Piece.rotations in *. simpl.
  rewrite Hk in *. simpl in *.
  assert (Hc : Piece.rotation p = 0 ∨ Piece.rotation p = 1) by lia.
  destruct Hc as [-> | ->]; reflexivity.
Qed.

Lemma flat_I_cells p :
  piece_ok p → Piece.type p = Kind.I → Piece.rotation p = 0 →
  ∀ cx cy, occupies p cx cy ↔ cy = Piece.y p ∧ Piece.x p <= cx <= Piece.x p + 3.
Proof.
  intros Hp Hk Hr.
  destruct (I_piece_cells p Hp Hk) as [(_ & _ & Hc) | (Hr' & _)];
    [exact Hc | lia].
Qed.

Lemma upright_I_cells p :
  piece_ok p → Piece.type p = Kind.I → Piece.rotation p = 1 →
  ∀ cx cy, occupies p cx cy ↔ cx = Piece.x p ∧ Piece.y p <= cy <= Piece.y p + 3.
Proof.
  intros Hp Hk Hr.
  destruct (I_piece_cells p Hp Hk) as [(Hr' & _) | (_ & _ & Hc)];
    [lia | exact Hc].
Qed.

Lemma valid_cell_free b p cx cy :
  board_ok b → Board.is_valid_position b p = Ok true →
  occupies p cx cy → ¬ offending b cx cy.
Proof.
  intros Hb Hv Hocc Hoff.
  destruct (is_valid_position_cases b p Hb) as (v & Hv' & Hiff).
  rewrite Hv in Hv'. injection Hv' as <-.
  assert (true = false); [|discriminate]. apply Hiff. eauto.
Qed.

Lemma invalid_cell b p :
  board_ok b → Board.is_valid_position b p = Ok false →
  ∃ cx cy, occupies p cx cy ∧ offending b cx cy.
Proof.
  intros Hb Hv.
  destruct (is_valid_position_cases b p Hb) as (v & Hv' & Hiff).
  rewrite Hv in Hv'. injection Hv' as <-. apply Hiff. reflexivity.
Qed.

Lemma valid_columns_fit b p :
  board_ok b → Board.is_valid_position b p = Ok true → columns_fit p = true.
Proof.
  intros Hb Hv. apply columns_fit_spec. intros cx cy Hocc.
  pose proof (valid_cell_free _ _ _ _ Hb Hv Hocc) as Hfree.
  unfold offending in Hfree. lia.
Qed.

(** A rotation whose result lies in the rows above row 1 does not lift the
    piece: on an empty top row one of the sideways offsets is accepted. *)
Lemma rotate_piece_no_lift s s' :
  let p := Tetris.current_piece s in
  board_ok (Tetris.board s) → piece_ok p →
  Board.is_valid_position (Tetris.board s) p = Ok true →
  Board.is_game_over (Tetris.board s) = Ok false →
  Tetris.rotate_piece s = Ok s' →
  (∀ cx cy, occupies (Piece.rotate p) cx cy → cy <= 0) →
  Piece.y (Tetris.current_piece s') = Piece.y p.
Proof.
  intros p Hb Hp Hv Htop Hrot Hrows.
  destruct (rotate_piece_lift s s' Hrot) as [Heq | [_ Hside]]; [exact Heq|].
  fold p in Hside. exfalso.
  destruct (rotate_fits_sideways p Hp (valid_columns_fit _ _ Hb Hv))
    as (dx & Hdx & Hfits).
  specialize (Hside dx Hdx).
  rewrite (valid_above_top_row _ _ Hb (top_row_cells _ Hb Htop) Hfits) in Hside;
    [discriminate|].
  intros cx cy (r & c & row & cell & Hrow & Hcell & Hset & _ & ->).
  simpl. apply (Hrows (Piece.x p + Z.of_nat c)).
  exists r, c, row, cell. repeat split; assumption.
Qed.

(** A piece other than I is never lifted above row -2. *)
Lemma rotate_piece_lift_other s s' :
  let p := Tetris.current_piece s in
  board_ok (Tetris.board s) → piece_ok p → Piece.type p ≠ Kind.I →
  Board.is_valid_position (Tetris.board s) p = Ok true →
  Board.is_game_over (Tetris.board s) = Ok false →
  Tetris.rotate_piece s = Ok s' →
  -2 <= Piece.y p → -2 <= Piece.y (Tetris.current_piece s').
Proof.
  intros p Hb Hp Hk Hv Htop Hrot Hy.
  destruct (rotate_piece_lift s s' Hrot) as [-> | [Hlift _]]; [exact Hy|].
  fold p in Hlift.
  destruct (Z.eq_dec (Piece.y p) (-2)) as [Hlow | ?]; [|lia].
  rewrite (rotate_piece_no_lift s s' Hb Hp Hv Htop Hrot); [exact Hy|].
  intros cx cy Hocc.
  assert (Hk' : Piece.type (Piece.rotate p) ≠ Kind.I)
    by (rewrite rotate_type; exact Hk).
  pose proof (other_piece_rows _ _ _ (piece_ok_rotate p) Hk' Hocc) as Hrow.
  rewrite (proj2 (rotate_anchor p)) in Hrow. fold p. lia.
Qed.

(** What the board looks like where a rotation lifted an I piece. *)
Lemma rotate_piece_lift_I s s' :
  let p := Tetris.current_piece s in
  board_ok (Tetris.board s) → piece_ok p → Piece.type p = Kind.I →
  Board.is_valid_position (Tetris.board s) p = Ok true →
  Board.is_game_over (Tetris.board s) = Ok false →
  Tetris.rotate_piece s = Ok s' →
  Piece.y p <= 0 →
  Piece.y (Tetris.current_piece s') ≠ Piece.y p →
  kicked_up_from (Tetris.board s) (Piece.y p).
Proof.
  intros p Hb Hp Hk Hv Htop Hrot Hy Hne.
  pose proof (piece_ok_rotate p) as Hq.
  assert (Hkq : Piece.type (Piece.rotate p) = Kind.I)
    by (rewrite rotate_type; exact Hk).
  pose proof (I_rotation_flips p Hp Hk) as Hflip.
  destruct (rotate_anchor p) as [Hqx Hqy].
  destruct (I_piece_cells p Hp Hk) as [(Hr0 & _ & Hcells) | (Hr1 & _ & _)].
  2: { (* an upright piece turns flat, and is not lifted *)
       exfalso. apply Hne.
       apply (rotate_piece_no_lift s s' Hb Hp Hv Htop Hrot).
       intros cx cy Hocc.
       apply (flat_I_cells _ Hq Hkq) in Hocc; [|lia]. lia. }
  destruct (rotate_piece_lift s s' Hrot) as [Heq | [Hlift Hside]];
    [contradiction|]. fold p in Hlift, Hside.
  assert (Hup : ∀ ax ay cx cy,
             occupies (at_anchor ax ay (Piece.rotate p)) cx cy ↔
             cx = ax ∧ ay <= cy <= ay + 3).
  { intros ax ay. apply (upright_I_cells (at_anchor ax ay (Piece.rotate p)));
      [exact Hq | exact Hkq |].
    change (Piece.rotation (Piece.rotate p) = 1). lia. }
  (* the anchor column before the rotation *)
  assert (Hx : 0 <= Piece.x p <= 6).
  { pose proof (valid_cell_free _ _ (Piece.x p) (Piece.y p) Hb Hv) as Hl.
    pose proof (valid_cell_free _ _ (Piece.x p + 3) (Piece.y p) Hb Hv) as Hr.
    rewrite Hcells in Hl, Hr. unfold offending in Hl, Hr. lia. }
  (* where the piece went *)
  destruct (rotate_piece_outcome s Hb) as (s1 & Hs1 & Hcase).
  rewrite Hrot in Hs1. injection Hs1 as <-.
  destruct Hcase as [-> | ([dx dy] & Hd & -> & Hvalid)]; [contradiction|].
  simpl in Hlift, Hvalid. fold p in Hd, Hvalid, Hlift.
  assert (Hdy : dy = -1) by lia. subst dy.
  assert (Hdx : -1 <= dx <= 1).
  { rewrite Hk in Hd. simpl in Hd.
    repeat (apply elem_of_cons in Hd as [Heq | Hd]; [inversion Heq; lia|]).
    inversion Hd. }
  exists (Piece.x p), (Piece.x p + dx).
  assert (Hland : 0 <= Piece.x p + dx <= 9).
  { pose proof (valid_cell_free _ _ (Piece.x p + dx) (Piece.y p + -1) Hb Hvalid)
      as Hfree.
    rewrite Hup in Hfree. unfold offending in Hfree. lia. }
  split; [exact Hx|]. split; [lia|]. split; [exact Hland|]. split.
  - intros c Hc Hrange.
    assert (Hin : c - Piece.x p ∈ sideways (Piece.type p)).
    { rewrite Hk.
      assert (Hcases : c - Piece.x p = 0 ∨ c - Piece.x p = 1 ∨
                       c - Piece.x p = -1 ∨ c - Piece.x p = 2 ∨
                       c - Piece.x p = -2 ∨ c - Piece.x p = 3 ∨
                       c - Piece.x p = -3) by lia.
      decompose [or] Hcases;
        match goal with H : c - Piece.x p = _ |- _ => rewrite H end;
        repeat constructor. }
    destruct (invalid_cell _ _ Hb (Hside _ Hin)) as (cx & cy & Hocc & Hoff).
    apply Hup in Hocc as [-> Hcy].
    exists cy. unfold offending in Hoff.
    destruct Hoff as [? | [? | [? | [? Htaken]]]]; try lia.
    split; [lia|].
    replace (Piece.x p + (c - Piece.x p)) with c in Htaken by lia. exact Htaken.
  - intros (cy & Hcy & Htaken).
    apply (valid_cell_free _ _ (Piece.x p + dx) cy Hb Hvalid).
    + apply Hup. lia.
    + right. right. right. split; [lia | exact Htaken].
Qed.


Lemma new_board_not_taken cx cy : ¬ taken Board.new cx cy.
Proof.
  intros (row & k & Hrow & Hcell).
  apply list_elem_of_lookup_2 in Hrow.
  assert (Hrows : Forall (fun r : list (option Kind.t) => r = replicate 10 None)
                         (Board.grid Board.new)) by repeat constructor.
  rewrite Forall_forall in Hrows. rewrite (Hrows _ Hrow) in Hcell.
  apply lookup_replicate in Hcell as [? _]. discriminate.
Qed.

(** In a match a piece gets above the board by rotations only. *)
Lemma played_lifted_ok t : played t → lifted_ok t.
Proof.
  apply (played_keeps lifted_ok); unfold lifted_ok.
  - intros k1 k2 ticks. simpl. split; [reflexivity|]. intros _.
    split; [reflexivity|]. repeat split; intros; lia.
  - intros v s Hs. exact Hs.
  - intros s [Hn Hs]. split; [exact Hn|]. intros Hplay.
    destruct (Hs Hplay) as (Htop & Hother & Hone & Htwo). simpl in *.
    split; [exact Htop|]. split; [|split].
    + intros Hk. specialize (Hother Hk). lia.
    + intros Hk Hy. apply (Hone Hk). lia.
    + intros Hk Hy. apply (Htwo Hk). lia.
  - intros s s' (Hb & Hp & _ & Hv) Hplay [Hn Hs] Hrot.
    specialize (Hv Hplay). destruct (Hs Hplay) as (Htop & Hother & Hone & Htwo).
    pose proof (rotate_piece_lift_other s s' Hb Hp) as Hkeep.
    pose proof (rotate_piece_lift_I s s' Hb Hp) as Hlift.
    pose proof (rotate_piece_lift s s' Hrot) as Hstep.
    assert (Hk' : Piece.type (Tetris.current_piece s')
                  = Piece.type (Tetris.current_piece s)).
    { destruct (rotate_piece_outcome s Hb) as (s1 & Hs1 & Hcase).
      rewrite Hrot in Hs1. injection Hs1 as <-.
      destruct Hcase as [-> | (d & _ & -> & _)]; [reflexivity|].
      simpl. apply rotate_type. }
    destruct (rotate_piece_only_piece s s' Hb Hrot) as (q & Hq).
    subst s'. simpl in *. split; [exact Hn|]. intros _.
    split; [exact Htop|]. rewrite Hk'. split; [|split].
    + intros Hk. apply (Hkeep Hk Hv Htop Hrot). apply Hother, Hk.
    + intros Hk Hy.
      destruct (Z.le_gt_cases (Piece.y (Tetris.current_piece s)) (-1))
        as [Hlow | Hhigh]; [exact (Hone Hk Hlow)|].
      assert (Hat : Piece.y (Tetris.current_piece s) = 0)
        by (destruct Hstep as [? | [? _]]; lia).
      rewrite <- Hat. apply (Hlift Hk Hv Htop Hrot); lia.
    + intros Hk Hy.
      destruct (Z.le_gt_cases (Piece.y (Tetris.current_piece s)) (-2))
        as [Hlow | Hhigh]; [exact (Htwo Hk Hlow)|].
      assert (Hat : Piece.y (Tetris.current_piece s) = -1)
        by (destruct Hstep as [? | [? _]]; lia).
      rewrite <- Hat. apply (Hlift Hk Hv Htop Hrot); lia.
  - intros v s Hs. exact Hs.
  - intros s rnd s' (Hb & _ & _ & Hv) Hplay [Hn _] Hlock.
    specialize (Hv Hplay).
    destruct (lock_piece_total _ _ Hb Hv) as (b1 & Hb1).
    destruct (lock_piece_outcome s rnd b1 Hb1 (lock_piece_board_ok _ _ _ Hb Hb1))
      as (over & s2 & Hover & Hs2 & Hboard & _ & _ & Htrue & Hfalse).
    rewrite Hlock in Hs2. injection Hs2 as <-. rewrite Hboard.
    destruct over.
    + destruct (Htrue eq_refl) as (_ & -> & Hgo). split; [exact Hn|]. congruence.
    + destruct (Hfalse eq_refl) as (-> & -> & _). split; [reflexivity|].
      intros _. split; [exact Hover|]. rewrite Hn. repeat split; intros; lia.
  - intros s k1 k2 ticks (Hb & _) _. unfold Tetris.reset. simpl.
    rewrite (reset_is_new _ (proj1 Hb) (proj1 (proj2 Hb))).
    split; [reflexivity|]. intros _. split; [reflexivity|].
    repeat split; intros; lia.
Qed.



(** The state [high_I] is not one of a match. *)
Lemma high_I_not_played : ¬ played high_I.
Proof.
  intros Hpl. destruct (played_lifted_ok _ Hpl) as [_ Hl].
  destruct (Hl eq_refl) as (_ & _ & Hone & _).
  destruct (Hone eq_refl) as (x & cx & Hx & _ & _ & Hwin & _); [simpl; lia|].
  destruct (Hwin x) as (cy & _ & Htaken); [lia | lia |].
  exact (new_board_not_taken _ _ Htaken).
Qed.


(** ** A locked piece blocks its cells *)

(** X21.  Once a piece is locked, no piece of any shape is valid in a
    position that shares a board cell with it. *)
Theorem lock_piece_blocks (b b' : Board.t) (p q : Piece.t) (cx cy : Z) :
  board_ok b →
  Board.is_valid_position b p = Ok true →
  Board.lock_piece b p = Ok b' →
  occupies p cx cy → occupies q cx cy → 0 <= cy →
  Board.is_valid_position b' q = Ok false.
Proof.
  intros Hb Hv Hlock Hp Hq Hcy.
  pose proof (lock_piece_board_ok _ _ _ Hb Hlock) as Hb'.
  destruct (valid_positions_spec b' (Piece.get_positions q) Hb')
    as (v & Hval & Hiff).
  unfold Board.is_valid_position. rewrite Hval. f_equal. apply Hiff.
  apply Exists_exists. exists (cx, cy).
  split; [apply elem_of_get_positions; exact Hq|]. simpl.
  pose proof (valid_positions_in_range b _ Hb Hv) as Hfree.
  rewrite Forall_forall in Hfree.
  pose proof (Hfree (cx, cy) (proj2 (elem_of_get_positions p cx cy) Hp)) as Hn.
  unfold offending in Hn. simpl in Hn.
  right. right. right. split; [lia|]. apply cell_at_taken.
  exists (Piece.type p).
  unfold Board.lock_piece in Hlock.
  apply bind_Ok in Hlock as (g' & Hlock & [= <-]). simpl.
  apply (lock_positions_cells _ _ _ _ (proj2 (proj2 Hb)) Hlock cx cy); [lia | lia |].
  apply Exists_exists. exists (cx, cy).
  split; [apply elem_of_get_positions; exact Hp|]. simpl.
  unfold wrap_column. destruct (Z.ltb_spec cx 0); [lia | auto].
Qed.

(** ** clear_lines with nothing to clear *)

(** X22.  If [clear_lines] returns 0 it leaves the board as it is, whatever
    the grid; on a board of positive width the converse holds: a call that
    leaves the board as it is returns 0. *)
Theorem clear_lines_nothing_to_clear (b : Board.t) :
  ((Board.clear_lines b).2 = 0 → Board.clear_lines b = (b, 0)) ∧
  (0 < Board.width b →
   (Board.clear_lines b).1 = b → (Board.clear_lines b).2 = 0).
Proof.
  rewrite clear_lines_eq. simpl. split.
  - intros Hzero.
    assert (Hnone : List.filter complete (Board.grid b) = []).
    { destruct (List.filter complete (Board.grid b)); [reflexivity|].
      simpl in Hzero. lia. }
    rewrite Hnone. simpl. f_equal.
    rewrite (filter_all incomplete).
    + destruct b. reflexivity.
    + apply Forall_forall. intros row Hin. unfold incomplete.
      destruct (complete row) eqn:Hc; [|reflexivity]. exfalso.
      assert (Hin' : In row (List.filter complete (Board.grid b))).
      { apply filter_In. split; [apply list_elem_of_In; exact Hin | exact Hc]. }
      rewrite Hnone in Hin'. exact Hin'.
  - intros Hw Hsame. apply (f_equal Board.grid) in Hsame. simpl in Hsame.
    assert (Hrows : Forall (fun row => incomplete row = true) (Board.grid b)).
    { rewrite <- Hsame. apply Forall_app. split.
      - apply Forall_replicate. unfold Board.empty_row.
        destruct (Z.to_nat (Board.width b)) eqn:Hn; [lia | reflexivity].
      - apply Forall_forall. intros row Hin.
        apply list_elem_of_In, filter_In in Hin. tauto. }
    rewrite (filter_none complete); [reflexivity|].
    eapply Forall_impl; [exact Hrows|]. intros row Hrow.
    unfold incomplete in Hrow. destruct (complete row); [discriminate | reflexivity].
Qed.

(** The converse needs the width: on a board without columns the one row is
    complete; it is replaced by an equal row, and the call returns 1. *)
Lemma clear_lines_no_columns : Board.clear_lines no_columns = (no_columns, 1).
Proof. reflexivity. Qed.

(** ** main *)

Lemma on_event_inv calls rnd rnd' ticks event app :
  (state app = STATE_PLAYING → ∃ t, tetris app = Some t) →
  (∀ t, tetris app = Some t → played t) →
  ∃ r, on_event calls rnd rnd' ticks event app = r ∧
       (∀ e, r ≠ Some (Crash e)) ∧
       (∀ app', r = Some (Done app') →
                (state app' = STATE_PLAYING → ∃ t, tetris app' = Some t) ∧
                (∀ t, tetris app' = Some t → played t)).
Proof.
  intros Hsome Hplayed. eexists. split; [reflexivity|].
  destruct app as [st te ru]. simpl in *.
  destruct event as [|key|]; simpl.
  - split; [discriminate|]. intros app' [= <-]. simpl. auto.
  - destruct st; simpl.
    + destruct key; simpl; (split; [discriminate|]); intros app' [= <-]; simpl.
      * split; [eauto|]. intros t [= <-]. constructor.
      * split; [discriminate | exact Hplayed].
      * split; [exact Hsome | exact Hplayed].
      * split; [exact Hsome | exact Hplayed].
    + destruct (Hsome eq_refl) as (t & ->).
      pose proof (Hplayed t eq_refl) as Hpl.
      destruct (keydown_playing calls rnd rnd' ticks (game_key key) t)
        as [[[t' screen]|e]|] eqn:Hkey.
      * split; [discriminate|]. intros app' [= <-]. simpl.
        split; [eauto|]. intros t1 [= <-].
        exact (played_key _ _ _ _ _ _ _ _ Hpl Hkey).
      * exfalso. destruct (played_ok t Hpl) as [Hok _].
        destruct (keydown_playing_ok _ _ _ _ _ _ _ Hok Hkey) as (? & ? & [=] & _).
      * split; discriminate.
    + destruct key as [| | |[]]; simpl; (split; [discriminate|]);
        intros app' [= <-]; simpl;
        first [ split; [discriminate | exact Hplayed]
              | split; [exact Hsome | exact Hplayed] ].
  - split; [discriminate|]. intros app' [= <-]. simpl. auto.
Qed.

Lemma on_frame_inv now rnd app :
  (state app = STATE_PLAYING → ∃ t, tetris app = Some t) →
  (∀ t, tetris app = Some t → played t) →
  ∃ app', on_frame now rnd app = Done app' ∧
          (state app' = STATE_PLAYING → ∃ t, tetris app' = Some t) ∧
          (∀ t, tetris app' = Some t → played t).
Proof.
  intros Hsome Hplayed. destruct app as [st te ru]. simpl in *.
  unfold on_frame. simpl. destruct st; simpl.
  - destruct te; eexists; (split; [reflexivity|]); simpl; auto.
  - destruct (Hsome eq_refl) as (t & ->).
    pose proof (Hplayed t eq_refl) as Hpl.
    destruct (played_ok t Hpl) as [Hok _].
    destruct (update_ok t now rnd Hok) as (t' & Hupd & _). rewrite Hupd.
    eexists. split; [reflexivity|]. simpl. split; [eauto|].
    intros t1 [= <-]. exact (played_update _ _ _ _ Hpl Hupd).
  - destruct te; eexists; (split; [reflexivity|]); simpl; auto.
Qed.

Lemma app_reachable_inv app :
  app_reachable app →
  (state app = STATE_PLAYING → ∃ t, tetris app = Some t) ∧
  (∀ t, tetris app = Some t → played t).
Proof.
  induction 1 as [| calls rnd rnd' ticks event app app' _ [IH1 IH2] Hev
                  | now rnd app app' _ [IH1 IH2] Hfr].
  - split; [discriminate | intros t; discriminate].
  - destruct (on_event_inv calls rnd rnd' ticks event app IH1 IH2)
      as (r & Hr & _ & Hdone).
    apply Hdone. rewrite <- Hr. exact Hev.
  - destruct (on_frame_inv now rnd app IH1 IH2) as (app1 & Happ1 & Hinv).
    rewrite Hfr in Happ1. injection Happ1 as <-. exact Hinv.
Qed.

(** X17.  In every state the event loop of [main] reaches, the playing screen
    has an engine that satisfies the invariant, and neither an event nor the
    end of a frame raises an exception. *)
Theorem main_never_crashes (app : App) :
  app_reachable app →
  (state app = STATE_PLAYING → ∃ t, tetris app = Some t ∧ tetris_ok t) ∧
  (∀ calls rnd rnd' ticks event e,
     on_event calls rnd rnd' ticks event app ≠ Some (Crash e)) ∧
  (∀ now rnd e, on_frame now rnd app ≠ Crash e).
Proof.
  intros [Hsome Hplayed]%app_reachable_inv. split; [|split].
  - intros Hst. destruct (Hsome Hst) as (t & Ht). exists t.
    split; [exact Ht|]. apply played_ok, Hplayed, Ht.
  - intros calls rnd rnd' ticks event e.
    destruct (on_event_inv calls rnd rnd' ticks event app Hsome Hplayed)
      as (r & <- & Hno & _). apply Hno.
  - intros now rnd e.
    destruct (on_frame_inv now rnd app Hsome Hplayed) as (app' & -> & _).
    discriminate.
Qed.

(** ** Counting cells across a lock *)

Lemma row_count_insert (row : list (option Kind.t)) (j : nat) k :
  row !! j = Some None →
  length (List.filter Board.is_not_None (<[j := Some k]> row))
  = S (length (List.filter Board.is_not_None row)).
Proof.
  revert j. induction row as [|c row IH]; intros [|j] Hj; try discriminate;
    simpl in *.
  - injection Hj as ->. reflexivity.
  - destruct (Board.is_not_None c); simpl; rewrite (IH j Hj); reflexivity.
Qed.

Lemma occupied_cells_insert (g : list (list (option Kind.t))) (i j : nat) row k :
  g !! i = Some row → row !! j = Some None →
  occupied_cells (<[i := <[j := Some k]> row]> g) = S (occupied_cells g).
Proof.
  revert i. induction g as [|r g IH]; intros [|i] Hi Hj; try discriminate;
    simpl in *.
  - injection Hi as ->. rewrite !occupied_cells_cons, (row_count_insert _ _ _ Hj).
    reflexivity.
  - rewrite !occupied_cells_cons, (IH i Hi Hj). lia.
Qed.

Lemma lock_positions_count ps : ∀ g k g',
  grid_ok g → NoDup ps →
  Forall (fun c : Z * Z =>
            0 <= c.2 → 0 <= c.1 < 10 ∧ c.2 < 20 ∧ cell_at g c.1 c.2 = Some None) ps →
  Board.lock_positions g k ps = Ok g' →
  occupied_cells g'
  = (occupied_cells g + length (List.filter on_board ps))%nat.
Proof.
  induction ps as [|[x0 y0] ps IH]; intros g k g' Hg Hnd Hfree Hlock.
  - simpl in *. injection Hlock as <-. lia.
  - apply NoDup_cons in Hnd as [Hnotin Hnd].
    apply Forall_cons in Hfree as [Hhd Hfree]. simpl in Hhd, Hlock.
    cbn [List.filter]. unfold on_board at 1. simpl (snd _).
    destruct (Z.geb_spec y0 0) as [Hy0 | Hy0];
      destruct (Z.leb_spec 0 y0) as [Hy0' | Hy0']; try lia.
    + destruct Hhd as (Hx & Hy & Hcell); [lia|].
      apply bind_Ok in Hlock as (row & Hrow & Hlock).
      apply bind_Ok in Hlock as (row' & Hrow' & Hlock).
      apply bind_Ok in Hlock as (g1 & Hg1 & Hlock).
      destruct (lock_write g k x0 y0 row row' g1 Hg Hy0 Hrow Hrow' Hg1)
        as (_ & _ & Hg1ok & Hcells).
      rewrite (IH g1 k g' Hg1ok Hnd); [| |exact Hlock].
      * assert (Hone : occupied_cells g1 = S (occupied_cells g)).
        { apply getitem_nonneg_inv in Hrow as [Hrow _]; [|lia].
          rewrite (setitem_nonneg row x0) in Hrow'
            by (rewrite (grid_ok_row _ _ _ Hg Hrow); lia).
          injection Hrow' as <-.
          rewrite (setitem_nonneg g y0) in Hg1 by (destruct Hg as [-> _]; lia).
          injection Hg1 as <-.
          apply (occupied_cells_insert g _ _ row k Hrow).
          unfold cell_at in Hcell. rewrite Hrow in Hcell. exact Hcell. }
        rewrite Hone. simpl. lia.
      * rewrite Forall_forall in Hfree. apply Forall_forall.
        intros [cx cy] Hin Hcy. simpl in *.
        destruct (Hfree _ Hin Hcy) as (Hcx & Hcy' & Hc). simpl in *.
        split; [exact Hcx|]. split; [exact Hcy'|].
        rewrite Hcells by lia. rewrite decide_False; [exact Hc|].
        unfold wrap_column. destruct (Z.ltb_spec x0 0); [lia|].
        intros [-> ->]. contradiction.
    + rewrite (IH g k g' Hg Hnd Hfree Hlock). reflexivity.
Qed.

(** X23.  Locking a valid piece adds one block per cell of the piece at or
    below the top row: at most four, and exactly four when the anchor row is
    not negative. *)
Theorem lock_piece_occupied_cells (b : Board.t) (p : Piece.t) :
  board_ok b → piece_ok p →
  Board.is_valid_position b p = Ok true →
  ∃ b', Board.lock_piece b p = Ok b' ∧
        occupied_cells (Board.grid b')
        = (occupied_cells (Board.grid b)
           + length (List.filter on_board (Piece.get_positions p)))%nat ∧
        (occupied_cells (Board.grid b') <= occupied_cells (Board.grid b) + 4)%nat ∧
        (0 <= Piece.y p →
         occupied_cells (Board.grid b') = (occupied_cells (Board.grid b) + 4)%nat).
Proof.
  intros Hb Hp Hv. destruct (lock_piece_total b p Hb Hv) as (b' & Hlock).
  exists b'. split; [exact Hlock|].
  unfold Board.lock_piece in Hlock.
  apply bind_Ok in Hlock as (g' & Hlock & [= <-]). simpl.
  pose proof (valid_positions_in_range b _ Hb Hv) as Hfree.
  rewrite Forall_forall in Hfree.
  pose proof (piece_cells_four p Hp) as Hfour.
  destruct Hfour as [Hlen Hnd].
  rewrite (lock_positions_count _ (Board.grid b) (Piece.type p) g'
             (proj2 (proj2 Hb)) Hnd); [| |exact Hlock].
  - split; [reflexivity|]. split.
    + pose proof (filter_length_le on_board (Piece.get_positions p)). lia.
    + intros Hy. rewrite filter_all; [lia|].
      apply Forall_forall. intros [cx cy] Hin. unfold on_board. simpl.
      pose proof (piece_cells_box p cx cy Hp Hin).
      destruct (Z.leb_spec 0 cy); [reflexivity | lia].
  - apply Forall_forall. intros [cx cy] Hin Hcy. simpl in *.
    pose proof (Hfree _ Hin) as Hn. unfold offending in Hn. simpl in Hn.
    split; [lia|]. split; [lia|].
    destruct (cell_at_in_range (Board.grid b) cx cy (proj2 (proj2 Hb)))
      as ([k|] & Hc); [lia | lia | | exact Hc].
    exfalso. apply Hn. right. right. right. split; [lia|].
    apply cell_at_taken. eauto.
Qed.

(** ** Rendering *)

Lemma elem_of_draw_piece p cx cy k :
  (cx, cy, k) ∈ draw_piece p ↔ k = Piece.type p ∧ occupies p cx cy ∧ 0 <= cy.
Proof.
  unfold draw_piece. rewrite elem_of_flat_map. split.
  - intros ([x y] & Hin & Hc). apply elem_of_get_positions in Hin.
    destruct (Z.geb_spec y 0); [|inversion Hc].
    apply list_elem_of_singleton in Hc. injection Hc as -> -> ->. auto.
  - intros (-> & Hocc & Hcy). exists (cx, cy).
    split; [apply elem_of_get_positions; exact Hocc|].
    destruct (Z.geb_spec cy 0); [|lia]. apply list_elem_of_singleton. reflexivity.
Qed.

Lemma draw_block_disjoint cx cy cx' cy' :
  (cx, cy) ≠ (cx', cy') →
  rect_disjoint (draw_block cx cy).2 (draw_block cx' cy').2.
Proof.
  intros Hne. unfold rect_disjoint, draw_block, BLOCK_SIZE, BOARD_X, BOARD_Y.
  simpl.
  destruct (Z.lt_trichotomy cx cx') as [? | [-> | ?]]; [lia | | lia].
  destruct (Z.lt_trichotomy cy cy') as [? | [-> | ?]]; [lia | | lia].
  contradiction.
Qed.

(** X24.  The board frame lies inside the window, and every block
    [draw_piece] draws for a validly placed piece lies inside the board
    frame, its filling inside its border, and shares no pixel with the block
    of another cell. *)
Theorem draw_piece_inside_board (b : Board.t) (p : Piece.t) :
  board_ok b →
  Board.is_valid_position b p = Ok true →
  rect_inside board_frame window ∧
  ∀ cx cy k, (cx, cy, k) ∈ draw_piece p →
    k = Piece.type p ∧
    rect_inside (draw_block cx cy).1 (draw_block cx cy).2 ∧
    rect_inside (draw_block cx cy).2 board_frame ∧
    ∀ cx' cy' k', (cx', cy', k') ∈ draw_piece p → (cx', cy') ≠ (cx, cy) →
                  rect_disjoint (draw_block cx cy).2 (draw_block cx' cy').2.
Proof.
  intros Hb Hv. split; [vm_compute; repeat split; discriminate|].
  intros cx cy k (-> & Hocc & Hcy)%elem_of_draw_piece.
  split; [reflexivity|].
  pose proof (valid_positions_in_range b _ Hb Hv) as Hfree.
  rewrite Forall_forall in Hfree.
  pose proof (Hfree (cx, cy) (proj2 (elem_of_get_positions p cx cy) Hocc)) as Hn.
  unfold offending in Hn. simpl in Hn.
  split; [|split].
  - unfold rect_inside, draw_block, BLOCK_SIZE. simpl. lia.
  - unfold rect_inside, draw_block, board_frame, BLOCK_SIZE, BOARD_X, BOARD_Y,
      BOARD_WIDTH, BOARD_HEIGHT. simpl. lia.
  - intros cx' cy' k' _ Hne. apply draw_block_disjoint. congruence.
Qed.

Lemma elem_of_draw_row row_idx row cx cy k :
  (cx, cy, k) ∈ draw_row row_idx row ↔
  cy = row_idx ∧ 0 <= cx ∧ row !! Z.to_nat cx = Some (Some k).
Proof.
  unfold draw_row. rewrite elem_of_flat_map. split.
  - intros ([col_idx [k'|]] & Hin & Hc); [|inversion Hc].
    apply elem_of_enumerate in Hin as (c & Hc' & ->).
    apply list_elem_of_singleton in Hc. injection Hc as -> -> ->.
    rewrite Nat2Z.id. split; [reflexivity|]. split; [lia | exact Hc'].
  - intros (-> & Hcx & Hk). exists (cx, Some k). split.
    + apply elem_of_enumerate. exists (Z.to_nat cx). split; [exact Hk | lia].
    + apply list_elem_of_singleton. reflexivity.
Qed.

Lemma draw_row_length (row : list (option Kind.t)) : ∀ (start row_idx : Z),
  length (flat_map (fun '(col_idx, cell) =>
                      match cell with
                      | Some k => [(col_idx, row_idx, k)]
                      | None => []
                      end)
                   (enumerate_from start row))
  = length (List.filter Board.is_not_None row).
Proof.
  induction row as [|[k|] row IH]; intros start row_idx; simpl;
    [reflexivity | |]; rewrite IH; reflexivity.
Qed.

Lemma draw_rows_length (g : list (list (option Kind.t))) : ∀ start : Z,
  length (flat_map (fun '(row_idx, row) => draw_row row_idx row)
                   (enumerate_from start g))
  = occupied_cells g.
Proof.
  induction g as [|row g IH]; intros start; simpl; [reflexivity|].
  rewrite length_app, IH, occupied_cells_cons. f_equal.
  apply draw_row_length.
Qed.

(** X25.  [draw_board] draws one block per occupied cell of the grid, at
    that cell, with the type stored there, and nothing else. *)
Theorem draw_board_cells (b : Board.t) :
  length (draw_board b) = occupied_cells (Board.grid b) ∧
  ∀ cx cy k, (cx, cy, k) ∈ draw_board b ↔
             0 <= cx ∧ 0 <= cy ∧ cell_at (Board.grid b) cx cy = Some (Some k).
Proof.
  split; [apply draw_rows_length|].
  intros cx cy k. unfold draw_board, cell_at. rewrite elem_of_flat_map. split.
  - intros ([row_idx row] & Hin & Hc).
    apply elem_of_enumerate in Hin as (r & Hr & ->).
    apply elem_of_draw_row in Hc as (-> & Hcx & Hk).
    rewrite Nat2Z.id, Hr. split; [exact Hcx|]. split; [lia | exact Hk].
  - intros (Hcx & Hcy & Hk).
    destruct (Board.grid b !! Z.to_nat cy) as [row|] eqn:Hrow; [|discriminate].
    exists (cy, row). split.
    + apply elem_of_enumerate. exists (Z.to_nat cy). split; [exact Hrow | lia].
    + apply elem_of_draw_row. auto.
Qed.


(** ** Instances on concrete states *)

(** Key presses lead from a state of a match to a state of a match. *)
Lemma press_keys_played calls rnd keys : ∀ t t',
  played t → press_keys calls rnd keys t = Some (Ok t') → played t'.
Proof.
  induction keys as [|key keys IH]; intros t t' Hpl; simpl.
  - intros [= <-]. exact Hpl.
  - destruct (keydown_playing calls rnd rnd 0 key t) as [[[t1 screen]|e]|] eqn:Hkey;
      [|discriminate|discriminate].
    apply IH. exact (played_key _ _ _ _ _ _ _ _ Hpl Hkey).
Qed.

Lemma after_keys_played keys t : played t → played (after_keys keys t).
Proof.
  intros Hpl. unfold after_keys.
  destruct (press_keys 21 Kind.I keys t) as [[t'|e]|] eqn:Hkeys;
    [|exact Hpl|exact Hpl].
  exact (press_keys_played _ _ _ _ _ Hpl Hkeys).
Qed.


Lemma catalogue_piece_cells_witness :
  length (Piece.get_positions (Piece.new Kind.L)) = 4%nat ∧
  NoDup (Piece.get_positions (Piece.new Kind.L)).
Proof.
  destruct (catalogue_piece_cells (Piece.new Kind.L)) as (Hlen & Hnodup & _);
    [piece_shape|].
  split; [exact Hlen | exact Hnodup].
Defined.

Lemma lock_piece_cells_witness :
  ∃ b', Board.lock_piece gap_board (Tetris.current_piece O_over_gap) = Ok b' ∧
        cell_at (Board.grid b') 3 18 = Some (Some Kind.O) ∧
        cell_at (Board.grid b') 2 18 = cell_at (Board.grid gap_board) 2 18.
Proof.
  destruct (lock_piece_cells gap_board (Tetris.current_piece O_over_gap))
    as (b' & Hlock & _ & _ & Hcells); [board_shape | reflexivity |].
  exists b'. split; [exact Hlock|].
  vm_compute in Hlock. injection Hlock as <-. split; reflexivity.
Defined.

Lemma lock_piece_returns_iff_witness :
  ∃ b', Board.lock_piece Board.new O_off_left_edge = Ok b' ∧
        cell_at (Board.grid b') (wrap_column (-1)) 0 = Some (Some Kind.O).
Proof.
  destruct (lock_piece_returns_iff Board.new O_off_left_edge)
    as (_ & _ & Hwrap); [board_shape|].
  eexists. split; [vm_compute; reflexivity|].
  refine (proj2 (Hwrap _ _) (-1) 0 _ _); [vm_compute; reflexivity | | lia].
  exists 0%nat, 0%nat, [1; 1], 1. repeat split. discriminate.
Defined.

Lemma lock_piece_sets_game_over_witness :
  ∃ s', Tetris.lock_piece O_over_gap Kind.T = Ok s' ∧
        (Tetris.game_over s' = true ↔
           Tetris.game_over O_over_gap = true ∨
           (∃ cx, 0 <= cx < 10 ∧ taken (Tetris.board s') cx 0) ∨
           Board.is_valid_position (Tetris.board s') (Tetris.next_piece O_over_gap)
           = Ok false).
Proof.
  apply (lock_piece_sets_game_over O_over_gap Kind.T); [board_shape | reflexivity].
Defined.

Lemma clear_lines_idempotent_witness :
  Board.clear_lines (Board.clear_lines filled_board).1
  = ((Board.clear_lines filled_board).1, 0).
Proof. apply (clear_lines_idempotent filled_board). reflexivity. Defined.

Lemma clear_lines_occupied_cells_witness :
  (occupied_cells (Board.grid (Board.clear_lines filled_board).1)
   + 10 * Z.to_nat (Board.clear_lines filled_board).2)%nat
  = occupied_cells (Board.grid filled_board).
Proof. apply (clear_lines_occupied_cells filled_board). board_shape. Defined.

Lemma played_never_raises_witness : tetris_ok twice_lifted_I.
Proof.
  apply (played_never_raises twice_lifted_I).
  apply after_keys_played, played_new.
Defined.

Lemma move_left_then_right_witness :
  ∃ s1, Tetris.move_left fresh_O = Ok s1 ∧ Tetris.move_right s1 = Ok fresh_O.
Proof.
  eexists. split; [vm_compute; reflexivity|].
  apply (move_left_then_right fresh_O);
    [board_shape | reflexivity | reflexivity | discriminate].
Defined.

Lemma move_right_then_left_witness :
  ∃ s1, Tetris.move_right fresh_O = Ok s1 ∧ Tetris.move_left s1 = Ok fresh_O.
Proof.
  eexists. split; [vm_compute; reflexivity|].
  apply (move_right_then_left fresh_O);
    [board_shape | reflexivity | reflexivity | discriminate].
Defined.

Lemma update_once_per_tick_witness :
  ∃ s1, Tetris.update fresh_O 501 Kind.J = Ok s1 ∧
        Tetris.update s1 501 Kind.L = Ok s1.
Proof.
  eexists. split; [vm_compute; reflexivity|].
  apply (update_once_per_tick fresh_O _ 501 Kind.J Kind.L);
    [vm_compute; discriminate | reflexivity].
Defined.

Lemma reset_is_a_new_match_witness :
  Tetris.reset O_over_gap Kind.I Kind.J 7 = Tetris.new Kind.I Kind.J 7.
Proof.
  apply (reset_is_a_new_match O_over_gap); reflexivity.
Defined.

Lemma hard_drop_stops_at_first_block_witness :
  ∃ (s' : Tetris.t) (n : nat),
    Tetris.hard_drop 21 fresh_O Kind.J = Some (Ok s') ∧
    Board.is_valid_position (Tetris.board fresh_O)
      (Piece.set_y (Piece.y (Tetris.current_piece fresh_O) + Z.of_nat n)
                   (Tetris.current_piece fresh_O)) = Ok false.
Proof.
  destruct (Tetris.hard_drop 21 fresh_O Kind.J) as [[s'|]|] eqn:Hdrop;
    [ | vm_compute in Hdrop; discriminate | vm_compute in Hdrop; discriminate ].
  destruct (hard_drop_stops_at_first_block 21 Kind.J fresh_O s' Hdrop)
    as (n & _ & _ & Hblock & _).
  exists s', n. split; [reflexivity | exact Hblock].
Defined.

Lemma rotate_piece_displacement_witness :
  ∃ s', Tetris.rotate_piece I_at_right_wall = Ok s' ∧
        -3 <= Piece.x (Tetris.current_piece s')
              - Piece.x (Tetris.current_piece I_at_right_wall) <= 3.
Proof.
  destruct (rotate_piece_displacement I_at_right_wall)
    as (s' & Hrot & _ & _ & Hx & _); [board_shape|].
  exists s'. split; [exact Hrot | exact Hx].
Defined.

Lemma played_scoring_steps_witness :
  keydown_playing 21 Kind.I Kind.I 0 K_SPACE before_line
  = Some (Ok (after_line, STATE_PLAYING)) ∧
  Tetris.score after_line = 100 ∧
  scored before_line after_line.
Proof.
  assert (Hkey : keydown_playing 21 Kind.I Kind.I 0 K_SPACE before_line
                 = Some (Ok (after_line, STATE_PLAYING)))
    by (vm_compute; reflexivity).
  split; [exact Hkey|]. split; [reflexivity|].
  apply (proj1 (played_scoring_steps before_line
                  (after_keys_played _ _ (played_new _ _ _)))
               21%nat Kind.I Kind.I 0 K_SPACE after_line STATE_PLAYING Hkey).
  left. reflexivity.
Defined.

Lemma played_score_bounds_witness :
  Tetris.lines_cleared after_line = 1 ∧
  100 * Tetris.lines_cleared after_line <= Tetris.score after_line
  <= 400 * Tetris.lines_cleared after_line.
Proof.
  split; [reflexivity|].
  apply (played_score_bounds after_line).
  apply after_keys_played, after_keys_played, played_new.
Defined.

Lemma main_never_crashes_witness :
  ∃ t, tetris App_playing = Some t ∧ tetris_ok t.
Proof.
  apply (main_never_crashes App_playing); [|reflexivity].
  apply (app_event 0 Kind.S Kind.Z 0 (KEYDOWN K_1) App_start);
    [apply app_start | reflexivity].
Defined.

Lemma lock_piece_blocks_witness :
  ∃ b', Board.lock_piece gap_board (Tetris.current_piece O_over_gap) = Ok b' ∧
        Board.is_valid_position b'
          (Piece.set_y 18 (Piece.set_x 4 (Piece.new Kind.I))) = Ok false.
Proof.
  eexists. split; [vm_compute; reflexivity|].
  apply (lock_piece_blocks gap_board _ (Tetris.current_piece O_over_gap) _ 4 18);
    [board_shape | reflexivity | reflexivity | | | lia].
  - exists 0%nat, 1%nat, [1; 1], 1. repeat split. discriminate.
  - exists 0%nat, 0%nat, [1; 1; 1; 1], 1. repeat split. discriminate.
Defined.

Lemma played_top_row_empty_witness :
  Board.is_game_over (Tetris.board twice_lifted_I) = Ok false.
Proof.
  apply (played_top_row_empty twice_lifted_I);
    [apply after_keys_played, played_new | reflexivity].
Defined.

Lemma played_constants_witness :
  Tetris.fall_speed after_line = FALL_SPEED ∧
  ∃ k, Tetris.next_piece after_line = Piece.new k.
Proof.
  destruct (played_constants after_line) as (Hfs & Hnext & _);
    [apply after_keys_played, after_keys_played, played_new|].
  split; [exact Hfs | exact Hnext].
Defined.

Lemma played_anchor_row_witness :
  Piece.y (Tetris.current_piece twice_lifted_I) = -2 ∧
  ∃ t', Tetris.hard_drop 23 twice_lifted_I Kind.J = Some (Ok t').
Proof.
  split; [reflexivity|].
  apply (played_anchor_row twice_lifted_I Kind.J);
    [apply after_keys_played, played_new | reflexivity].
Defined.

Lemma lock_piece_occupied_cells_witness :
  ∃ b', Board.lock_piece gap_board (Tetris.current_piece O_over_gap) = Ok b' ∧
        occupied_cells (Board.grid b')
        = (occupied_cells (Board.grid gap_board) + 4)%nat.
Proof.
  destruct (lock_piece_occupied_cells gap_board (Tetris.current_piece O_over_gap))
    as (b' & Hlock & _ & _ & Hfour); [board_shape | piece_shape | reflexivity |].
  exists b'. split; [exact Hlock|]. apply Hfour. vm_compute. discriminate.
Defined.

Lemma draw_piece_inside_board_witness :
  ∃ r, r = (draw_block 3 18).2 ∧ rect_inside r board_frame.
Proof.
  eexists. split; [reflexivity|].
  destruct (draw_piece_inside_board gap_board (Tetris.current_piece O_over_gap))
    as [_ Hdraw]; [board_shape | reflexivity |].
  apply (Hdraw 3 18 Kind.O). vm_compute. left.
Defined.

Lemma clear_lines_nothing_to_clear_witness :
  (Board.clear_lines gap_board).2 = 0.
Proof.
  apply (proj2 (clear_lines_nothing_to_clear gap_board));
    [reflexivity | reflexivity].
Defined.
